(** * databaser: a shallow embedding of the schema model, the key stores,
      the settings loader and the transporter

    The development follows the layout of the Python package:
    [Settings] (settings.py, core/settings_helpers.py), [Helpers]
    (core/helpers.py), [Storages] (core/storages.py), [DbEntities]
    (core/db_entities.py) and [Transporters] (core/transporters.py).
    Definitions come first; the statements proved about them follow. *)

From stdpp Require Import base option list strings gmap sorting pretty.
From Stdlib Require Import ZArith Lia Ascii.

Local Open Scope string_scope.
Local Open Scope Z_scope.

(** ** Exceptions and the error monad

    Python exceptions that the modelled code raises or lets through.  A
    computation that can raise returns a [result]. *)

Inductive exn : Type :=
| ValueError (msg : string)
| AttributeError
| KeyError
| TypeError
| AssertionError
| PostgresError.

Inductive result (A : Type) : Type :=
| Ok (a : A)
| Raise (e : exn).

Arguments Ok {A} a.
Arguments Raise {A} e.

#[global] Instance result_ret : MRet result := @Ok.
#[global] Instance result_bind : MBind result := λ A B f m,
  match m with
  | Ok a => f a
  | Raise e => Raise e
  end.

(** Records written by [logger.info] / [logger.warning]. *)
Inductive log_level : Type := INFO | WARNING.

(** ** settings_helpers.py and settings.py *)

Module Settings.

(** [str.isspace] on the ASCII range: TAB..CR, FS..US and SPACE. *)
Definition is_py_space (c : ascii) : bool :=
  let n := N_of_ascii c in
  ((9 <=? n)%N && (n <=? 13)%N) || ((28 <=? n)%N && (n <=? 32)%N).

Fixpoint lstrip (s : string) : string :=
  match s with
  | String c s' => if is_py_space c then lstrip s' else s
  | EmptyString => EmptyString
  end.

Definition rstrip (s : string) : string := String.rev (lstrip (String.rev s)).

(** [str.strip()] *)
Definition strip (s : string) : string := rstrip (lstrip s).

(** [s.replace(' ', '')] *)
Fixpoint remove_spaces (s : string) : string :=
  match s with
  | String c s' =>
      if Ascii.eqb c " "%char then remove_spaces s' else String c (remove_spaces s')
  | EmptyString => EmptyString
  end.

(** [s.split(sep)] for a one-character separator (every caller keeps the
    default [',']). *)
Fixpoint split (sep : ascii) (s : string) : list string :=
  match s with
  | EmptyString => [EmptyString]
  | String c s' =>
      if Ascii.eqb c sep then EmptyString :: split sep s'
      else match split sep s' with
           | h :: t => String c h :: t
           | [] => [String c EmptyString]
           end
  end.

(** Truth value of a [str]. *)
Definition truthy_str (s : string) : bool :=
  match s with EmptyString => false | _ => true end.

(** Truth value of a tuple or list. *)
Definition truthy_seq {A} (l : list A) : bool :=
  match l with [] => false | _ => true end.

(** [map(type_, xs)] forced by [tuple(...)] / [list(...)]: the first element
    that [type_] rejects raises. *)
Fixpoint map_type {A} (type_ : string → result A) (xs : list string)
  : result (list A) :=
  match xs with
  | [] => Ok []
  | x :: xs' => v ← type_ x; vs ← map_type type_ xs'; Ok (v :: vs)
  end.

Section Loader.

(** The built-ins the helpers call on environment text: [int(s)] and
    [distutils.util.strtobool(s)]; [None] stands for their [ValueError]. *)
Variable py_int : string → option Z.
Variable strtobool : string → option bool.

(** [LogLevelEnum.INFO] of core/enums.py. *)
Variable LogLevelEnum_INFO : string.

(** [os.environ] *)
Variable environ : gmap string string.

(** [os.environ.get(name, default)] *)
Definition environ_get (name default : string) : string :=
  match environ !! name with
  | Some value => value
  | None => default
  end.

Definition get_str_environ_parameter (name default : string) : string :=
  strip (environ_get name default).

Definition int_of (s : string) : result Z :=
  match py_int s with
  | Some z => Ok z
  | None => Raise (ValueError "invalid literal for int()")
  end.

Definition get_int_environ_parameter (name : string) (default : Z) : result Z :=
  match environ !! name with
  | Some s => int_of s
  | None => Ok default
  end.

Definition get_bool_environ_parameter (name : string) (default : bool)
  : result bool :=
  match environ !! name with
  | Some parameter_value =>
      if truthy_str parameter_value then
        match strtobool parameter_value with
        | Some b => Ok b
        | None => Raise (ValueError "invalid truth value")
        end
      else Ok default
  | None => Ok default
  end.

Definition get_iterable_environ_parameter {A} (name : string)
    (type_ : string → result A) : result (list A) :=
  map_type type_
    (filter (λ s, truthy_str s = true)
       (split ","%char (remove_spaces (environ_get name EmptyString)))).

Definition get_extensible_iterable_environ_parameter {A} (name : string)
    (type_ : string → result A) : result (list A) :=
  get_iterable_environ_parameter name type_.

(** The module-level names of settings.py. *)
Record settings : Type := {
  LOG_LEVEL : string;
  LOG_DIRECTORY : string;
  LOG_FILENAME : string;
  SRC_DB_HOST : string;
  SRC_DB_PORT : string;
  SRC_DB_SCHEMA : string;
  SRC_DB_NAME : string;
  SRC_DB_USER : string;
  SRC_DB_PASSWORD : string;
  DST_DB_HOST : string;
  DST_DB_PORT : string;
  DST_DB_SCHEMA : string;
  DST_DB_NAME : string;
  DST_DB_USER : string;
  DST_DB_PASSWORD : string;
  TEST_MODE : bool;
  KEY_TABLE_NAME : string;
  KEY_COLUMN_NAMES : list string;
  KEY_COLUMN_VALUES : list Z;
  KEY_TABLE_HIERARCHY_COLUMN_NAME : string;
  EXCLUDED_TABLES : list string;
  TABLES_WITH_GENERIC_FOREIGN_KEY : list string;
  TABLES_LIMIT_PER_TRANSACTION : Z;
  IS_TRUNCATE_TABLES : bool;
  TABLES_TRUNCATE_INCLUDED : list string;
  TABLES_TRUNCATE_EXCLUDED : list string;
  FULL_TRANSFER_TABLES : list string;
  VALIDATE_DATA_BEFORE_TRANSFERRING : bool;
  USE_DATABASE_FOR_STORE_INTERMEDIATE_VALUES : bool;
  COLLECTOR_CHUNK_SIZE : Z;
  ASYNC_SEPARATION_COEFFICIENT : Z
}.

(** The thirteen values handed to [any([...])] at settings.py:108, as their
    truth values, in the order of the list. *)
Definition required_truths
    (src_host src_port src_name src_user src_password : string)
    (dst_host dst_port dst_name dst_user dst_password : string)
    (key_table_name : string) (key_column_names : list string)
    (key_column_values : list Z) : list bool :=
  [ truthy_str src_host; truthy_str src_port; truthy_str src_name;
    truthy_str src_user; truthy_str src_password;
    truthy_str dst_host; truthy_str dst_port; truthy_str dst_name;
    truthy_str dst_user; truthy_str dst_password;
    truthy_str key_table_name; truthy_seq key_column_names;
    truthy_seq key_column_values ].

(** [if not any([...]): raise ValueError('You must send all params!')] *)
Definition check_required (truths : list bool) : result unit :=
  if negb (existsb id truths)
  then Raise (ValueError "You must send all params!")
  else Ok tt.

(** Executing the module settings.py top to bottom. *)
Definition load_settings : result settings :=
  let log_level := get_str_environ_parameter "DATABASER_LOG_LEVEL" LogLevelEnum_INFO in
  let log_directory := get_str_environ_parameter "DATABASER_LOG_DIRECTORY" "" in
  let log_filename := get_str_environ_parameter "DATABASER_LOG_FILENAME" "" in
  let src_db_host := get_str_environ_parameter "DATABASER_SRC_DB_HOST" "" in
  let src_db_port := get_str_environ_parameter "DATABASER_SRC_DB_PORT" "" in
  let src_db_schema := get_str_environ_parameter "DATABASER_SRC_DB_SCHEMA" "public" in
  let src_db_name := get_str_environ_parameter "DATABASER_SRC_DB_NAME" "" in
  let src_db_user := get_str_environ_parameter "DATABASER_SRC_DB_USER" "" in
  let src_db_password := get_str_environ_parameter "DATABASER_SRC_DB_PASSWORD" "" in
  let dst_db_host := get_str_environ_parameter "DATABASER_DST_DB_HOST" "" in
  let dst_db_port := get_str_environ_parameter "DATABASER_DST_DB_PORT" "" in
  let dst_db_schema := get_str_environ_parameter "DATABASER_DST_DB_SCHEMA" "public" in
  let dst_db_name := get_str_environ_parameter "DATABASER_DST_DB_NAME" "" in
  let dst_db_user := get_str_environ_parameter "DATABASER_DST_DB_USER" "" in
  let dst_db_password := get_str_environ_parameter "DATABASER_DST_DB_PASSWORD" "" in
  test_mode ← get_bool_environ_parameter "DATABASER_TEST_MODE" false;
  let key_table_name := get_str_environ_parameter "DATABASER_KEY_TABLE_NAME" "" in
  key_column_names ← get_iterable_environ_parameter "DATABASER_KEY_COLUMN_NAMES" Ok;
  key_column_values ← get_iterable_environ_parameter "DATABASER_KEY_COLUMN_VALUES" int_of;
  let key_table_hierarchy_column_name :=
    get_str_environ_parameter "DATABASER_KEY_TABLE_HIERARCHY_COLUMN_NAME" "" in
  excluded_tables ←
    get_extensible_iterable_environ_parameter "DATABASER_EXCLUDED_TABLES" Ok;
  tables_with_generic_foreign_key ←
    get_iterable_environ_parameter "DATABASER_TABLES_WITH_GENERIC_FOREIGN_KEY" Ok;
  tables_limit_per_transaction ←
    get_int_environ_parameter "DATABASER_TABLES_LIMIT_PER_TRANSACTION" 100;
  is_truncate_tables ← get_bool_environ_parameter "DATABASER_IS_TRUNCATE_TABLES" false;
  tables_truncate_included ←
    get_iterable_environ_parameter "DATABASER_TABLES_TRUNCATE_INCLUDED" Ok;
  tables_truncate_excluded ←
    get_iterable_environ_parameter "DATABASER_TABLES_TRUNCATE_EXCLUDED" Ok;
  full_transfer_tables ←
    get_iterable_environ_parameter "DATABASER_FULL_TRANSFER_TABLES" Ok;
  _ ← check_required
        (required_truths src_db_host src_db_port src_db_name src_db_user
           src_db_password dst_db_host dst_db_port dst_db_name dst_db_user
           dst_db_password key_table_name key_column_names key_column_values);
  validate_data_before_transferring ←
    get_bool_environ_parameter "VALIDATE_DATA_BEFORE_TRANSFERRING" false;
  use_database_for_store_intermediate_values ←
    get_bool_environ_parameter
      "DATABASER_USE_DATABASE_FOR_STORE_INTERMEDIATE_VALUES" false;
  collector_chunk_size ←
    get_int_environ_parameter "DATABASER_COLLECTOR_CHUNK_SIZE" 60000;
  async_separation_coefficient ←
    get_int_environ_parameter "DATABASER_ASYNC_SEPARATION_COEFFICIENT" (-1);
  Ok {| LOG_LEVEL := log_level;
        LOG_DIRECTORY := log_directory;
        LOG_FILENAME := log_filename;
        SRC_DB_HOST := src_db_host;
        SRC_DB_PORT := src_db_port;
        SRC_DB_SCHEMA := src_db_schema;
        SRC_DB_NAME := src_db_name;
        SRC_DB_USER := src_db_user;
        SRC_DB_PASSWORD := src_db_password;
        DST_DB_HOST := dst_db_host;
        DST_DB_PORT := dst_db_port;
        DST_DB_SCHEMA := dst_db_schema;
        DST_DB_NAME := dst_db_name;
        DST_DB_USER := dst_db_user;
        DST_DB_PASSWORD := dst_db_password;
        TEST_MODE := test_mode;
        KEY_TABLE_NAME := key_table_name;
        KEY_COLUMN_NAMES := key_column_names;
        KEY_COLUMN_VALUES := key_column_values;
        KEY_TABLE_HIERARCHY_COLUMN_NAME := key_table_hierarchy_column_name;
        EXCLUDED_TABLES := excluded_tables;
        TABLES_WITH_GENERIC_FOREIGN_KEY := tables_with_generic_foreign_key;
        TABLES_LIMIT_PER_TRANSACTION := tables_limit_per_transaction;
        IS_TRUNCATE_TABLES := is_truncate_tables;
        TABLES_TRUNCATE_INCLUDED := tables_truncate_included;
        TABLES_TRUNCATE_EXCLUDED := tables_truncate_excluded;
        FULL_TRANSFER_TABLES := full_transfer_tables;
        VALIDATE_DATA_BEFORE_TRANSFERRING := validate_data_before_transferring;
        USE_DATABASE_FOR_STORE_INTERMEDIATE_VALUES :=
          use_database_for_store_intermediate_values;
        COLLECTOR_CHUNK_SIZE := collector_chunk_size;
        ASYNC_SEPARATION_COEFFICIENT := async_separation_coefficient |}.

End Loader.

End Settings.

(** ** State with exceptions

    Stateful code is written in state-passing style: a computation maps the
    state before to its outcome and the state after.  A raised exception
    keeps the state reached so far, as side effects in Python do. *)

Definition st (S A : Type) : Type := S → result A * S.

Definition st_ret {S A} (a : A) : st S A := λ s, (Ok a, s).

Definition st_raise {S A} (e : exn) : st S A := λ s, (Raise e, s).

Definition st_bind {S A B} (m : st S A) (k : A → st S B) : st S B := λ s,
  match m s with
  | (Ok a, s') => k a s'
  | (Raise e, s') => (Raise e, s')
  end.

Definition st_get {S} : st S S := λ s, (Ok s, s).

Definition st_lift {S A} (r : result A) : st S A := λ s, (r, s).

Notation "'do' x <- m ; k" := (st_bind m (λ x, k))
  (at level 10, x name, m at level 100, k at level 200,
   format "'[v' 'do'  x  <-  m ; '/' k ']'").
Notation "'do' ' p <- m ; k" := (st_bind m (λ x, match x with p => k end))
  (at level 10, p pattern, m at level 100, k at level 200).

(** ** core/helpers.py *)

Module Helpers.

(** The chunks [make_chunks] yields once the size is known to be positive;
    the recursion is bounded by the length of the input. *)
Fixpoint chunks_go {A} (fuel : nat) (size : nat) (l : list A) : list (list A) :=
  match fuel with
  | O => []
  | S fuel' =>
      match l with
      | [] => []
      | _ => take size l :: chunks_go fuel' size (drop size l)
      end
  end.

(** [make_chunks(iterable, size)] with every chunk consumed as it is
    yielded (all callers do so).  [islice(iterator, size - 1)] raises
    [ValueError] for [size - 1 < 0]; it is reached only when the iterable
    has a first element. *)
Definition make_chunks {A} (iterable : list A) (size : Z) : result (list (list A)) :=
  match iterable with
  | [] => Ok []
  | _ :: _ =>
      if size <=? 0
      then Raise (ValueError "Stop argument for islice() must be None or an integer")
      else Ok (chunks_go (length iterable) (Z.to_nat size) iterable)
  end.

(** [deep_getattr(object_, 'name')] on an optional object that has a [name]:
    [None] has no attributes, so the default [None] comes back. *)
Definition deep_getattr_name {A} (name_of : A → string) (object_ : option A)
  : option string :=
  name_of <$> object_.

(** [make_str_from_iterable] on a tuple or list, [str_of] being [str] on its
    items: empty for an empty iterable, else the items, quoted on demand,
    joined with a comma and a space. *)
Definition make_str_from_iterable {A} (str_of : A → string) (iterable : list A)
    (with_quotes : bool) (quote : string) : string :=
  if Settings.truthy_seq iterable then
    String.concat ", "
      ((λ item, if with_quotes then quote +:+ str_of item +:+ quote else str_of item)
         <$> iterable)
  else "".

Section Executors.

Variable cfg : Settings.settings.

Context {T : Type}.

(** [execute_async_function_for_collection]: the groups of elements whose
    tasks are created together and handed to one [asyncio.wait], in order.
    What a task returns or raises is not looked at by the executor. *)
Definition execute_async_function_for_collection (args : list T)
  : result (list (list T)) :=
  chunks ← (if Settings.ASYNC_SEPARATION_COEFFICIENT cfg <=? 0 then Ok [args]
            else make_chunks args (Settings.ASYNC_SEPARATION_COEFFICIENT cfg));
  Ok (filter (λ coroutines, Settings.truthy_seq coroutines = true) chunks).

(** The loop of [execute_async_function_for_async_collection] over the items
    the asynchronous collection yields, [coroutines] being the tasks created
    and not yet awaited. *)
Fixpoint collect_tasks (args : list T) (coroutines : list T) : list (list T) :=
  match args with
  | [] => if Settings.truthy_seq coroutines then [coroutines] else []
  | i :: rest =>
      let coroutines := (coroutines ++ [i])%list in
      if (0 <? Settings.ASYNC_SEPARATION_COEFFICIENT cfg)
         && (Settings.ASYNC_SEPARATION_COEFFICIENT cfg <=? Z.of_nat (length coroutines))
      then coroutines :: collect_tasks rest []
      else collect_tasks rest coroutines
  end.

(** [execute_async_function_for_async_collection]: the groups handed to
    [asyncio.wait], in order. *)
Definition execute_async_function_for_async_collection (args : list T)
  : list (list T) :=
  collect_tasks args [].

End Executors.

Section TopologicalSort.

Context {K : Type} `{EqDecision K}.

(** A [dict] keeps its keys in the order of their first insertion. *)
Definition dict_get {V} (d : list (K * V)) (k : K) : option V :=
  (λ hit, hit.2.2) <$> list_find (λ e, e.1 = k) d.

Definition dict_set {V} (k : K) (v : V) (d : list (K * V)) : list (K * V) :=
  if decide (k ∈ d.*1)
  then (λ e, if decide (e.1 = k) then (k, v) else e) <$> d
  else (d ++ [(k, v)])%list.

(** The named tuple [Results]. *)
Record Results : Type := {
  sorted : list K;
  cyclic : list K
}.

(** One turn of the first loop, on [num_heads], [tails] and [heads]. *)
Definition add_arrow
    (state : list (K * Z) * list (K * list K) * list K) (arrow : K * K)
  : list (K * Z) * list (K * list K) * list K :=
  let '(num_heads, tails, heads) := state in
  let '(h, t) := arrow in
  let num_heads := dict_set t (default 0 (dict_get num_heads t) + 1) num_heads in
  match dict_get tails h with
  | Some ts => (num_heads, dict_set h (ts ++ [t])%list tails, heads)
  | None => (num_heads, dict_set h [t] tails, (heads ++ [h])%list)
  end.

(** The inner loop [for t in tails[h]]. *)
Fixpoint release (ts : list K) (num_heads : list (K * Z)) (ordered : list K)
  : list (K * Z) * list K :=
  match ts with
  | [] => (num_heads, ordered)
  | t :: ts' =>
      let n := default 0 (dict_get num_heads t) - 1 in
      release ts' (dict_set t n num_heads)
        (if decide (n = 0) then (ordered ++ [t])%list else ordered)
  end.

(** The loop [for h in ordered], which walks the list it appends to; [i] is
    the index reached.  [None]: out of fuel. *)
Fixpoint visit (fuel : nat) (i : nat) (tails : list (K * list K))
    (num_heads : list (K * Z)) (ordered : list K)
  : option (list (K * Z) * list K) :=
  match fuel with
  | O => None
  | S fuel' =>
      match ordered !! i with
      | None => Some (num_heads, ordered)
      | Some h =>
          let '(num_heads, ordered) :=
            release (default [] (dict_get tails h)) num_heads ordered in
          visit fuel' (S i) tails num_heads ordered
      end
  end.

(** [topological_sort] on a list of arrows (head, tail). *)
Definition topological_sort (fuel : nat) (dependency_pairs : list (K * K))
  : option Results :=
  let '(num_heads, tails, heads) := foldl add_arrow ([], [], []) dependency_pairs in
  let ordered := filter (λ h, h ∉ num_heads.*1) heads in
  match visit fuel 0 tails num_heads ordered with
  | Some (num_heads, ordered) =>
      Some {| sorted := ordered;
              cyclic := (filter (λ e, e.2 ≠ 0) num_heads).*1 |}
  | None => None
  end.

End TopologicalSort.

End Helpers.

(** ** The scratch relation and the two [StorageDataTable] classes

    The module core/storages.py and the tail of core/db_entities.py each
    declare a class [StorageDataTable] with the same SQL templates.  Both
    write the relation [storage_data(group_id, data)] of the destination
    database, and each keeps its own class attributes [_last_group_number] and
    [_dst_db].  SQL statements are modelled by their effect on the relation:
    [UNIQUE (group_id, data)] with [ON CONFLICT DO NOTHING] makes it a set of
    rows.  Logging inside [execute_raw_sql] / [fetch_raw_sql] is left out. *)

Module Storages.

(** An identifier handed to a store: [Union[int, str]]. *)
Inductive pk : Type :=
| PkInt (i : Z)
| PkStr (s : string).

(** [str(i)] *)
Definition str (i : pk) : string :=
  match i with
  | PkInt z => pretty z
  | PkStr s => s
  end.

(** Which of the two classes an object is an instance of. *)
Inductive sdt_class : Type :=
| InStorages     (* databaser.core.storages.StorageDataTable *)
| InDbEntities.  (* databaser.core.db_entities.StorageDataTable *)

(** Class attributes; [_dst_db] tells whether the class attribute is bound
    to the destination database or still [None]. *)
Record class_attrs : Type := {
  _last_group_number : Z;
  _dst_db : bool
}.

(** The process and the destination database, as far as the stores see them.
    [storage_data] is [None] while the relation does not exist. *)
Record World : Type := {
  storage_data : option (gset (Z * string));
  storages_cls : class_attrs;
  entities_cls : class_attrs
}.

Definition cls_attrs (k : sdt_class) (w : World) : class_attrs :=
  match k with
  | InStorages => storages_cls w
  | InDbEntities => entities_cls w
  end.

Definition set_cls_attrs (k : sdt_class) (a : class_attrs) (w : World) : World :=
  match k with
  | InStorages =>
      {| storage_data := storage_data w; storages_cls := a;
         entities_cls := entities_cls w |}
  | InDbEntities =>
      {| storage_data := storage_data w; storages_cls := storages_cls w;
         entities_cls := a |}
  end.

Definition set_storage_data (r : option (gset (Z * string))) (w : World) : World :=
  {| storage_data := r; storages_cls := storages_cls w;
     entities_cls := entities_cls w |}.

(** Instance attributes of a [StorageDataTable]. *)
Record StorageDataTable : Type := {
  _have_value : bool;
  _group : Z
}.

(** Instance attributes of a [StorageList]. *)
Record StorageList : Type := {
  _storage : gset string
}.

(** A store object with its dynamic class. *)
Inductive Store : Type :=
| StorageList_obj (s : StorageList)
| StorageDataTable_obj (k : sdt_class) (s : StorageDataTable).

(** The argument of [insert] / [update_need_transfer_pks]: a sized iterable
    of identifiers, or some store object. *)
Inductive pks_arg : Type :=
| ArgIterable (data : list pk)
| ArgStore (s : Store).

(** The data column of the rows of one group. *)
Definition group_data (r : gset (Z * string)) (group : Z) : gset string :=
  set_map snd (filter (λ row, row.1 = group) r).

(** [... ORDER BY data] *)
Definition ordered (s : gset string) : list string :=
  merge_sort String.le (elements s).

(** [LIMIT limit OFFSET offset] on an ordered result; PostgreSQL rejects a
    negative [LIMIT] or [OFFSET]. *)
Definition limit_offset (rows : list string) (limit offset : Z)
  : result (list string) :=
  if (limit <? 0) || (offset <? 0) then Raise PostgresError
  else Ok (take (Z.to_nat limit) (drop (Z.to_nat offset) rows)).

Section WithSettings.

(** The class whose methods are being run, and its chunk size:
    [COLLECTOR_CHUNK_SIZE] in storages.py, [CHUNK_SIZE = 30000] in
    db_entities.py. *)
Variable cfg : Settings.settings.

Definition chunk_size_of (k : sdt_class) : Z :=
  match k with
  | InStorages => Settings.COLLECTOR_CHUNK_SIZE cfg
  | InDbEntities => 30000
  end.

(** The relation as [StorageDataTable._dst_db.execute_raw_sql] /
    [fetch_raw_sql] reach it: [AttributeError] while [_dst_db] is [None], a
    database error while the relation does not exist. *)
Definition relation (k : sdt_class) : st World (gset (Z * string)) := λ w,
  if _dst_db (cls_attrs k w) then
    match storage_data w with
    | Some r => (Ok r, w)
    | None => (Raise PostgresError, w)
    end
  else (Raise AttributeError, w).

(** [StorageDataTable.__init__] *)
Definition StorageDataTable_init (k : sdt_class) : st World StorageDataTable := λ w,
  let n := _last_group_number (cls_attrs k w) + 1 in
  (Ok {| _have_value := false; _group := n |},
   set_cls_attrs k {| _last_group_number := n; _dst_db := _dst_db (cls_attrs k w) |} w).

(** [StorageDataTable.drop_table]: [DROP TABLE IF EXISTS storage_data] *)
Definition drop_table (k : sdt_class) : st World unit := λ w,
  if _dst_db (cls_attrs k w) then (Ok tt, set_storage_data None w)
  else (Raise AttributeError, w).

(** [StorageDataTable.init_table(dst_db)] *)
Definition init_table (k : sdt_class) : st World unit := λ w,
  let w1 := set_cls_attrs k
              {| _last_group_number := _last_group_number (cls_attrs k w);
                 _dst_db := true |} w in
  (Ok tt, set_storage_data (Some ∅) (set_storage_data None w1)).

(** [StorageDataTable.delete]; only the class of storages.py resets
    [_have_value]. *)
Definition sdt_delete (k : sdt_class) (self : StorageDataTable)
  : st World StorageDataTable :=
  do r <- relation k;
  do _ <- (λ w, (Ok tt,
             set_storage_data (Some (filter (λ row, row.1 ≠ _group self) r)) w));
  st_ret match k with
         | InStorages => {| _have_value := false; _group := _group self |}
         | InDbEntities => self
         end.

(** The rows [INSERT INTO storage_data (group_id, data) VALUES ...] names:
    [(self._group, i)] for each [i], the data column holding [i] as text. *)
Definition insert_rows (self : StorageDataTable) (data : list pk)
  : gset (Z * string) :=
  list_to_set ((λ i, (_group self, str i)) <$> data).

(** [StorageDataTable.insert] on a sized iterable. *)
Definition sdt_insert (k : sdt_class) (self : StorageDataTable) (data : list pk)
  : st World unit :=
  match data with
  | [] => st_ret tt
  | _ :: _ =>
      do r <- relation k;
      λ w, (Ok tt, set_storage_data (Some (r ∪ insert_rows self data)) w)
  end.

(** One turn of the loop of [BaseDatabase.get_iter] for the query
    [ALL_DATA_SQL_TEMPLATE] of [self]: the page at [step]. *)
Definition fetch_page (k : sdt_class) (self : StorageDataTable) (step : Z)
  : st World (list string) :=
  do r <- relation k;
  st_lift (limit_offset (ordered (group_data r (_group self)))
             (chunk_size_of k) (chunk_size_of k * step)).

(** [StorageDataTable.__aiter__] run to its end, the chunks collected:
    [get_iter] stops at the first empty page.  [None]: out of fuel. *)
Fixpoint sdt_aiter (fuel : nat) (k : sdt_class) (self : StorageDataTable)
    (step : Z) (w : World) : option (result (list (list string)) * World) :=
  match fuel with
  | O => None
  | S fuel' =>
      match fetch_page k self step w with
      | (Raise e, w') => Some (Raise e, w')
      | (Ok [], w') => Some (Ok [], w')
      | (Ok data, w') =>
          match sdt_aiter fuel' k self (step + 1) w' with
          | Some (Ok chunks, w'') => Some (Ok (data :: chunks), w'')
          | other => other
          end
      end
  end.

(** [StorageDataTable.add_storage_data]: [async for chunk in storage_data:
    await self.insert(chunk)], the pages of [other] fetched one by one
    between the inserts. *)
Fixpoint sdt_add_storage_data (fuel : nat) (k : sdt_class)
    (self : StorageDataTable) (ko : sdt_class) (other : StorageDataTable)
    (step : Z) (w : World) : option (result unit * World) :=
  match fuel with
  | O => None
  | S fuel' =>
      match fetch_page ko other step w with
      | (Raise e, w') => Some (Raise e, w')
      | (Ok [], w') => Some (Ok tt, w')
      | (Ok chunk, w') =>
          match sdt_insert k self (PkStr <$> chunk) w' with
          | (Raise e, w'') => Some (Raise e, w'')
          | (Ok _, w'') =>
              sdt_add_storage_data fuel' k self ko other (step + 1) w''
          end
      end
  end.

(** [StorageDataTable.is_not_empty]: the answer and the object after the
    call. *)
Definition sdt_is_not_empty (k : sdt_class) (self : StorageDataTable)
  : st World (bool * StorageDataTable) :=
  if _have_value self then st_ret (true, self)
  else
    do r <- relation k;
    let exist := bool_decide (group_data r (_group self) ≠ ∅) in
    st_ret (exist, {| _have_value := exist; _group := _group self |}).

(** [StorageDataTable.len] *)
Definition sdt_len (k : sdt_class) (self : StorageDataTable) : st World Z :=
  do r <- relation k;
  st_ret (Z.of_nat (size (group_data r (_group self)))).

(** [StorageDataTable.all] *)
Definition sdt_all (k : sdt_class) (self : StorageDataTable)
  : st World (list string) :=
  do r <- relation k;
  st_ret (ordered (group_data r (_group self))).

(** *** [StorageList]: the store kept in memory *)

(** [StorageList.__init__] *)
Definition StorageList_init : StorageList := {| _storage := ∅ |}.

(** [StorageList.delete] *)
Definition sl_delete (self : StorageList) : StorageList := {| _storage := ∅ |}.

(** [StorageList.insert] on a sized iterable. *)
Definition sl_insert (self : StorageList) (data : list pk) : StorageList :=
  match data with
  | [] => self
  | _ :: _ => {| _storage := _storage self ∪ list_to_set (str <$> data) |}
  end.

(** [StorageList.add_storage_data] *)
Definition sl_add_storage_data (self other : StorageList) : StorageList :=
  {| _storage := _storage self ∪ _storage other |}.

(** [StorageList.is_not_empty] *)
Definition sl_is_not_empty (self : StorageList) : bool :=
  bool_decide (_storage self ≠ ∅).

(** [StorageList.len] *)
Definition sl_len (self : StorageList) : Z := Z.of_nat (size (_storage self)).

(** [StorageList.__aiter__] run to its end; a Python set is iterated in an
    order of its own, here the one of [elements]. *)
Definition sl_aiter (self : StorageList) : result (list (list string)) :=
  Helpers.make_chunks (elements (_storage self)) (Settings.COLLECTOR_CHUNK_SIZE cfg).

(** [StorageList.iter_difference] run to its end. *)
Definition sl_iter_difference (self other : StorageList)
  : result (list (list string)) :=
  Helpers.make_chunks (elements (_storage self ∖ _storage other))
    (Settings.COLLECTOR_CHUNK_SIZE cfg).

(** [StorageList.all] *)
Definition sl_all (self : StorageList) : list string := elements (_storage self).

(** *** Method calls on a store object, by its dynamic class *)

(** [create_storage()] of storages.py *)
Definition create_storage : st World Store :=
  if Settings.USE_DATABASE_FOR_STORE_INTERMEDIATE_VALUES cfg
  then do s <- StorageDataTable_init InStorages;
       st_ret (StorageDataTable_obj InStorages s)
  else st_ret (StorageList_obj StorageList_init).

(** [await store.delete()] *)
Definition store_delete (store : Store) : st World Store :=
  match store with
  | StorageList_obj s => st_ret (StorageList_obj (sl_delete s))
  | StorageDataTable_obj k s =>
      do s' <- sdt_delete k s; st_ret (StorageDataTable_obj k s')
  end.

(** [await store.insert(data)].  A store object handed in as [data] is
    truthy and not iterable ([__aiter__] only): both classes raise
    [TypeError] before they change anything. *)
Definition store_insert (store : Store) (data : pks_arg) : st World Store :=
  match data with
  | ArgStore _ => st_raise TypeError
  | ArgIterable data =>
      match store with
      | StorageList_obj s => st_ret (StorageList_obj (sl_insert s data))
      | StorageDataTable_obj k s => do _ <- sdt_insert k s data; st_ret store
      end
  end.

(** Inserting the chunks an in-memory store yields into a scratch store. *)
Fixpoint sdt_insert_chunks (k : sdt_class) (self : StorageDataTable)
    (chunks : list (list string)) : st World unit :=
  match chunks with
  | [] => st_ret tt
  | chunk :: rest =>
      do _ <- sdt_insert k self (PkStr <$> chunk);
      sdt_insert_chunks k self rest
  end.

(** [await store.add_storage_data(storage_data)].  [StorageList] reads
    [storage_data._storage], which a [StorageDataTable] does not have;
    [StorageDataTable] iterates [storage_data] asynchronously, whatever its
    class. *)
Definition store_add_storage_data (fuel : nat) (store other : Store) (w : World)
  : option (result Store * World) :=
  match store, other with
  | StorageList_obj s, StorageList_obj o =>
      Some (Ok (StorageList_obj (sl_add_storage_data s o)), w)
  | StorageList_obj _, StorageDataTable_obj _ _ => Some (Raise AttributeError, w)
  | StorageDataTable_obj k s, StorageDataTable_obj ko o =>
      match sdt_add_storage_data fuel k s ko o 0 w with
      | Some (Ok _, w') => Some (Ok store, w')
      | Some (Raise e, w') => Some (Raise e, w')
      | None => None
      end
  | StorageDataTable_obj k s, StorageList_obj o =>
      match sl_aiter o with
      | Raise e => Some (Raise e, w)
      | Ok chunks =>
          match sdt_insert_chunks k s chunks w with
          | (Ok _, w') => Some (Ok store, w')
          | (Raise e, w') => Some (Raise e, w')
          end
      end
  end.

(** [await store.is_not_empty()] *)
Definition store_is_not_empty (store : Store) : st World (bool * Store) :=
  match store with
  | StorageList_obj s => st_ret (sl_is_not_empty s, store)
  | StorageDataTable_obj k s =>
      do '(b, s') <- sdt_is_not_empty k s;
      st_ret (b, StorageDataTable_obj k s')
  end.

(** [await store.len()] *)
Definition store_len (store : Store) : st World Z :=
  match store with
  | StorageList_obj s => st_ret (sl_len s)
  | StorageDataTable_obj k s => sdt_len k s
  end.

(** [async for chunk in store], the chunks collected. *)
Definition store_aiter (fuel : nat) (store : Store) (w : World)
  : option (result (list (list string)) * World) :=
  match store with
  | StorageList_obj s => Some (sl_aiter s, w)
  | StorageDataTable_obj k s => sdt_aiter fuel k s 0 w
  end.

(** The identifiers a store holds, whatever the state of its connection:
    the set itself, or the data of its group in the scratch relation. *)
Definition stored_ids (store : Store) (w : World) : gset string :=
  match store with
  | StorageList_obj s => _storage s
  | StorageDataTable_obj _ s =>
      match storage_data w with
      | Some r => group_data r (_group s)
      | None => ∅
      end
  end.

End WithSettings.

Section Difference.

Variable cfg : Settings.settings.

(** [BaseDatabase.get_iter] run to its end, the chunks collected:
    [fetch_raw_sql] is the page query at a step, and the loop stops at the
    first empty page.  [None]: out of fuel. *)
Fixpoint get_iter {S} (fuel : nat) (fetch_raw_sql : Z → st S (list string))
    (step : Z) (s : S) : option (result (list (list string)) * S) :=
  match fuel with
  | O => None
  | S fuel' =>
      match fetch_raw_sql step s with
      | (Raise e, s') => Some (Raise e, s')
      | (Ok [], s') => Some (Ok [], s')
      | (Ok data, s') =>
          match get_iter fuel' fetch_raw_sql (step + 1) s' with
          | Some (Ok chunks, s'') => Some (Ok (data :: chunks), s'')
          | other => other
          end
      end
  end.

(** One page of [DIFFERENCE_DATA_SQL_TEMPLATE]: the data of the group of
    [self] that the group of [other] does not hold, ordered. *)
Definition fetch_difference_page (k : sdt_class) (self other : StorageDataTable)
    (step : Z) : st World (list string) :=
  do r <- relation k;
  st_lift (limit_offset
             (ordered (group_data r (_group self) ∖ group_data r (_group other)))
             (chunk_size_of cfg k) (chunk_size_of cfg k * step)).

(** [StorageDataTable.iter_difference] run to its end. *)
Definition sdt_iter_difference (fuel : nat) (k : sdt_class)
    (self other : StorageDataTable) : World → option (result (list (list string)) * World) :=
  get_iter fuel (fetch_difference_page k self other) 0.

(** [store.iter_difference(other)] run to its end.  [StorageList] reads
    [other._storage] and [StorageDataTable] reads [other._group]; an object
    of the other kind has neither. *)
Definition store_iter_difference (fuel : nat) (store other : Store) (w : World)
  : option (result (list (list string)) * World) :=
  match store, other with
  | StorageList_obj s, StorageList_obj o => Some (sl_iter_difference cfg s o, w)
  | StorageDataTable_obj k s, StorageDataTable_obj _ o => sdt_iter_difference fuel k s o w
  | _, _ => Some (Raise AttributeError, w)
  end.

End Difference.

(** [await store.all()] *)
Definition store_all (store : Store) : st World (list string) :=
  match store with
  | StorageList_obj s => st_ret (sl_all s)
  | StorageDataTable_obj k s => sdt_all k s
  end.

End Storages.

(** ** [functools.lru_cache]

    A cache of [maxsize] entries kept most recently used first.  A hit
    moves its entry to the front; a miss stores the computed value and drops
    the least recently used entry of a full cache. *)

Module Functools.

Section Lru.

Context {K V : Type} `{EqDecision K}.

(** [lru_cache()] keeps the default [maxsize=128]. *)
Definition maxsize : nat := 128.

Definition cache_lookup (key : K) (cache : list (K * V)) : option V :=
  (λ hit, hit.2.2) <$> list_find (λ e, e.1 = key) cache.

Definition cache_remove (key : K) (cache : list (K * V)) : list (K * V) :=
  filter (λ e, e.1 ≠ key) cache.

(** A call of the cached function at [key], [compute] being what the
    wrapped function returns now: the value handed back and the cache after
    the call. *)
Definition lru_call (compute : V) (key : K) (cache : list (K * V))
  : V * list (K * V) :=
  match cache_lookup key cache with
  | Some v => (v, (key, v) :: cache_remove key cache)
  | None => (compute, (key, compute) :: take (maxsize - 1) cache)
  end.

(** [f.cache_clear()] *)
Definition cache_clear : list (K * V) := [].

End Lru.

End Functools.

(** ** core/db_entities.py *)

Module DbEntities.

Import Storages.

(** Modelled from the spec: core/enums.py, which declares
    [ConstraintTypesEnum], is not among the sources.  The spec names its three
    members; their values are the constraint types the catalog reports. *)
Definition PRIMARY_KEY : string := "PRIMARY KEY".
Definition FOREIGN_KEY : string := "FOREIGN KEY".
Definition UNIQUE : string := "UNIQUE".

(** *** [DBColumn]

    A column object is created once, by [DBTable.append_column], and stays
    under its name in the [columns] of its table; a reference to a table is
    the table's name, the key of the [tables] of its database and of every
    dictionary keyed by tables ([DBTable.__hash__] is the hash of the name). *)

Module DBColumn.

Record t : Type := {
  name : string;
  table_name : string;
  data_type : string;
  ordinal_position : Z;
  constraint_table : option string;
  constraint_type : list string
}.

#[global] Instance t_eq_dec : EqDecision t.
Proof. solve_decision. Defined.

(** [DBColumn.__init__]: the two [assert]s, [data_type or ''],
    [ordinal_position or 0], and the list of constraint types. *)
Definition init (column_name table_name : string) (data_type : option string)
    (ordinal_position : option Z) (constraint_table : option string)
    (constraint_type : option string) : result t :=
  if negb (Settings.truthy_str column_name) then Raise AssertionError
  else if negb (Settings.truthy_str table_name) then Raise AssertionError
  else Ok {| name := column_name;
             table_name := table_name;
             data_type := default EmptyString data_type;
             ordinal_position := default 0 ordinal_position;
             constraint_table := constraint_table;
             constraint_type :=
               match constraint_type with
               | Some c => if Settings.truthy_str c then [c] else []
               | None => []
               end |}.

(** The bodies of the properties; [is_foreign_key], [is_primary_key],
    [is_unique] and [is_key_column] are wrapped in [lru_cache]. *)
Definition is_foreign_key (c : t) : bool :=
  bool_decide (FOREIGN_KEY ∈ constraint_type c).

Definition is_primary_key (c : t) : bool :=
  bool_decide (PRIMARY_KEY ∈ constraint_type c).

Definition is_unique (c : t) : bool :=
  bool_decide (UNIQUE ∈ constraint_type c) || (is_foreign_key c && is_primary_key c).

Definition is_key_column (cfg : Settings.settings) (c : t) : bool :=
  bool_decide (name c ∈ Settings.KEY_COLUMN_NAMES cfg)
  || bool_decide (Helpers.deep_getattr_name id (constraint_table c)
                  = Some (Settings.KEY_TABLE_NAME cfg)).

Definition is_self_fk (c : t) : bool :=
  is_foreign_key c
  && bool_decide (Helpers.deep_getattr_name id (constraint_table c)
                  = Some (table_name c)).

(** [add_constraint_type] *)
Definition add_constraint_type (constraint_type' : string) (c : t) : t :=
  {| name := name c; table_name := table_name c; data_type := data_type c;
     ordinal_position := ordinal_position c;
     constraint_table := constraint_table c;
     constraint_type := (constraint_type c ++ [constraint_type'])%list |}.

(** [column.constraint_table = constraint_table] *)
Definition set_constraint_table (constraint_table' : option string) (c : t) : t :=
  {| name := name c; table_name := table_name c; data_type := data_type c;
     ordinal_position := ordinal_position c;
     constraint_table := constraint_table';
     constraint_type := constraint_type c |}.

End DBColumn.

(** *** [DBTable] *)

Module DBTable.

(** The slots of a table.  [columns] is the dictionary in insertion order;
    [_key_column] refers to a column of the table by its key in [columns];
    [revert_foreign_tables] maps a referencing table to the keys of its
    columns that point here. *)
Record t : Type := {
  name : string;
  full_count : Z;
  max_pk : Z;
  columns : list (string * DBColumn.t);
  _is_ready_for_transferring : bool;
  _is_checked : bool;
  _key_column : option string;
  revert_foreign_tables : gmap string (gset string);
  need_transfer_pks : Store;
  transferred_pks_count : Z
}.

(** [DBTable.__init__]: the store is an instance of the [StorageDataTable]
    declared at the end of db_entities.py. *)
Definition init (name' : string) : st World t :=
  do s <- StorageDataTable_init InDbEntities;
  st_ret {| name := name';
            full_count := 0;
            max_pk := 0;
            columns := [];
            _is_ready_for_transferring := false;
            _is_checked := false;
            _key_column := None;
            revert_foreign_tables := ∅;
            need_transfer_pks := StorageDataTable_obj InDbEntities s;
            transferred_pks_count := 0 |}.

(** [self.columns.values()] *)
Definition values (self : t) : list DBColumn.t := snd <$> columns self.

(** [self.columns.get(column_name)] *)
Definition get_column_by_name (self : t) (column_name : string)
  : option DBColumn.t :=
  (λ hit, hit.2.2) <$> list_find (λ e, e.1 = column_name) (columns self).

(** The filter of [primary_key]: the column carries PRIMARY_KEY and its data
    type is not ['date']. *)
Definition primary_key_candidate (c : DBColumn.t) : bool :=
  bool_decide (PRIMARY_KEY ∈ DBColumn.constraint_type c)
  && negb (String.eqb (DBColumn.data_type c) "date").

(** [primary_key]: [None] when the filtered list is empty. *)
Definition primary_key (self : t) : option DBColumn.t :=
  match filter (λ c, primary_key_candidate c = true) (values self) with
  | c :: _ => Some c
  | [] => None
  end.

Definition key_column (self : t) : option string := _key_column self.

(** [bool(self._key_column)]: a column object is truthy. *)
Definition with_key_column (self : t) : bool :=
  match _key_column self with Some _ => true | None => false end.

Definition foreign_keys_columns (self : t) : list DBColumn.t :=
  filter (λ c, DBColumn.is_foreign_key c = true) (values self).

Definition self_fk_columns (self : t) : list DBColumn.t :=
  filter (λ c, DBColumn.is_self_fk c = true) (values self).

Definition not_self_fk_columns (self : t) : list DBColumn.t :=
  filter (λ c, DBColumn.is_foreign_key c && negb (DBColumn.is_self_fk c) = true)
    (values self).

Definition unique_fk_columns (self : t) : list DBColumn.t :=
  filter (λ c, DBColumn.is_foreign_key c && DBColumn.is_unique c = true)
    (not_self_fk_columns self).

Definition with_fk (self : t) : bool := Settings.truthy_seq (foreign_keys_columns self).
Definition with_self_fk (self : t) : bool := Settings.truthy_seq (self_fk_columns self).
Definition with_not_self_fk (self : t) : bool :=
  Settings.truthy_seq (not_self_fk_columns self).

End DBTable.

(** *** Classification of foreign keys

    These properties follow [constraint_table] references, so they read the
    [tables] of the database the table belongs to.  Each of them, like
    [primary_key] above, is a [property] wrapped in [lru_cache]; what is
    embedded is its body, the value computed on a cache miss.
    ([clear_cache] empties the caches of the classifications at the end of
    every chunk of introspection.) *)

(** [filter(pred, xs)] forced by [list(...)], for a predicate that can raise. *)
Fixpoint filter_r {A} (pred : A → result bool) (xs : list A) : result (list A) :=
  match xs with
  | [] => Ok []
  | x :: xs' =>
      b ← pred x; rest ← filter_r pred xs'; Ok (if b : bool then x :: rest else rest)
  end.

Section Schema.

Variable tables : gmap string DBTable.t.

(** Reading an attribute of [column.constraint_table]: [None] has none
    ([AttributeError]).  A reference always names a table of [tables]; the
    model answers [KeyError] for a name that does not. *)
Definition constraint_table_of (c : DBColumn.t) : result DBTable.t :=
  match DBColumn.constraint_table c with
  | None => Raise AttributeError
  | Some r =>
      match tables !! r with
      | Some table => Ok table
      | None => Raise KeyError
      end
  end.

(** [c.constraint_table.with_key_column] *)
Definition referent_with_key_column (c : DBColumn.t) : result bool :=
  table ← constraint_table_of c; Ok (DBTable.with_key_column table).

Definition fk_columns_with_key_column (self : DBTable.t) : result (list DBColumn.t) :=
  filter_r referent_with_key_column (DBTable.not_self_fk_columns self).

(** [list(set(unique_fk_columns).intersection(fk_columns_with_key_column))];
    the columns are compared as objects, and the set has an order of its
    own, here the one of [columns]. *)
Definition unique_fk_columns_with_key_column (self : DBTable.t)
  : result (list DBColumn.t) :=
  let unique := DBTable.unique_fk_columns self in
  direct ← fk_columns_with_key_column self;
  Ok (remove_dups (filter (λ c, c ∈ direct) unique)).

(** The loops shared by the two two-hop properties: [column] is appended
    once for every non-self foreign key of its referent that points to a
    table with a key column. *)
Fixpoint columns_to_tables_with_fk_to_key (cols : list DBColumn.t)
  : result (list DBColumn.t) :=
  match cols with
  | [] => Ok []
  | column :: cols' =>
      table ← constraint_table_of column;
      hits ← filter_r referent_with_key_column (DBTable.not_self_fk_columns table);
      rest ← columns_to_tables_with_fk_to_key cols';
      Ok (replicate (length hits) column ++ rest)%list
  end.

Definition fk_columns_tables_with_fk_columns_with_key_column (self : DBTable.t)
  : result (list DBColumn.t) :=
  columns_to_tables_with_fk_to_key (DBTable.not_self_fk_columns self).

Definition unique_fk_columns_tables_with_fk_columns_with_key_column
    (self : DBTable.t) : result (list DBColumn.t) :=
  columns_to_tables_with_fk_to_key (DBTable.unique_fk_columns self).

(** [highest_priority_fk_columns], branch by branch; a property read twice
    is evaluated twice, in the order of the source. *)
Definition highest_priority_fk_columns (self : DBTable.t)
  : result (list DBColumn.t) :=
  u1 ← unique_fk_columns_with_key_column self;
  if Settings.truthy_seq u1 then unique_fk_columns_with_key_column self
  else
    u2 ← unique_fk_columns_tables_with_fk_columns_with_key_column self;
    second ← (if Settings.truthy_seq u2 then Ok true
              else d ← fk_columns_with_key_column self; Ok (Settings.truthy_seq d));
    if second : bool then
      u2' ← unique_fk_columns_tables_with_fk_columns_with_key_column self;
      fk_columns ← (if Settings.truthy_seq u2'
                    then ext ← unique_fk_columns_tables_with_fk_columns_with_key_column self;
                         Ok ([] ++ ext)%list
                    else Ok []);
      d' ← fk_columns_with_key_column self;
      if Settings.truthy_seq d'
      then ext ← fk_columns_with_key_column self; Ok (fk_columns ++ ext)%list
      else Ok fk_columns
    else
      t2 ← fk_columns_tables_with_fk_columns_with_key_column self;
      if Settings.truthy_seq t2
      then fk_columns_tables_with_fk_columns_with_key_column self
      else Ok (DBTable.not_self_fk_columns self).

End Schema.

(** *** Introspection: [append_column], [_prepare_chunk_tables],
    [prepare_tables] *)

(** A column object, by the table and the key it lives under. *)
Definition column_ref : Type := string * string.

(** What introspection reads and writes: the [tables] of the database, the
    caches of [DBColumn.is_foreign_key] and [DBColumn.is_key_column] (both
    properties are read while columns are still being changed, and
    [append_column] clears the first one itself), and the world of the
    stores (a new table draws a group number).  The caches are keyed by
    column objects; they are modelled for the columns of this database. *)
Record Introspection : Type := {
  tables : gmap string DBTable.t;
  is_foreign_key_cache : list (column_ref * bool);
  is_key_column_cache : list (column_ref * bool);
  world : World
}.

(** A row of the column query: table name, column name, data type, ordinal
    position, name of the referenced table, constraint type. *)
Record column_record : Type := {
  rec_table_name : string;
  rec_column_name : string;
  rec_data_type : option string;
  rec_ordinal_position : option Z;
  rec_constraint_table_name : option string;
  rec_constraint_type : option string
}.

(** [self.columns[column_name] = column] for a key already present. *)
Definition replace_column (column_name : string) (column : DBColumn.t)
    (columns : list (string * DBColumn.t)) : list (string * DBColumn.t) :=
  (λ e, if decide (e.1 = column_name) then (e.1, column) else e) <$> columns.

Definition set_columns (columns' : list (string * DBColumn.t)) (self : DBTable.t)
  : DBTable.t :=
  {| DBTable.name := DBTable.name self;
     DBTable.full_count := DBTable.full_count self;
     DBTable.max_pk := DBTable.max_pk self;
     DBTable.columns := columns';
     DBTable._is_ready_for_transferring := DBTable._is_ready_for_transferring self;
     DBTable._is_checked := DBTable._is_checked self;
     DBTable._key_column := DBTable._key_column self;
     DBTable.revert_foreign_tables := DBTable.revert_foreign_tables self;
     DBTable.need_transfer_pks := DBTable.need_transfer_pks self;
     DBTable.transferred_pks_count := DBTable.transferred_pks_count self |}.

Definition set_key_column (key_column' : option string) (self : DBTable.t)
  : DBTable.t :=
  {| DBTable.name := DBTable.name self;
     DBTable.full_count := DBTable.full_count self;
     DBTable.max_pk := DBTable.max_pk self;
     DBTable.columns := DBTable.columns self;
     DBTable._is_ready_for_transferring := DBTable._is_ready_for_transferring self;
     DBTable._is_checked := DBTable._is_checked self;
     DBTable._key_column := key_column';
     DBTable.revert_foreign_tables := DBTable.revert_foreign_tables self;
     DBTable.need_transfer_pks := DBTable.need_transfer_pks self;
     DBTable.transferred_pks_count := DBTable.transferred_pks_count self |}.

(** [referent.revert_foreign_tables[table].add(column)] on a
    [defaultdict(set)]; the key is the table, hashed by its name. *)
Definition add_revert (table_name column_name : string) (referent : DBTable.t)
  : DBTable.t :=
  let revert := DBTable.revert_foreign_tables referent in
  {| DBTable.name := DBTable.name referent;
     DBTable.full_count := DBTable.full_count referent;
     DBTable.max_pk := DBTable.max_pk referent;
     DBTable.columns := DBTable.columns referent;
     DBTable._is_ready_for_transferring := DBTable._is_ready_for_transferring referent;
     DBTable._is_checked := DBTable._is_checked referent;
     DBTable._key_column := DBTable._key_column referent;
     DBTable.revert_foreign_tables :=
       <[table_name := {[column_name]} ∪ default ∅ (revert !! table_name)]> revert;
     DBTable.need_transfer_pks := DBTable.need_transfer_pks referent;
     DBTable.transferred_pks_count := DBTable.transferred_pks_count referent |}.

Definition set_tables (tables' : gmap string DBTable.t) (s : Introspection)
  : Introspection :=
  {| tables := tables';
     is_foreign_key_cache := is_foreign_key_cache s;
     is_key_column_cache := is_key_column_cache s;
     world := world s |}.

Definition set_is_foreign_key_cache (cache : list (column_ref * bool))
    (s : Introspection) : Introspection :=
  {| tables := tables s;
     is_foreign_key_cache := cache;
     is_key_column_cache := is_key_column_cache s;
     world := world s |}.

Definition set_is_key_column_cache (cache : list (column_ref * bool))
    (s : Introspection) : Introspection :=
  {| tables := tables s;
     is_foreign_key_cache := is_foreign_key_cache s;
     is_key_column_cache := cache;
     world := world s |}.

Definition set_world (w : World) (s : Introspection) : Introspection :=
  {| tables := tables s;
     is_foreign_key_cache := is_foreign_key_cache s;
     is_key_column_cache := is_key_column_cache s;
     world := w |}.

Section WithSettings.

Variable cfg : Settings.settings.

(** The first half of [append_column]: the column after the call and the
    [columns] holding it.  An existing column gets the constraint type
    appended and, for a foreign key, its referent replaced and the cache of
    [is_foreign_key] cleared; a new column is built (['ARRAY'] becoming
    ['integer array']) and stored under its name. *)
Definition upsert_column (self : DBTable.t) (column_name : string)
    (data_type : option string) (ordinal_position : option Z)
    (constraint_table : option string) (constraint_type : option string)
  : st Introspection (DBColumn.t * list (string * DBColumn.t)) :=
  match DBTable.get_column_by_name self column_name with
  | Some column =>
      match constraint_type with
      | Some ct =>
          if Settings.truthy_str ct then
            let column1 := DBColumn.add_constraint_type ct column in
            if String.eqb ct FOREIGN_KEY then
              let column2 := DBColumn.set_constraint_table constraint_table column1 in
              λ s, (Ok (column2, replace_column column_name column2 (DBTable.columns self)),
                    set_is_foreign_key_cache Functools.cache_clear s)
            else
              st_ret (column1, replace_column column_name column1 (DBTable.columns self))
          else st_ret (column, DBTable.columns self)
      | None => st_ret (column, DBTable.columns self)
      end
  | None =>
      let data_type' :=
        if bool_decide (data_type = Some "ARRAY") then Some "integer array"
        else data_type in
      do column <- st_lift (DBColumn.init column_name (DBTable.name self) data_type'
                              ordinal_position constraint_table constraint_type);
      st_ret (column, (DBTable.columns self ++ [(column_name, column)])%list)
  end.

(** [column.is_key_column] through its cache. *)
Definition cached_is_key_column (ref : column_ref) (column : DBColumn.t)
  : st Introspection bool := λ s,
  let '(v, cache) :=
    Functools.lru_call (DBColumn.is_key_column cfg column) ref (is_key_column_cache s) in
  (Ok v, set_is_key_column_cache cache s).

(** [column.is_foreign_key] through its cache. *)
Definition cached_is_foreign_key (ref : column_ref) (column : DBColumn.t)
  : st Introspection bool := λ s,
  let '(v, cache) :=
    Functools.lru_call (DBColumn.is_foreign_key column) ref (is_foreign_key_cache s) in
  (Ok v, set_is_foreign_key_cache cache s).

(** [self.tables[table_name].append_column(...)]: [table_name] is the key
    of [self] in [tables] (a missing key is the [KeyError] of the caller's
    subscript).  The referent is reached through the column, after the table
    itself has been updated, so a self reference sees the new column. *)
Definition append_column (table_name column_name : string)
    (data_type : option string) (ordinal_position : option Z)
    (constraint_table : option string) (constraint_type : option string)
  : st Introspection DBColumn.t :=
  do s <- st_get;
  match tables s !! table_name with
  | None => st_raise KeyError
  | Some self =>
      do '(column, columns') <-
        upsert_column self column_name data_type ordinal_position
          constraint_table constraint_type;
      let self1 := set_columns columns' self in
      do _ <- (λ s, (Ok tt, set_tables (<[table_name := self1]> (tables s)) s));
      do is_key <-
        match DBTable._key_column self1 with
        | Some _ => st_ret false
        | None => cached_is_key_column (table_name, column_name) column
        end;
      let self2 := if is_key : bool then set_key_column (Some column_name) self1
                   else self1 in
      do _ <- (λ s, (Ok tt, set_tables (<[table_name := self2]> (tables s)) s));
      do is_fk <- cached_is_foreign_key (table_name, column_name) column;
      if is_fk : bool then
        match DBColumn.constraint_table column with
        | None => st_raise AttributeError
        | Some referent =>
            do _ <- (λ s, (Ok tt,
                       set_tables
                         (alter (add_revert (DBTable.name self2) column_name)
                            referent (tables s)) s));
            st_ret column
        end
      else st_ret column
  end.

(** [asyncio.gather] over coroutines that never suspend: each
    runs to its end in turn, also after one has raised, and the first
    exception is the one propagated. *)
Fixpoint gather {S A} (coroutines : list (st S A)) : st S (list A) := λ s,
  match coroutines with
  | [] => (Ok [], s)
  | c :: rest =>
      let '(r, s1) := c s in
      let '(rs, s2) := gather rest s1 in
      (match r, rs with
       | Ok a, Ok l => Ok (a :: l)
       | Raise e, _ => Raise e
       | Ok _, Raise e => Raise e
       end, s2)
  end.

(** [self.tables.get(constraint_table_name)]: the table object, or [None]. *)
Definition tables_get (tables : gmap string DBTable.t)
    (constraint_table_name : option string) : option string :=
  match constraint_table_name with
  | Some n => if decide (is_Some (tables !! n)) then Some n else None
  | None => None
  end.

(** [constraint_table_name not in EXCLUDED_TABLES] *)
Definition not_excluded (r : column_record) : bool :=
  match rec_constraint_table_name r with
  | Some n => bool_decide (n ∉ Settings.EXCLUDED_TABLES cfg)
  | None => true
  end.

(** [_prepare_chunk_tables] on the rows the column query returned.  The list
    comprehension subscripts [self.tables] for every kept row before any
    coroutine runs.  The closing [clear_cache] empties the caches of the
    table properties, which are not part of the state. *)
Definition _prepare_chunk_tables (records : list column_record)
  : st Introspection unit := λ s,
  let kept := filter (λ r, not_excluded r = true) records in
  if forallb (λ r, bool_decide (is_Some (tables s !! rec_table_name r))) kept then
    let coroutines :=
      (λ r, append_column (rec_table_name r) (rec_column_name r) (rec_data_type r)
              (rec_ordinal_position r)
              (tables_get (tables s) (rec_constraint_table_name r))
              (rec_constraint_type r)) <$> kept in
    match gather coroutines s with
    | (Ok _, s') => (Ok tt, s')
    | (Raise e, s') => (Raise e, s')
    end
  else (Raise KeyError, s).

(** The dictionary comprehension of [prepare_tables]: one new table per
    name, a repeated name keeping the last one built. *)
Fixpoint new_tables (table_names : list string) (acc : gmap string DBTable.t)
  : st World (gmap string DBTable.t) :=
  match table_names with
  | [] => st_ret acc
  | n :: rest =>
      do table <- DBTable.init n;
      new_tables rest (<[n := table]> acc)
  end.

(** [prepare_tables]: [fetch_columns] stands for the column query of one
    chunk of table names.  Under [asyncio.gather] the queries of the chunks
    complete in an order of their own, and the rows of a chunk are appended
    when its query has completed: [completion_order] rearranges the chunks
    into that order. *)
Definition prepare_tables (fetch_columns : list string → list column_record)
    (completion_order : list (list string) → list (list string))
    (table_names : list string) : st Introspection unit := λ s,
  match new_tables table_names ∅ (world s) with
  | (Raise e, w) => (Raise e, set_world w s)
  | (Ok fresh, w) =>
      let s1 := set_tables fresh (set_world w s) in
      match Helpers.make_chunks table_names (Settings.TABLES_LIMIT_PER_TRANSACTION cfg) with
      | Raise e => (Raise e, s1)
      | Ok chunks =>
          match gather ((λ chunk, _prepare_chunk_tables (fetch_columns chunk))
                          <$> completion_order chunks) s1 with
          | (Ok _, s') => (Ok tt, s')
          | (Raise e, s') => (Raise e, s')
          end
      end
  end.

(** *** [update_need_transfer_pks] *)

Definition set_need_transfer_pks (store : Store) (self : DBTable.t) : DBTable.t :=
  {| DBTable.name := DBTable.name self;
     DBTable.full_count := DBTable.full_count self;
     DBTable.max_pk := DBTable.max_pk self;
     DBTable.columns := DBTable.columns self;
     DBTable._is_ready_for_transferring := DBTable._is_ready_for_transferring self;
     DBTable._is_checked := DBTable._is_checked self;
     DBTable._key_column := DBTable._key_column self;
     DBTable.revert_foreign_tables := DBTable.revert_foreign_tables self;
     DBTable.need_transfer_pks := store;
     DBTable.transferred_pks_count := DBTable.transferred_pks_count self |}.

(** [update_need_transfer_pks]: the table after the call.  The test
    [isinstance(need_transfer_pks, StorageDataTable)] names the class of
    db_entities.py, so only an instance of that class is copied with
    [add_storage_data]; everything else goes to [insert].  [None]: out of
    fuel. *)
Definition update_need_transfer_pks (fuel : nat) (self : DBTable.t)
    (need_transfer_pks : pks_arg) (w : World) : option (result DBTable.t * World) :=
  let store := DBTable.need_transfer_pks self in
  let outcome :=
    match need_transfer_pks with
    | ArgStore (StorageDataTable_obj InDbEntities _ as other) =>
        store_add_storage_data cfg fuel store other w
    | _ => Some (store_insert store need_transfer_pks w)
    end in
  match outcome with
  | Some (Ok store', w') => Some (Ok (set_need_transfer_pks store' self), w')
  | Some (Raise e, w') => Some (Raise e, w')
  | None => None
  end.

(** *** [DstDatabase.truncate_tables] *)

Section Truncate.

(** [SQLRepository.get_truncate_table_queries] of core/repositories.py: the
    statements for a tuple of table names. *)
Variable get_truncate_table_queries : list string → list string.

(** The [table_names] handed to [get_truncate_table_queries]. *)
Definition truncate_table_names (table_names : list string) : list string :=
  let table_names1 :=
    if Settings.truthy_seq (Settings.TABLES_TRUNCATE_INCLUDED cfg)
    then Settings.TABLES_TRUNCATE_INCLUDED cfg
    else filter (λ table_name,
                   table_name ∉ Settings.TABLES_WITH_GENERIC_FOREIGN_KEY cfg)
           table_names in
  if Settings.truthy_seq (Settings.TABLES_TRUNCATE_EXCLUDED cfg)
  then filter (λ table_name, table_name ∉ Settings.TABLES_TRUNCATE_EXCLUDED cfg)
         table_names1
  else table_names1.

(** [truncate_tables]: the statements passed to [execute_raw_sql], in
    order. *)
Definition truncate_tables (table_names : list string) : list string :=
  if Settings.IS_TRUNCATE_TABLES cfg
  then get_truncate_table_queries (truncate_table_names table_names)
  else [].

End Truncate.

(** *** [DBTable.set_max_sequence], [DstDatabase.set_max_tables_sequences] *)

(** The destination as the sequence stage sees it: the value of each
    sequence, and the records logged. *)
Record Destination : Type := {
  sequences : gmap string Z;
  log : list (log_level * string)
}.

(** Modelled from the spec: [SQLRepository.get_set_sequence_value_sql] is
    not among the sources; the statement it builds is a [setval] of the
    sequence [seq_name] to [seq_val]. *)
Definition execute_set_sequence_value (seq_name : string) (seq_val : Z)
  : st Destination unit := λ d,
  (Ok tt, {| sequences := <[seq_name := seq_val]> (sequences d); log := log d |}).

Definition logger (level : log_level) (message : string) : st Destination unit :=
  λ d, (Ok tt, {| sequences := sequences d; log := (log d ++ [(level, message)])%list |}).

Section Sequences.

(** [connection.fetchrow(get_serial_sequence_sql)] for a table and the name
    of its primary key: no row, or a row whose first field is the name of the
    serial sequence or NULL. *)
Variable fetch_serial_sequence : string → string → option (option string).

(** [set_max_sequence]: [self.primary_key.name] raises [AttributeError] on a
    table without primary key, which is logged. *)
Definition set_max_sequence (self : DBTable.t) : st Destination unit :=
  match DBTable.primary_key self with
  | None =>
      logger WARNING
        ("AttributeError --- " +:+ DBTable.name self +:+ " --- set_max_sequence")
  | Some primary_key =>
      match fetch_serial_sequence (DBTable.name self) (DBColumn.name primary_key) with
      | Some (Some serial_seq_name) =>
          if Settings.truthy_str serial_seq_name then
            let max_val := DBTable.max_pk self + 100000 in
            execute_set_sequence_value serial_seq_name max_val
          else st_ret tt
      | _ => st_ret tt
      end
  end.

(** [set_max_tables_sequences]: one task per table.  A task's only write is
    its [setval]; [order] lists the tables in the order in which the tasks
    reach it.  [asyncio.wait] rejects an empty list. *)
Fixpoint run_sequence_tasks (order : list DBTable.t) : st Destination unit :=
  match order with
  | [] => st_ret tt
  | table :: rest => do _ <- set_max_sequence table; run_sequence_tasks rest
  end.

Definition set_max_tables_sequences (order : list DBTable.t) : st Destination unit :=
  match order with
  | [] => st_raise (ValueError "Set of Tasks/Futures is empty.")
  | _ :: _ => run_sequence_tasks order
  end.

End Sequences.

End WithSettings.

(** [BaseDatabase.prepare_table_names]: [fetched] is the first field of the
    rows the table-name query returns (the query is built by
    [SQLRepository.get_select_tables_names_list_sql] of core/repositories.py);
    the scratch relation is left out. *)
Definition prepare_table_names (fetched : list string) : list string :=
  filter (λ table_name, table_name ≠ "storage_data") fetched.

(** [DBTable.inaccuracy_count] *)
Definition inaccuracy_count : Z := 100.

(** [DBTable.is_full_prepared]: [True], or [None] when the method falls off
    its end.  The length is read twice, for the debug record and for the
    test; the records logged are left out. *)
Definition is_full_prepared (self : DBTable.t) : st World (option bool) :=
  do _ <- store_len (DBTable.need_transfer_pks self);
  do n <- store_len (DBTable.need_transfer_pks self);
  st_ret (if DBTable.full_count self - inaccuracy_count <=? n
          then Some true else None).

End DbEntities.

(** ** core/transporters.py *)

Module Transporters.

Import Storages.

(** The double quote inside the log messages. *)
Definition dquote : string := String (ascii_of_nat 34) EmptyString.

Section Transporter.

Variable cfg : Settings.settings.

(** The contents of the destination tables, and
    [connection.fetch(transfer_sql)] for a table and a chunk of identifiers
    (the statement is built by [SQLRepository.get_transfer_records_sql] of
    core/repositories.py): the identifiers returned and the contents after,
    or the exception asyncpg raises. *)
Variable Rows : Type.
Variable fetch_transfer : DbEntities.DBTable.t → list string → Rows → result (list string) * Rows.

(** What a transfer reads and writes: the destination tables, the
    [tables] of [_dst_database], the world of the stores, the records logged
    and the transfer statements issued (table and chunk). *)
Record Transfer : Type := {
  dst_rows : Rows;
  dst_tables : gmap string DbEntities.DBTable.t;
  store_world : World;
  logged : list (log_level * string);
  issued : list (string * list string)
}.

Definition logger (level : log_level) (message : string) : st Transfer unit := λ s,
  (Ok tt, {| dst_rows := dst_rows s; dst_tables := dst_tables s;
             store_world := store_world s;
             logged := (logged s ++ [(level, message)])%list;
             issued := issued s |}).

(** A computation on the world of the stores, run inside a transfer. *)
Definition on_world {A} (m : st World A) : st Transfer A := λ s,
  let '(r, w) := m (store_world s) in
  (r, {| dst_rows := dst_rows s; dst_tables := dst_tables s; store_world := w;
         logged := logged s; issued := issued s |}).

Definition add_transferred (n : Z) (self : DbEntities.DBTable.t)
  : DbEntities.DBTable.t :=
  {| DbEntities.DBTable.name := DbEntities.DBTable.name self;
     DbEntities.DBTable.full_count := DbEntities.DBTable.full_count self;
     DbEntities.DBTable.max_pk := DbEntities.DBTable.max_pk self;
     DbEntities.DBTable.columns := DbEntities.DBTable.columns self;
     DbEntities.DBTable._is_ready_for_transferring :=
       DbEntities.DBTable._is_ready_for_transferring self;
     DbEntities.DBTable._is_checked := DbEntities.DBTable._is_checked self;
     DbEntities.DBTable._key_column := DbEntities.DBTable._key_column self;
     DbEntities.DBTable.revert_foreign_tables :=
       DbEntities.DBTable.revert_foreign_tables self;
     DbEntities.DBTable.need_transfer_pks := DbEntities.DBTable.need_transfer_pks self;
     DbEntities.DBTable.transferred_pks_count :=
       DbEntities.DBTable.transferred_pks_count self + n |}.

(** [_transfer_chunk_table_data]: the statement is issued on the
    destination; the four asyncpg errors named in the [except] clause are
    raised again as [PostgresError] (they are [PostgresError]s already, so
    the class of the exception is the same); a non-empty answer is added to
    [transferred_pks_count]. *)
Definition _transfer_chunk_table_data (table_name : string)
    (need_import_ids_chunk : list string) : st Transfer unit :=
  do s <- st_get;
  match dst_tables s !! table_name with
  | None => st_raise KeyError
  | Some table =>
      do _ <- logger INFO
                ("transfer chunk table data - " +:+ dquote
                 +:+ DbEntities.DBTable.name table +:+ dquote);
      do transferred_ids <- (λ s,
           let '(r, rows) := fetch_transfer table need_import_ids_chunk (dst_rows s) in
           (r, {| dst_rows := rows; dst_tables := dst_tables s;
                  store_world := store_world s; logged := logged s;
                  issued := (issued s ++ [(table_name, need_import_ids_chunk)])%list |}));
      if Settings.truthy_seq transferred_ids then
        λ s, (Ok tt,
              {| dst_rows := dst_rows s;
                 dst_tables :=
                   alter (add_transferred (Z.of_nat (length transferred_ids)))
                     table_name (dst_tables s);
                 store_world := store_world s; logged := logged s;
                 issued := issued s |})
      else st_ret tt
  end.

(** [async for need_import_ids_chunk in table.need_transfer_pks] over a
    scratch store: a page is fetched, transferred, and the next one asked
    for.  [None]: out of fuel. *)
Fixpoint transfer_pages (fuel : nat) (table_name : string) (k : sdt_class)
    (store : StorageDataTable) (step : Z) (s : Transfer)
  : option (result unit * Transfer) :=
  match fuel with
  | O => None
  | S fuel' =>
      match on_world (fetch_page cfg k store step) s with
      | (Raise e, s') => Some (Raise e, s')
      | (Ok [], s') => Some (Ok tt, s')
      | (Ok chunk, s') =>
          match _transfer_chunk_table_data table_name chunk s' with
          | (Raise e, s'') => Some (Raise e, s'')
          | (Ok _, s'') => transfer_pages fuel' table_name k store (step + 1) s''
          end
      end
  end.

(** The same loop over the chunks of an in-memory store. *)
Fixpoint transfer_chunks (table_name : string) (chunks : list (list string))
  : st Transfer unit :=
  match chunks with
  | [] => st_ret tt
  | chunk :: rest =>
      do _ <- _transfer_chunk_table_data table_name chunk;
      transfer_chunks table_name rest
  end.

(** [_transfer_table_data] for the table stored under [table_name]. *)
Definition _transfer_table_data (fuel : nat) (table_name : string) (s : Transfer)
  : option (result unit * Transfer) :=
  match dst_tables s !! table_name with
  | None => Some (Raise KeyError, s)
  | Some table =>
      let store := DbEntities.DBTable.need_transfer_pks table in
      match on_world (store_len store) s with
      | (Raise e, s1) => Some (Raise e, s1)
      | (Ok n, s1) =>
          let '(_, s2) :=
            logger INFO
              ("start transferring table " +:+ dquote
               +:+ DbEntities.DBTable.name table +:+ dquote
               +:+ ", need to import - " +:+ pretty n) s1 in
          match DbEntities.DBTable.primary_key table with
          | None =>
              Some (logger WARNING
                      ("table " +:+ DbEntities.DBTable.name table
                       +:+ " has no primary key") s2)
          | Some _ =>
              let looped :=
                match store with
                | StorageDataTable_obj k sdt => transfer_pages fuel table_name k sdt 0 s2
                | StorageList_obj sl =>
                    match sl_aiter cfg sl with
                    | Raise e => Some (Raise e, s2)
                    | Ok chunks => Some (transfer_chunks table_name chunks s2)
                    end
                end in
              match looped with
              | Some (Ok _, s3) =>
                  Some (logger INFO
                          ("finished transferring table " +:+ dquote
                           +:+ DbEntities.DBTable.name table +:+ dquote) s3)
              | other => other
              end
          end
      end
  end.

End Transporter.

Arguments dst_rows {Rows} _.
Arguments dst_tables {Rows} _.
Arguments store_world {Rows} _.
Arguments logged {Rows} _.
Arguments issued {Rows} _.
Arguments logger {Rows} _ _ _.
Arguments on_world {Rows A} _ _.
Arguments _transfer_chunk_table_data {Rows} _ _ _ _.
Arguments transfer_pages _ {Rows} _ _ _ _ _ _ _.
Arguments transfer_chunks {Rows} _ _ _ _.
Arguments _transfer_table_data _ {Rows} _ _ _ _.

End Transporters.

(** ** Vocabulary of the statements and sample objects

    Predicates the statements below are phrased with, and small concrete
    objects on which they are instantiated. *)

(** The two kinds of key store the spec distinguishes. *)
Inductive store_variant : Type :=
| InMemory
| ScratchTable.

Definition variant_of (store : Storages.Store) : store_variant :=
  match store with
  | Storages.StorageList_obj _ => InMemory
  | Storages.StorageDataTable_obj _ _ => ScratchTable
  end.

(** The store classes that core/storages.py declares. *)
Definition declared_in_storages_py (store : Storages.Store) : Prop :=
  match store with
  | Storages.StorageList_obj _ => True
  | Storages.StorageDataTable_obj k _ => k = Storages.InStorages
  end.

(** Settings of a small run; the two arguments are
    [USE_DATABASE_FOR_STORE_INTERMEDIATE_VALUES] and [COLLECTOR_CHUNK_SIZE]. *)
Definition sample_settings (use_database : bool) (chunk_size : Z)
  : Settings.settings :=
  {| Settings.LOG_LEVEL := "INFO";
     Settings.LOG_DIRECTORY := "";
     Settings.LOG_FILENAME := "";
     Settings.SRC_DB_HOST := "src";
     Settings.SRC_DB_PORT := "5432";
     Settings.SRC_DB_SCHEMA := "public";
     Settings.SRC_DB_NAME := "app";
     Settings.SRC_DB_USER := "reader";
     Settings.SRC_DB_PASSWORD := "secret";
     Settings.DST_DB_HOST := "dst";
     Settings.DST_DB_PORT := "5432";
     Settings.DST_DB_SCHEMA := "public";
     Settings.DST_DB_NAME := "app";
     Settings.DST_DB_USER := "writer";
     Settings.DST_DB_PASSWORD := "secret";
     Settings.TEST_MODE := false;
     Settings.KEY_TABLE_NAME := "tenant";
     Settings.KEY_COLUMN_NAMES := ["tenant_id"];
     Settings.KEY_COLUMN_VALUES := [7];
     Settings.KEY_TABLE_HIERARCHY_COLUMN_NAME := "";
     Settings.EXCLUDED_TABLES := ["audit"];
     Settings.TABLES_WITH_GENERIC_FOREIGN_KEY := ["content_ref"];
     Settings.TABLES_LIMIT_PER_TRANSACTION := 2;
     Settings.IS_TRUNCATE_TABLES := true;
     Settings.TABLES_TRUNCATE_INCLUDED := [];
     Settings.TABLES_TRUNCATE_EXCLUDED := ["tenant"];
     Settings.FULL_TRANSFER_TABLES := [];
     Settings.VALIDATE_DATA_BEFORE_TRANSFERRING := false;
     Settings.USE_DATABASE_FOR_STORE_INTERMEDIATE_VALUES := use_database;
     Settings.COLLECTOR_CHUNK_SIZE := chunk_size;
     Settings.ASYNC_SEPARATION_COEFFICIENT := -1 |}.

(** A world after [init_table] in both classes, with two groups filled. *)
Definition sample_world : Storages.World :=
  {| Storages.storage_data := Some {[ (1, "5"); (1, "8"); (2, "7") ]};
     Storages.storages_cls :=
       {| Storages._last_group_number := 2; Storages._dst_db := true |};
     Storages.entities_cls :=
       {| Storages._last_group_number := 2; Storages._dst_db := true |} |}.

(** A scratch store of storages.py that has answered [is_not_empty] with
    [True] before. *)
Definition sample_scratch_store : Storages.Store :=
  Storages.StorageDataTable_obj Storages.InStorages
    {| Storages._have_value := true; Storages._group := 1 |}.

(** An operation of the collection on the store of a table: the method of
    the table, or a direct call on its [need_transfer_pks]. *)
Inductive store_op : Type :=
| Op_update_need_transfer_pks (need_transfer_pks : Storages.pks_arg)
| Op_insert (data : Storages.pks_arg)
| Op_add_storage_data (storage_data : Storages.Store).

(** Running one operation on a table; [None]: out of fuel. *)
Definition apply_op (cfg : Settings.settings) (fuel : nat) (op : store_op)
    (table : DbEntities.DBTable.t) (w : Storages.World)
  : option (result DbEntities.DBTable.t * Storages.World) :=
  let store := DbEntities.DBTable.need_transfer_pks table in
  let on_store (outcome : option (result Storages.Store * Storages.World)) :=
    match outcome with
    | Some (Ok store', w') => Some (Ok (DbEntities.set_need_transfer_pks store' table), w')
    | Some (Raise e, w') => Some (Raise e, w')
    | None => None
    end in
  match op with
  | Op_update_need_transfer_pks arg =>
      DbEntities.update_need_transfer_pks cfg fuel table arg w
  | Op_insert data => on_store (Some (Storages.store_insert store data w))
  | Op_add_storage_data other =>
      on_store (Storages.store_add_storage_data cfg fuel store other w)
  end.

(** One operation that ran to its end takes a table and the world to the
    table and the world after it; an operation that raised leaves the table
    object as it was. *)
Inductive collects (cfg : Settings.settings)
  : DbEntities.DBTable.t * Storages.World
    → DbEntities.DBTable.t * Storages.World → Prop :=
| collects_ok fuel op table w table' w' :
    apply_op cfg fuel op table w = Some (Ok table', w') →
    collects cfg (table, w) (table', w')
| collects_raise fuel op table w e w' :
    apply_op cfg fuel op table w = Some (Raise e, w') →
    collects cfg (table, w) (table, w').

(** The identifiers in the [need_transfer_pks] of a table. *)
Definition pending_ids (tw : DbEntities.DBTable.t * Storages.World) : gset string :=
  Storages.stored_ids (DbEntities.DBTable.need_transfer_pks tw.1) tw.2.

(** A table right after [DBTable.__init__] on the sample world. *)
Definition sample_table : DbEntities.DBTable.t :=
  {| DbEntities.DBTable.name := "orders";
     DbEntities.DBTable.full_count := 0;
     DbEntities.DBTable.max_pk := 41;
     DbEntities.DBTable.columns := [];
     DbEntities.DBTable._is_ready_for_transferring := false;
     DbEntities.DBTable._is_checked := false;
     DbEntities.DBTable._key_column := None;
     DbEntities.DBTable.revert_foreign_tables := ∅;
     DbEntities.DBTable.need_transfer_pks :=
       Storages.StorageDataTable_obj Storages.InDbEntities
         {| Storages._have_value := false; Storages._group := 1 |};
     DbEntities.DBTable.transferred_pks_count := 0 |}.

(** A transfer about to start on the sample table, which has no column and
    so no primary key; the destination rows are the identifiers present. *)
Definition sample_fetch_transfer (table : DbEntities.DBTable.t)
    (chunk : list string) (rows : gset string)
  : result (list string) * gset string :=
  (Ok chunk, rows ∪ list_to_set chunk).

Definition sample_transfer : Transporters.Transfer (gset string) :=
  {| Transporters.dst_rows := ∅;
     Transporters.dst_tables := {[ "orders" := sample_table ]};
     Transporters.store_world := sample_world;
     Transporters.logged := [];
     Transporters.issued := [] |}.

(** A table with a serial primary key [id], and the catalog answer for it. *)
Definition sample_id_column : DbEntities.DBColumn.t :=
  {| DbEntities.DBColumn.name := "id";
     DbEntities.DBColumn.table_name := "invoice";
     DbEntities.DBColumn.data_type := "integer";
     DbEntities.DBColumn.ordinal_position := 1;
     DbEntities.DBColumn.constraint_table := None;
     DbEntities.DBColumn.constraint_type := [DbEntities.PRIMARY_KEY] |}.

Definition sample_invoice : DbEntities.DBTable.t :=
  {| DbEntities.DBTable.name := "invoice";
     DbEntities.DBTable.full_count := 3;
     DbEntities.DBTable.max_pk := 41;
     DbEntities.DBTable.columns := [("id", sample_id_column)];
     DbEntities.DBTable._is_ready_for_transferring := false;
     DbEntities.DBTable._is_checked := false;
     DbEntities.DBTable._key_column := None;
     DbEntities.DBTable.revert_foreign_tables := ∅;
     DbEntities.DBTable.need_transfer_pks :=
       Storages.StorageDataTable_obj Storages.InDbEntities
         {| Storages._have_value := false; Storages._group := 2 |};
     DbEntities.DBTable.transferred_pks_count := 0 |}.

Definition sample_fetch_serial_sequence (table_name pk_column_name : string)
  : option (option string) :=
  if String.eqb table_name "invoice" && String.eqb pk_column_name "id"
  then Some (Some "invoice_id_seq")
  else Some None.

Definition sample_destination : DbEntities.Destination :=
  {| DbEntities.sequences := {[ "invoice_id_seq" := 7; "other_seq" := 3 ]};
     DbEntities.log := [] |}.

(** The state of a schema under introspection is consistent when every
    table is stored under its name with no column key repeated, every
    foreign-key column has a referent among the tables that lists it in
    [revert_foreign_tables], and the cache of [is_foreign_key] agrees with
    the columns. *)
Record consistent (s : DbEntities.Introspection) : Prop := {
  consistent_names :
    ∀ n table, DbEntities.tables s !! n = Some table →
      DbEntities.DBTable.name table = n
      ∧ NoDup (DbEntities.DBTable.columns table).*1;
  consistent_links :
    ∀ n table k c,
      DbEntities.tables s !! n = Some table →
      (k, c) ∈ DbEntities.DBTable.columns table →
      DbEntities.DBColumn.is_foreign_key c = true →
      ∃ r referent,
        DbEntities.DBColumn.constraint_table c = Some r
        ∧ DbEntities.tables s !! r = Some referent
        ∧ k ∈ default ∅ (DbEntities.DBTable.revert_foreign_tables referent !! n);
  consistent_cache :
    ∀ n k v, ((n, k), v) ∈ DbEntities.is_foreign_key_cache s →
      ∃ table c,
        DbEntities.tables s !! n = Some table
        ∧ (k, c) ∈ DbEntities.DBTable.columns table
        ∧ DbEntities.DBColumn.is_foreign_key c = v
}.

(** Every foreign-key column of every table refers to a table of the
    database. *)
Definition refs_closed (tables : gmap string DbEntities.DBTable.t) : Prop :=
  ∀ n table c,
    tables !! n = Some table →
    c ∈ DbEntities.DBTable.values table →
    DbEntities.DBColumn.is_foreign_key c = true →
    ∃ r, DbEntities.DBColumn.constraint_table c = Some r ∧ is_Some (tables !! r).

(** The first non-empty list of [candidates], or [otherwise]. *)
Fixpoint first_non_empty {A} (candidates : list (list A)) (otherwise : list A)
  : list A :=
  match candidates with
  | [] => otherwise
  | c :: rest => if Settings.truthy_seq c then c else first_non_empty rest otherwise
  end.

(** [after] is [before] with, at most, more entries in its reverse map. *)
Definition extends (before after : DbEntities.DBTable.t) : Prop :=
  DbEntities.DBTable.name after = DbEntities.DBTable.name before
  ∧ DbEntities.DBTable.columns after = DbEntities.DBTable.columns before
  ∧ ∀ n, default ∅ (DbEntities.DBTable.revert_foreign_tables before !! n)
         ⊆ default (∅ : gset string)
             (DbEntities.DBTable.revert_foreign_tables after !! n).

(** A schema of three tables as the column query reports it, chunk by
    chunk: [t1] points to [tenant], [t2] points to [t1] through a unique
    column. *)
Definition sample_record (table_name column_name : string) (position : Z)
    (constraint_table_name constraint_type : option string)
  : DbEntities.column_record :=
  {| DbEntities.rec_table_name := table_name;
     DbEntities.rec_column_name := column_name;
     DbEntities.rec_data_type := Some "integer";
     DbEntities.rec_ordinal_position := Some position;
     DbEntities.rec_constraint_table_name := constraint_table_name;
     DbEntities.rec_constraint_type := constraint_type |}.

Definition sample_fetch_columns (chunk : list string)
  : list DbEntities.column_record :=
  filter (λ r, DbEntities.rec_table_name r ∈ chunk)
    [ sample_record "tenant" "id" 1 None (Some DbEntities.PRIMARY_KEY);
      sample_record "t1" "id" 1 None (Some DbEntities.PRIMARY_KEY);
      sample_record "t1" "tenant_id" 2 (Some "tenant") (Some DbEntities.FOREIGN_KEY);
      sample_record "t2" "id" 1 None (Some DbEntities.PRIMARY_KEY);
      sample_record "t2" "t1_id" 2 (Some "t1") (Some DbEntities.FOREIGN_KEY);
      sample_record "t2" "t1_id" 2 None (Some DbEntities.UNIQUE);
      sample_record "t2" "note" 3 None None ].

Definition sample_table_names : list string := ["tenant"; "t1"; "t2"].

(** The state before [prepare_tables]: no table yet, nothing cached. *)
Definition sample_start : DbEntities.Introspection :=
  {| DbEntities.tables := ∅;
     DbEntities.is_foreign_key_cache := [];
     DbEntities.is_key_column_cache := [];
     DbEntities.world := sample_world |}.

(** An environment that sets the source host and nothing else. *)
Definition environ_src_host_only : gmap string string :=
  {[ "DATABASER_SRC_DB_HOST" := "localhost" ]}.

(** What [serial_seq_name and serial_seq_name[0]] rejects: no row, a NULL
    name, an empty name. *)
Definition no_serial_sequence (row : option (option string)) : Prop :=
  row = None ∨ row = Some None ∨ row = Some (Some "").

(** The sequence a task writes: the serial sequence of the primary key of
    its own table, as the catalog reports it. *)
Definition owns (fetch_serial_sequence : string → string → option (option string))
    (table : DbEntities.DBTable.t) (seq : string) : Prop :=
  ∃ pk, DbEntities.DBTable.primary_key table = Some pk
        ∧ fetch_serial_sequence (DbEntities.DBTable.name table)
            (DbEntities.DBColumn.name pk) = Some (Some seq).

(** The ordered rows of the group of a store, as the paging query sees
    them. *)
Definition rows_of (self : Storages.StorageDataTable) (w : Storages.World)
  : list string :=
  match Storages.storage_data w with
  | Some r => Storages.ordered (Storages.group_data r (Storages._group self))
  | None => []
  end.

(** A store can be used in a world: an in-memory store always; a scratch
    store once its class is bound to the destination database and the
    relation exists. *)
Definition usable (store : Storages.Store) (w : Storages.World) : Prop :=
  match store with
  | Storages.StorageList_obj _ => True
  | Storages.StorageDataTable_obj k _ =>
      Storages._dst_db (Storages.cls_attrs k w) = true
      ∧ is_Some (Storages.storage_data w)
  end.

(** The chunk size a store iterates with. *)
Definition store_chunk_size (cfg : Settings.settings) (store : Storages.Store) : Z :=
  match store with
  | Storages.StorageList_obj _ => Settings.COLLECTOR_CHUNK_SIZE cfg
  | Storages.StorageDataTable_obj k _ => Storages.chunk_size_of cfg k
  end.

(** The remembered answer of [is_not_empty] is right: a scratch store whose
    [_have_value] is set holds an identifier. *)
Definition have_value_coherent (store : Storages.Store) (w : Storages.World) : Prop :=
  match store with
  | Storages.StorageList_obj _ => True
  | Storages.StorageDataTable_obj _ s =>
      Storages._have_value s = true → Storages.stored_ids store w ≠ ∅
  end.

(** A method call on a store object. *)
Inductive store_call : Type :=
| Call_insert (data : Storages.pks_arg)
| Call_add_storage_data (storage_data : Storages.Store)
| Call_delete
| Call_is_not_empty
| Call_len.

(** Running one call: the store object after it; [None]: out of fuel. *)
Definition run_call (cfg : Settings.settings) (fuel : nat) (call : store_call)
    (store : Storages.Store) (w : Storages.World)
  : option (result Storages.Store * Storages.World) :=
  match call with
  | Call_insert data => Some (Storages.store_insert store data w)
  | Call_add_storage_data other => Storages.store_add_storage_data cfg fuel store other w
  | Call_delete => Some (Storages.store_delete store w)
  | Call_is_not_empty =>
      match Storages.store_is_not_empty store w with
      | (Ok (_, store'), w') => Some (Ok store', w')
      | (Raise e, w') => Some (Raise e, w')
      end
  | Call_len =>
      match Storages.store_len store w with
      | (Ok _, w') => Some (Ok store, w')
      | (Raise e, w') => Some (Raise e, w')
      end
  end.

(** One call takes a store and the world to the store and the world after
    it; a call that raised leaves the store object as it was. *)
Inductive store_step (cfg : Settings.settings)
  : Storages.Store * Storages.World → Storages.Store * Storages.World → Prop :=
| store_step_ok fuel call store w store' w' :
    run_call cfg fuel call store w = Some (Ok store', w') →
    store_step cfg (store, w) (store', w')
| store_step_raise fuel call store w e w' :
    run_call cfg fuel call store w = Some (Raise e, w') →
    store_step cfg (store, w) (store, w').

(** Two stores are of the same kind: both in memory, or both scratch
    stores. *)
Definition same_kind (store other : Storages.Store) : Prop :=
  variant_of store = variant_of other.

(** An item of a comma-separated setting as it can be read back: not empty,
    and free of spaces and commas. *)
Definition plain_item (s : string) : Prop :=
  s ≠ ""
  ∧ Forall (λ c, c ≠ " "%char ∧ c ≠ ","%char) (String.list_ascii_of_string s).

(** The store of the table under a name, if there is such a table. *)
Definition store_of (tables : gmap string DbEntities.DBTable.t) (n : string)
  : option Storages.Store :=
  DbEntities.DBTable.need_transfer_pks <$> tables !! n.

(** The stores of the tables are scratch stores of the class of
    db_entities.py with group numbers up to [bound], and no two tables have
    the same store. *)
Definition own_stores (tables : gmap string DbEntities.DBTable.t) (bound : Z) : Prop :=
  (∀ n store, store_of tables n = Some store →
     ∃ g, store = Storages.StorageDataTable_obj Storages.InDbEntities
                    {| Storages._have_value := false; Storages._group := g |}
          ∧ g ≤ bound)
  ∧ (∀ n1 n2 store, store_of tables n1 = Some store → store_of tables n2 = Some store →
       n1 = n2).

(** A transfer about to start on the sample invoice table, whose store is
    group 2 of the sample world. *)
Definition sample_invoice_transfer : Transporters.Transfer (gset string) :=
  {| Transporters.dst_rows := ∅;
     Transporters.dst_tables := {[ "invoice" := sample_invoice ]};
     Transporters.store_world := sample_world;
     Transporters.logged := [];
     Transporters.issued := [] |}.

(** The arrows that point to [t], counted. *)
Definition indegree {K} `{EqDecision K} (arrows : list (K * K)) (t : K) : nat :=
  length (filter (λ arrow, arrow.2 = t) arrows).

(** The tails of the arrows that leave [h], in the order of the arrows. *)
Definition arrows_from {K} `{EqDecision K} (h : K) (arrows : list (K * K)) : list K :=
  snd <$> filter (λ arrow, arrow.1 = h) arrows.

(** The arrows admit a ranking: every arrow goes from a lower rank to a
    higher one, which is to say that they form no cycle. *)
Definition ranked {K} (arrows : list (K * K)) : Prop :=
  ∃ rank : K → nat, ∀ h t, (h, t) ∈ arrows → (rank h < rank t)%nat.

(** What the second loop of [topological_sort] keeps between two turns, when
    [used] lists the arrows it has followed: every counter is the in-degree
    less the followed arrows, and [ordered] holds the nodes without an
    incoming arrow and the ones whose incoming arrows are all followed, each
    behind the heads of its incoming arrows. *)
Definition released {K} `{EqDecision K} (arrows used : list (K * K))
    (num_heads : list (K * Z)) (ordered : list K) : Prop :=
  NoDup ordered
  ∧ NoDup num_heads.*1
  ∧ (∀ t, Helpers.dict_get num_heads t
          = if decide (t ∈ arrows.*2)
            then Some (Z.of_nat (indegree arrows t) - Z.of_nat (indegree used t))
            else None)
  ∧ (∀ t, t ∈ ordered
          ↔ (t ∈ arrows.*1 ∧ t ∉ arrows.*2)
            ∨ (t ∈ arrows.*2 ∧ indegree used t = indegree arrows t))
  ∧ (∀ h t k, (h, t) ∈ arrows → ordered !! k = Some t →
       ∃ j, (j < k)%nat ∧ ordered !! j = Some h).

(** The arrows of the example in the docstring of [topological_sort]:
    [ah bg cf ch di ed fb fg hd he ib]. *)
Definition docstring_arrows : list (string * string) :=
  [("a", "h"); ("b", "g"); ("c", "f"); ("c", "h"); ("d", "i"); ("e", "d");
   ("f", "b"); ("f", "g"); ("h", "d"); ("h", "e"); ("i", "b")].

(** Two tables that refer to each other, and a third that refers to one of
    them. *)
Definition looping_arrows : list (string * string) :=
  [("order", "invoice"); ("invoice", "order"); ("order", "payment")].

(** * Properties *)

(** ** The string and chunk helpers on small inputs *)

Example strip_example : Settings.strip "  localhost " = "localhost".
Proof. reflexivity. Qed.

Example split_example :
  Settings.split ","%char "a,,b" = ["a"; ""; "b"].
Proof. reflexivity. Qed.

Example make_chunks_example :
  Helpers.make_chunks [1; 2; 3; 4; 5] 2 = Ok [[1; 2]; [3; 4]; [5]].
Proof. reflexivity. Qed.

(** ** Settings: the check of the required parameters *)

Section SettingsFacts.

Import Settings.

(** The check raises exactly when every one of the values is falsy. *)
Lemma check_required_raises (truths : list bool) :
  check_required truths = Raise (ValueError "You must send all params!")
  ↔ Forall (λ b, b = false) truths.
Proof.
  unfold check_required.
  destruct (existsb id truths) eqn:E; simpl.
  - split; [discriminate |].
    intros Hall. apply existsb_exists in E as (b & Hin & Hb).
    rewrite Forall_forall in Hall. apply list_elem_of_In, Hall in Hin.
    unfold id in Hb. congruence.
  - split; [| done]. intros _.
    apply Forall_forall. intros b Hin. apply list_elem_of_In in Hin.
    destruct b; [| done].
    assert (existsb id truths = true) by (apply existsb_exists; eauto).
    congruence.
Qed.

(** One truthy value is enough for the check to pass. *)
Lemma check_required_passes (truths : list bool) :
  true ∈ truths → check_required truths = Ok tt.
Proof.
  intros Hin. unfold check_required.
  assert (existsb id truths = true) as ->; [| done].
  apply existsb_exists. exists true. split; [by apply list_elem_of_In | done].
Qed.

End SettingsFacts.

(** C2, at its failing input: with only [DATABASER_SRC_DB_HOST] set, twelve
    of the thirteen required parameters are missing, and the settings module
    still loads without raising: the check is [not any(...)], which fires
    only when all thirteen are missing.  The claim asks for a fatal error as
    soon as one is missing. *)
Theorem load_settings_accepts_missing_parameters
    (py_int : string → option Z) (strtobool : string → option bool)
    (LogLevelEnum_INFO : string) :
  ∃ s, Settings.load_settings py_int strtobool LogLevelEnum_INFO
         environ_src_host_only = Ok s
       ∧ Settings.SRC_DB_HOST s = "localhost"
       ∧ Settings.SRC_DB_PORT s = ""
       ∧ Settings.DST_DB_HOST s = ""
       ∧ Settings.DST_DB_PASSWORD s = ""
       ∧ Settings.KEY_TABLE_NAME s = ""
       ∧ Settings.KEY_COLUMN_NAMES s = []
       ∧ Settings.KEY_COLUMN_VALUES s = [].
Proof.
  eexists. split; [vm_compute; reflexivity |].
  repeat split.
Qed.

(** The empty environment is the one the check does reject. *)
Lemma load_settings_rejects_empty_environment
    (py_int : string → option Z) (strtobool : string → option bool)
    (LogLevelEnum_INFO : string) :
  Settings.load_settings py_int strtobool LogLevelEnum_INFO ∅
  = Raise (ValueError "You must send all params!").
Proof. vm_compute. reflexivity. Qed.

(** ** The kind of store behind [need_transfer_pks] *)

Section StoreKindFacts.

Import Storages.

(** C1 as stated fails: [DBTable.__init__] does not call [create_storage];
    with the flag off the store of a new table is still a scratch store. *)
Lemma table_store_ignores_flag :
  ¬ (∀ (cfg : Settings.settings) (name : string) (w : World) table w',
        DbEntities.DBTable.init name w = (Ok table, w') →
        variant_of (DbEntities.DBTable.need_transfer_pks table)
        = if Settings.USE_DATABASE_FOR_STORE_INTERMEDIATE_VALUES cfg
          then ScratchTable else InMemory).
Proof.
  intros H.
  specialize (H (sample_settings false 60000) "orders" sample_world _ _ eq_refl).
  discriminate H.
Qed.

(** C1, amended.  A store made by [create_storage] is the in-memory one when
    [USE_DATABASE_FOR_STORE_INTERMEDIATE_VALUES] is false and the scratch one
    of storages.py, with the next group number, when it is true; the
    [need_transfer_pks] of a new [DBTable] is, for either value of the flag,
    a scratch store of the class declared in db_entities.py, with the next
    group number of that class. *)
Theorem create_storage_follows_flag (cfg : Settings.settings) (name : string)
    (w : World) :
  (∃ store w',
      create_storage cfg w = (Ok store, w')
      ∧ variant_of store
        = (if Settings.USE_DATABASE_FOR_STORE_INTERMEDIATE_VALUES cfg
           then ScratchTable else InMemory)
      ∧ store
        = (if Settings.USE_DATABASE_FOR_STORE_INTERMEDIATE_VALUES cfg
           then StorageDataTable_obj InStorages
                  {| _have_value := false;
                     _group := _last_group_number (storages_cls w) + 1 |}
           else StorageList_obj {| _storage := ∅ |}))
  ∧ (∃ table w',
      DbEntities.DBTable.init name w = (Ok table, w')
      ∧ DbEntities.DBTable.need_transfer_pks table
        = StorageDataTable_obj InDbEntities
            {| _have_value := false;
               _group := _last_group_number (entities_cls w) + 1 |}
      ∧ variant_of (DbEntities.DBTable.need_transfer_pks table) = ScratchTable).
Proof.
  split.
  - unfold create_storage.
    destruct (Settings.USE_DATABASE_FOR_STORE_INTERMEDIATE_VALUES cfg);
      eexists _, _; (split; [reflexivity |]); done.
  - eexists _, _. split; [reflexivity |]. done.
Qed.

End StoreKindFacts.

(** ** The scratch relation: rows of a group *)

Section RelationFacts.

Import Storages.

Lemma elem_of_group_data (r : gset (Z * string)) (g : Z) (x : string) :
  x ∈ group_data r g ↔ (g, x) ∈ r.
Proof.
  unfold group_data. rewrite elem_of_map. split.
  - intros ([g' y] & -> & Hin). apply elem_of_filter in Hin as [Hg Hin].
    simpl in *. by subst.
  - intros Hin. exists (g, x). split; [done |]. by apply elem_of_filter.
Qed.

Lemma group_data_empty (g : Z) : group_data ∅ g = ∅.
Proof.
  apply set_eq. intros x. rewrite elem_of_group_data.
  split; intros H; by apply elem_of_empty in H.
Qed.

Lemma group_data_union (r1 r2 : gset (Z * string)) (g : Z) :
  group_data (r1 ∪ r2) g = group_data r1 g ∪ group_data r2 g.
Proof.
  apply set_eq. intros x.
  rewrite elem_of_union, !elem_of_group_data, elem_of_union. done.
Qed.

(** [DELETE FROM storage_data WHERE group_id = g] leaves group [g] empty and
    the other groups as they were. *)
Lemma group_data_delete (r : gset (Z * string)) (g g' : Z) :
  group_data (filter (λ row, row.1 ≠ g) r) g'
  = if decide (g' = g) then ∅ else group_data r g'.
Proof.
  apply set_eq. intros x. rewrite elem_of_group_data, elem_of_filter. simpl.
  destruct (decide (g' = g)) as [-> | Hne].
  - split; [by intros [? _] | intros H; by apply elem_of_empty in H].
  - rewrite elem_of_group_data. split; [by intros [_ ?] | done].
Qed.

Lemma elem_of_insert_rows (self : StorageDataTable) (data : list pk)
    (g : Z) (x : string) :
  (g, x) ∈ insert_rows self data ↔ g = _group self ∧ x ∈ str <$> data.
Proof.
  unfold insert_rows. rewrite elem_of_list_to_set, !list_elem_of_fmap. split.
  - intros (i & [= -> ->] & Hin). split; [done |]. by exists i.
  - intros (-> & i & -> & Hin). by exists i.
Qed.

Lemma elem_of_ordered (s : gset string) (x : string) : x ∈ ordered s ↔ x ∈ s.
Proof. unfold ordered. by rewrite merge_sort_Permutation, elem_of_elements. Qed.

Lemma length_ordered (s : gset string) : length (ordered s) = size s.
Proof. unfold ordered. by rewrite merge_sort_Permutation. Qed.

Lemma ordered_empty : ordered ∅ = [].
Proof. unfold ordered. by rewrite elements_empty. Qed.

End RelationFacts.

(** ** [delete] empties a store *)

Section DeleteFacts.

Import Storages.

Variable cfg : Settings.settings.

(** C10.  For the two store classes of storages.py, right after a [delete]
    that completed: [len] answers 0; [is_not_empty] answers [False] and the
    remembered positive answer is gone; iterating yields no chunk (the
    iteration ends at once, or the database rejects a negative chunk size
    before any chunk). *)
Theorem delete_leaves_store_empty (fuel : nat) (store store' : Store) (w w' : World) :
  declared_in_storages_py store →
  store_delete store w = (Ok store', w') →
  store_len store' w' = (Ok 0, w')
  ∧ store_is_not_empty store' w' = (Ok (false, store'), w')
  ∧ match store' with
    | StorageDataTable_obj _ s => _have_value s = false
    | StorageList_obj s => _storage s = ∅
    end
  ∧ ∃ r, store_aiter cfg (S fuel) store' w' = Some (r, w')
         ∧ (∀ chunks, r = Ok chunks → chunks = [])
         ∧ (0 ≤ Settings.COLLECTOR_CHUNK_SIZE cfg → r = Ok []).
Proof.
  intros Hdecl. destruct store as [sl | k sdt]; simpl in Hdecl.
  - intros [= <- <-].
    unfold store_len, store_is_not_empty, store_aiter, st_ret, sl_len,
      sl_is_not_empty, sl_aiter, sl_delete.
    cbn [_storage]. rewrite size_empty, elements_empty. cbn [Helpers.make_chunks].
    repeat split; try done.
    eexists. split; [reflexivity |]. split; [by intros ? [= <-] | done].
  - subst k. unfold store_delete, sdt_delete, st_bind, relation. simpl.
    destruct (_dst_db (storages_cls w)) eqn:Hdb; [| discriminate].
    destruct (storage_data w) as [r |] eqn:Hr; [| discriminate].
    unfold st_ret. intros [= <- <-]. simpl.
    unfold sdt_len, sdt_is_not_empty, fetch_page, st_bind, relation, st_ret, st_lift.
    simpl. rewrite Hdb.
    rewrite group_data_delete, decide_True by done.
    rewrite size_empty, ordered_empty. simpl.
    repeat split; try done.
    unfold limit_offset, chunk_size_of.
    replace (Settings.COLLECTOR_CHUNK_SIZE cfg * 0) with 0 by lia.
    rewrite orb_false_r.
    destruct (Settings.COLLECTOR_CHUNK_SIZE cfg <? 0) eqn:Hneg.
    + eexists. split; [reflexivity |]. split; [discriminate |]. lia.
    + rewrite drop_nil, take_nil.
      eexists. split; [reflexivity |]. split; [by intros ? [= <-] | done].
Qed.

(** The class declared in db_entities.py keeps [_have_value] across
    [delete]: a store that has answered [True] once answers [True] again
    although its rows are gone. *)
Remark entities_delete_keeps_have_value (self : StorageDataTable) (w : World)
    (self' : StorageDataTable) (w' : World) :
  _have_value self = true →
  sdt_delete InDbEntities self w = (Ok self', w') →
  sdt_is_not_empty InDbEntities self' w' = (Ok (true, self'), w')
  ∧ stored_ids (StorageDataTable_obj InDbEntities self') w' = ∅.
Proof.
  intros Hv. unfold sdt_delete, st_bind, relation. simpl.
  destruct (_dst_db (entities_cls w)); [| discriminate].
  destruct (storage_data w) as [r |]; [| discriminate].
  unfold st_ret. intros [= <- <-]. unfold sdt_is_not_empty. rewrite Hv.
  split; [done |]. simpl. by rewrite group_data_delete, decide_True.
Qed.

End DeleteFacts.

(** C10 on the sample world: the store of group 1 holds two rows and a
    remembered positive answer before its [delete]. *)
Lemma delete_leaves_store_empty_sample :
  let cfg := sample_settings true 2 in
  match Storages.store_delete sample_scratch_store sample_world with
  | (Ok store', w') =>
      Storages.store_len sample_scratch_store sample_world = (Ok 2, sample_world)
      ∧ Storages.store_len store' w' = (Ok 0, w')
      ∧ Storages.store_is_not_empty store' w' = (Ok (false, store'), w')
      ∧ ∃ r, Storages.store_aiter cfg 1 store' w' = Some (r, w')
             ∧ (∀ chunks, r = Ok chunks → chunks = [])
             ∧ (0 ≤ Settings.COLLECTOR_CHUNK_SIZE cfg → r = Ok [])
  | (Raise _, _) => False
  end.
Proof.
  intros cfg.
  destruct (Storages.store_delete sample_scratch_store sample_world)
    as [[store' | e] w'] eqn:Hdel.
  - split; [vm_compute; reflexivity |].
    pose proof (delete_leaves_store_empty cfg 0 sample_scratch_store store'
                  sample_world w' eq_refl Hdel) as (Hlen & Hne & _ & Hiter).
    by repeat split.
  - vm_compute in Hdel. discriminate Hdel.
Defined.

(** The same store as an instance of the class of db_entities.py: after
    [delete] its rows are gone and [is_not_empty] still answers [True]. *)
Lemma entities_delete_keeps_have_value_sample :
  let store := {| Storages._have_value := true; Storages._group := 1 |} in
  match Storages.sdt_delete Storages.InDbEntities store sample_world with
  | (Ok store', w') =>
      Storages.sdt_is_not_empty Storages.InDbEntities store' w'
      = (Ok (true, store'), w')
      ∧ Storages.stored_ids
          (Storages.StorageDataTable_obj Storages.InDbEntities store') w' = ∅
  | (Raise _, _) => False
  end.
Proof.
  intros store.
  destruct (Storages.sdt_delete Storages.InDbEntities store sample_world)
    as [[store' | e] w'] eqn:Hdel.
  - by apply (entities_delete_keeps_have_value store sample_world store' w').
  - vm_compute in Hdel. discriminate Hdel.
Defined.

(** ** Stores only grow *)

Section GrowthFacts.

Import Storages.

Variable cfg : Settings.settings.

(** Reading the relation changes nothing. *)
Lemma relation_pure (k : sdt_class) (w : World) : (relation k w).2 = w.
Proof.
  unfold relation. destruct (_dst_db (cls_attrs k w)); [| done].
  by destruct (storage_data w).
Qed.

Lemma fetch_page_pure (k : sdt_class) (self : StorageDataTable) (step : Z) (w : World) :
  (fetch_page cfg k self step w).2 = w.
Proof.
  unfold fetch_page, st_bind, st_lift.
  pose proof (relation_pure k w) as H.
  destruct (relation k w) as [[r | e] w1]; simpl in *; by subst.
Qed.

(** An [insert] adds rows and removes none: every store, of whatever group,
    holds afterwards at least what it held. *)
Lemma sdt_insert_grows (k : sdt_class) (self : StorageDataTable) (data : list pk)
    (w : World) (store : Store) :
  stored_ids store w ⊆ stored_ids store (sdt_insert k self data w).2.
Proof.
  unfold sdt_insert. destruct data as [| i data]; [done |].
  unfold st_bind, relation.
  destruct (_dst_db (cls_attrs k w)); [| done].
  destruct (storage_data w) as [r |] eqn:Hr; [| done].
  destruct store as [sl | k' s']; simpl; [done |].
  rewrite Hr, group_data_union. apply union_subseteq_l.
Qed.

Lemma sdt_insert_chunks_grows (k : sdt_class) (self : StorageDataTable)
    (chunks : list (list string)) (w : World) (store : Store) :
  stored_ids store w ⊆ stored_ids store (sdt_insert_chunks k self chunks w).2.
Proof.
  revert w. induction chunks as [| chunk chunks IH]; intros w; simpl; [done |].
  unfold st_bind.
  pose proof (sdt_insert_grows k self (PkStr <$> chunk) w store) as H1.
  destruct (sdt_insert k self (PkStr <$> chunk) w) as [[[] | e] w1]; simpl in *.
  - etrans; [exact H1 | apply IH].
  - done.
Qed.

Lemma sdt_add_storage_data_grows (fuel : nat) (k : sdt_class)
    (self : StorageDataTable) (ko : sdt_class) (other : StorageDataTable)
    (step : Z) (w : World) (r : result unit) (w' : World) (store : Store) :
  sdt_add_storage_data cfg fuel k self ko other step w = Some (r, w') →
  stored_ids store w ⊆ stored_ids store w'.
Proof.
  revert step w. induction fuel as [| fuel IH]; intros step w; simpl; [done |].
  pose proof (fetch_page_pure ko other step w) as Hpure.
  destruct (fetch_page cfg ko other step w) as [[[| x chunk] | e] w1];
    simpl in Hpure; subst w1; try by intros [= <- <-].
  pose proof (sdt_insert_grows k self (PkStr <$> x :: chunk) w store) as H1.
  destruct (sdt_insert k self (PkStr <$> x :: chunk) w) as [[[] | e] w2];
    simpl in H1.
  - intros H. etrans; [exact H1 | by eapply IH].
  - by intros [= <- <-].
Qed.

(** One operation: whatever its outcome, the table's store holds at least
    what it held. *)
Lemma apply_op_grows (fuel : nat) (op : store_op) (table : DbEntities.DBTable.t)
    (w : World) (r : result DbEntities.DBTable.t) (w' : World) :
  apply_op cfg fuel op table w = Some (r, w') →
  pending_ids (table, w)
  ⊆ pending_ids (match r with Ok table' => table' | Raise _ => table end, w').
Proof.
  assert (∀ data outcome w1,
            store_insert (DbEntities.DBTable.need_transfer_pks table) data w
            = (outcome, w1) →
            stored_ids (DbEntities.DBTable.need_transfer_pks table) w
            ⊆ stored_ids (match outcome with
                          | Ok store' => store'
                          | Raise _ => DbEntities.DBTable.need_transfer_pks table
                          end) w1) as Hinsert.
  { intros data outcome w1. unfold store_insert.
    destruct data as [data | s]; [| by intros [= <- <-]].
    destruct (DbEntities.DBTable.need_transfer_pks table) as [sl | k sdt] eqn:Hs.
    - intros [= <- <-]. simpl. unfold sl_insert.
      destruct data; [done |]. simpl. apply union_subseteq_l.
    - unfold st_bind.
      pose proof (sdt_insert_grows k sdt data w (StorageDataTable_obj k sdt)) as H1.
      destruct (sdt_insert k sdt data w) as [[[] | e] w2]; simpl in H1;
        by intros [= <- <-]. }
  assert (∀ other outcome w1,
            store_add_storage_data cfg fuel
              (DbEntities.DBTable.need_transfer_pks table) other w
            = Some (outcome, w1) →
            stored_ids (DbEntities.DBTable.need_transfer_pks table) w
            ⊆ stored_ids (match outcome with
                          | Ok store' => store'
                          | Raise _ => DbEntities.DBTable.need_transfer_pks table
                          end) w1) as Hadd.
  { intros other outcome w1. unfold store_add_storage_data.
    destruct (DbEntities.DBTable.need_transfer_pks table) as [sl | k sdt] eqn:Hs;
      destruct other as [ol | ko osdt].
    - intros [= <- <-]. simpl. apply union_subseteq_l.
    - by intros [= <- <-].
    - destruct (sl_aiter cfg ol) as [chunks | e]; [| by intros [= <- <-]].
      pose proof (sdt_insert_chunks_grows k sdt chunks w (StorageDataTable_obj k sdt))
        as H1.
      destruct (sdt_insert_chunks k sdt chunks w) as [[[] | e] w2]; simpl in H1;
        by intros [= <- <-].
    - destruct (sdt_add_storage_data cfg fuel k sdt ko osdt 0 w)
        as [[[[] | e] w2] |] eqn:Hloop; [| | done].
      + intros [= <- <-].
        by apply (sdt_add_storage_data_grows _ _ _ _ _ _ _ _ _
                    (StorageDataTable_obj k sdt)) in Hloop.
      + intros [= <- <-].
        by apply (sdt_add_storage_data_grows _ _ _ _ _ _ _ _ _
                    (StorageDataTable_obj k sdt)) in Hloop. }
  unfold pending_ids. cbn [fst snd].
  destruct op as [arg | data | other]; unfold apply_op.
  - unfold DbEntities.update_need_transfer_pks.
    destruct arg as [data | [sl | [] sdt]].
    + destruct (store_insert _ _ w) as [[store' | e] w1] eqn:Hi;
        intros [= <- <-]; by apply Hinsert in Hi.
    + destruct (store_insert _ _ w) as [[store' | e] w1] eqn:Hi;
        intros [= <- <-]; by apply Hinsert in Hi.
    + destruct (store_insert _ _ w) as [[store' | e] w1] eqn:Hi;
        intros [= <- <-]; by apply Hinsert in Hi.
    + destruct (store_add_storage_data _ _ _ _ w) as [[[store' | e] w1] |] eqn:Ha;
        [| | done]; intros [= <- <-]; by apply Hadd in Ha.
  - destruct (store_insert _ _ w) as [[store' | e] w1] eqn:Hi;
      intros [= <- <-]; by apply Hinsert in Hi.
  - destruct (store_add_storage_data _ _ _ _ w) as [[[store' | e] w1] |] eqn:Ha;
      [| | done]; intros [= <- <-]; by apply Hadd in Ha.
Qed.

(** C5.  Along every sequence of [update_need_transfer_pks], [insert] and
    [add_storage_data] operations on the store of a table, the identifiers
    stored afterwards include the ones stored before, and the size of the
    store does not decrease. *)
Theorem need_transfer_pks_only_grows
    (before after : DbEntities.DBTable.t * World) :
  rtc (collects cfg) before after →
  pending_ids before ⊆ pending_ids after
  ∧ (size (pending_ids before) ≤ size (pending_ids after))%nat.
Proof.
  intros Hrun.
  assert (pending_ids before ⊆ pending_ids after) as Hsub.
  { induction Hrun as [| x y z Hstep _ IH]; [done |].
    etrans; [| exact IH].
    destruct Hstep as [fuel op table w table' w' Hop | fuel op table w e w' Hop];
      by apply apply_op_grows in Hop. }
  split; [done |]. by apply subseteq_size.
Qed.

End GrowthFacts.

(** C5 on the sample world: the store of the sample table is group 1 of the
    scratch relation; identifiers are inserted, then the store of group 2 is
    copied in. *)
Lemma need_transfer_pks_only_grows_sample :
  let cfg := sample_settings true 2 in
  let other :=
    Storages.StorageDataTable_obj Storages.InDbEntities
      {| Storages._have_value := false; Storages._group := 2 |} in
  match apply_op cfg 0
          (Op_insert (Storages.ArgIterable [Storages.PkInt 12; Storages.PkStr "5"]))
          sample_table sample_world with
  | Some (Ok table1, w1) =>
      match apply_op cfg 2
              (Op_update_need_transfer_pks (Storages.ArgStore other)) table1 w1 with
      | Some (Ok table2, w2) =>
          pending_ids (sample_table, sample_world) ⊆ pending_ids (table2, w2)
          ∧ (size (pending_ids (sample_table, sample_world))
             ≤ size (pending_ids (table2, w2)))%nat
      | _ => False
      end
  | _ => False
  end.
Proof.
  intros cfg other.
  destruct (apply_op cfg 0 _ sample_table sample_world)
    as [[[table1 | e1] w1] |] eqn:H1.
  - destruct (apply_op cfg 2 _ table1 w1) as [[[table2 | e2] w2] |] eqn:H2.
    + apply (need_transfer_pks_only_grows cfg).
      eapply rtc_l; [eapply collects_ok, H1 |].
      eapply rtc_once, collects_ok, H2.
    + vm_compute in H1. injection H1 as <- <-. vm_compute in H2. discriminate H2.
    + vm_compute in H1. injection H1 as <- <-. vm_compute in H2. discriminate H2.
  - vm_compute in H1. discriminate H1.
  - vm_compute in H1. discriminate H1.
Defined.

(** ** Every operation of a store runs to its end *)

Section CompletionFacts.

Import Storages.

Variable cfg : Settings.settings.

Lemma fetch_page_inv (k : sdt_class) (self : StorageDataTable) (step : Z)
    (w w1 : World) (page : list string) :
  fetch_page cfg k self step w = (Ok page, w1) →
  w1 = w
  ∧ 0 ≤ chunk_size_of cfg k
  ∧ 0 ≤ chunk_size_of cfg k * step
  ∧ page = take (Z.to_nat (chunk_size_of cfg k))
             (drop (Z.to_nat (chunk_size_of cfg k * step)) (rows_of self w)).
Proof.
  unfold fetch_page, st_bind, st_lift, relation, rows_of, limit_offset.
  destruct (_dst_db (cls_attrs k w)); [| discriminate].
  destruct (storage_data w) as [r |]; [| discriminate].
  destruct (chunk_size_of cfg k <? 0) eqn:H1; [discriminate |].
  destruct (chunk_size_of cfg k * step <? 0) eqn:H2; [discriminate |].
  simpl. intros [= <- <-]. repeat split; lia.
Qed.

(** Inserting a page of [other] into [self] leaves the rows of [other] as
    they were: another group is not touched, and in the same group the rows
    are there already. *)
Lemma insert_page_keeps_rows (k : sdt_class) (self other : StorageDataTable)
    (page : list string) (w w2 : World) :
  page ⊆ rows_of other w →
  sdt_insert k self (PkStr <$> page) w = (Ok tt, w2) →
  rows_of other w2 = rows_of other w.
Proof.
  intros Hpage. unfold sdt_insert.
  destruct (PkStr <$> page) as [| i data] eqn:Hdata; [by intros [= <-] |].
  unfold st_bind, relation.
  destruct (_dst_db (cls_attrs k w)); [| discriminate].
  unfold rows_of in *.
  destruct (storage_data w) as [r |] eqn:Hr; [| discriminate].
  intros [= <-]. simpl. f_equal. rewrite group_data_union, union_comm_L.
  apply subseteq_union_1_L. intros x Hx.
  apply elem_of_group_data, elem_of_insert_rows in Hx as [_ Hx].
  rewrite <- Hdata in Hx. rewrite <- list_fmap_compose in Hx.
  apply list_elem_of_fmap in Hx as (y & -> & Hy). simpl.
  apply Hpage in Hy. by apply elem_of_ordered in Hy.
Qed.

Lemma sdt_add_storage_data_completes_from (fuel : nat) (k : sdt_class)
    (self : StorageDataTable) (ko : sdt_class) (other : StorageDataTable)
    (step : Z) (w : World) :
  0 ≤ step →
  (length (rows_of other w) - Z.to_nat (chunk_size_of cfg ko * step) < fuel)%nat →
  ∃ r w', sdt_add_storage_data cfg fuel k self ko other step w = Some (r, w').
Proof.
  revert step w. induction fuel as [| fuel IH]; intros step w Hstep Hfuel; [lia |].
  simpl.
  destruct (fetch_page cfg ko other step w) as [[[| x chunk] | e] w1] eqn:Hpage;
    [by eexists _, _ | | by eexists _, _].
  apply fetch_page_inv in Hpage as (-> & Hc & Hoff & Hpage).
  destruct (sdt_insert k self (PkStr <$> x :: chunk) w) as [[[] | e] w2] eqn:Hins;
    [| by eexists _, _].
  assert (x :: chunk ⊆ rows_of other w) as Hsub.
  { rewrite Hpage. etrans; [apply sublist_subseteq, sublist_take |].
    apply sublist_subseteq, sublist_drop. }
  apply (insert_page_keeps_rows k self other) in Hins; [| done].
  apply IH; [lia |]. rewrite Hins.
  assert (Z.to_nat (chunk_size_of cfg ko * step) < length (rows_of other w))%nat.
  { destruct (decide (Z.to_nat (chunk_size_of cfg ko * step)
                      < length (rows_of other w))%nat) as [| Hge]; [done |].
    rewrite drop_ge, take_nil in Hpage by lia. discriminate. }
  assert (0 < chunk_size_of cfg ko).
  { destruct (decide (0 < chunk_size_of cfg ko)) as [| Hle]; [done |].
    replace (chunk_size_of cfg ko) with 0 in Hpage by lia. discriminate. }
  replace (chunk_size_of cfg ko * (step + 1))
    with (chunk_size_of cfg ko * step + chunk_size_of cfg ko) by lia.
  rewrite Z2Nat.inj_add by lia. lia.
Qed.

(** [add_storage_data] between scratch stores stops after at most one page
    more than the other store has rows. *)
Lemma sdt_add_storage_data_completes (k : sdt_class) (self : StorageDataTable)
    (ko : sdt_class) (other : StorageDataTable) (w : World) :
  ∃ r w',
    sdt_add_storage_data cfg (S (length (rows_of other w))) k self ko other 0 w
    = Some (r, w').
Proof. apply sdt_add_storage_data_completes_from; lia. Qed.


End CompletionFacts.

(** ** [DBTable.primary_key] *)

(** The head of a filtered list is the first element that passes, and an
    empty filtered list means that none does. *)
Lemma filter_head_first {A} (P : A → bool) (l : list A) :
  match filter (λ x, P x = true) l with
  | x :: _ =>
      ∃ before after, l = (before ++ x :: after)%list ∧ P x = true
                      ∧ Forall (λ y, P y = false) before
  | [] => Forall (λ y, P y = false) l
  end.
Proof.
  induction l as [| a l IH]; simpl.
  - constructor.
  - rewrite filter_cons. destruct (decide (P a = true)) as [Ha | Ha].
    + exists [], l. split; [done |]. split; [done | constructor].
    + apply not_true_is_false in Ha.
      destruct (filter (λ x, P x = true) l) as [| x rest].
      * by constructor.
      * destruct IH as (before & after & -> & Hx & Hbefore).
        exists (a :: before), after. split; [done |]. split; [done |].
        by constructor.
Qed.

Lemma primary_key_candidate_spec (c : DbEntities.DBColumn.t) :
  DbEntities.DBTable.primary_key_candidate c = true
  ↔ DbEntities.PRIMARY_KEY ∈ DbEntities.DBColumn.constraint_type c
    ∧ DbEntities.DBColumn.data_type c ≠ "date".
Proof.
  unfold DbEntities.DBTable.primary_key_candidate.
  rewrite andb_true_iff, bool_decide_eq_true, negb_true_iff.
  split; intros [H1 H2]; split; try done.
  - intros Heq. apply String.eqb_neq in H2. done.
  - by apply String.eqb_neq.
Qed.


(** The iteration order of [columns] is the order in which
    [append_column] first met each name, whatever the ordinal positions: the
    rows of a two-column primary key arriving as [b] (position 2), [a]
    (position 1) leave [b] first, and [b] is the primary key. *)
Example columns_keep_insertion_order :
  let cfg := sample_settings true 2 in
  let fetch_columns (chunk : list string) :=
    [ sample_record "pair" "b" 2 None (Some DbEntities.PRIMARY_KEY);
      sample_record "pair" "a" 1 None (Some DbEntities.PRIMARY_KEY) ] in
  match DbEntities.prepare_tables cfg fetch_columns id ["pair"] sample_start with
  | (Ok _, s') =>
      match DbEntities.tables s' !! "pair" with
      | Some table =>
          (DbEntities.DBColumn.name <$> DbEntities.DBTable.values table) = ["b"; "a"]
          ∧ (DbEntities.DBColumn.ordinal_position <$> DbEntities.DBTable.values table)
            = [2; 1]
          ∧ (DbEntities.DBColumn.name <$> DbEntities.DBTable.primary_key table)
            = Some "b"
      | None => False
      end
  | (Raise _, _) => False
  end.
Proof. vm_compute. repeat split. Qed.

(** ** Introspection keeps the schema consistent *)

Section IntrospectionFacts.

Import DbEntities.

Variable cfg : Settings.settings.

(** *** The cache *)

Lemma lru_call_inv {K V} `{EqDecision K} (compute : V) (key : K)
    (cache cache' : list (K * V)) (v : V) :
  Functools.lru_call compute key cache = (v, cache') →
  (v = compute ∨ (key, v) ∈ cache)
  ∧ ∀ e, e ∈ cache' → e = (key, v) ∨ e ∈ cache.
Proof.
  unfold Functools.lru_call, Functools.cache_lookup.
  destruct (list_find (λ e, e.1 = key) cache) as [[i [k' v']] |] eqn:Hfind; simpl.
  - apply list_find_Some in Hfind as (Hi & Hk & _). simpl in Hk. subst k'.
    intros [= <- <-]. split.
    + right. by eapply list_elem_of_lookup_2.
    + intros e [-> | He]%elem_of_cons; [by left |].
      right. unfold Functools.cache_remove in He.
      by apply list_elem_of_filter in He as [_ He].
  - intros [= <- <-]. split; [by left |].
    intros e [-> | He]%elem_of_cons; [by left |].
    right. by apply subseteq_take in He.
Qed.

(** *** The dictionary of columns *)

Lemma get_column_by_name_Some (self : DBTable.t) (k : string) (c : DBColumn.t) :
  DBTable.get_column_by_name self k = Some c → (k, c) ∈ DBTable.columns self.
Proof.
  unfold DBTable.get_column_by_name.
  destruct (list_find _ _) as [[i [k' c']] |] eqn:Hfind; [| done].
  apply list_find_Some in Hfind as (Hi & Hk & _). simpl in *. subst k'.
  intros [= <-]. by eapply list_elem_of_lookup_2.
Qed.

Lemma get_column_by_name_None (self : DBTable.t) (k : string) :
  DBTable.get_column_by_name self k = None → k ∉ (DBTable.columns self).*1.
Proof.
  unfold DBTable.get_column_by_name.
  destruct (list_find _ _) as [[i [k' c']] |] eqn:Hfind; [done |].
  intros _ Hin. apply list_elem_of_fmap in Hin as ([k' c] & -> & Hin).
  apply list_find_None in Hfind. rewrite Forall_forall in Hfind.
  by apply Hfind in Hin.
Qed.

Lemma columns_functional (columns : list (string * DBColumn.t)) k c c' :
  NoDup columns.*1 → (k, c) ∈ columns → (k, c') ∈ columns → c = c'.
Proof.
  intros Hnd H1 H2.
  apply list_elem_of_lookup in H1 as [i Hi], H2 as [j Hj].
  assert (i = j) as ->.
  { eapply NoDup_lookup; [exact Hnd | |].
    - by rewrite list_lookup_fmap, Hi.
    - by rewrite list_lookup_fmap, Hj. }
  congruence.
Qed.

Lemma fst_replace_column k column (columns : list (string * DBColumn.t)) :
  (replace_column k column columns).*1 = columns.*1.
Proof.
  unfold replace_column. rewrite <- list_fmap_compose.
  apply list_fmap_ext. intros i [k' c] _. simpl. by destruct (decide (k' = k)).
Qed.

Lemma elem_of_replace_column k column (columns : list (string * DBColumn.t)) k' c' :
  (k', c') ∈ replace_column k column columns
  ↔ (k' = k ∧ c' = column ∧ k ∈ columns.*1) ∨ (k' ≠ k ∧ (k', c') ∈ columns).
Proof.
  unfold replace_column. rewrite list_elem_of_fmap. split.
  - intros ([k0 c0] & Heq & Hin). simpl in Heq.
    destruct (decide (k0 = k)) as [-> | Hne]; injection Heq as -> ->.
    + left. repeat split. apply list_elem_of_fmap. by exists (k, c0).
    + by right.
  - intros [(-> & -> & Hin) | (Hne & Hin)].
    + apply list_elem_of_fmap in Hin as ([k0 c0] & -> & Hin).
      exists (k0, c0). simpl. by rewrite decide_True.
    + exists (k', c'). simpl. by rewrite decide_False.
Qed.

Lemma is_foreign_key_add_constraint_type (ct : string) (c : DBColumn.t) :
  DBColumn.is_foreign_key (DBColumn.add_constraint_type ct c)
  = DBColumn.is_foreign_key c || String.eqb ct FOREIGN_KEY.
Proof.
  unfold DBColumn.is_foreign_key, DBColumn.add_constraint_type. simpl.
  apply eq_true_iff_eq.
  rewrite orb_true_iff, !bool_decide_eq_true, elem_of_app, list_elem_of_singleton.
  rewrite String.eqb_eq. split; intros [? | ?]; auto.
Qed.

(** *** The first half of [append_column] *)

Lemma upsert_column_inv (self : DBTable.t) (column_name : string)
    (data_type : option string) (ordinal_position : option Z)
    (constraint_table constraint_type : option string)
    (s s1 : Introspection) (column : DBColumn.t)
    (columns' : list (string * DBColumn.t)) :
  NoDup (DBTable.columns self).*1 →
  upsert_column self column_name data_type ordinal_position constraint_table
    constraint_type s = (Ok (column, columns'), s1) →
  tables s1 = tables s
  ∧ NoDup columns'.*1
  ∧ (column_name, column) ∈ columns'
  ∧ (∀ k c, k ≠ column_name → (k, c) ∈ columns' ↔ (k, c) ∈ DBTable.columns self)
  ∧ (DBColumn.is_foreign_key column = true →
       DBColumn.constraint_table column = constraint_table
       ∨ ∃ old, (column_name, old) ∈ DBTable.columns self
                ∧ DBColumn.is_foreign_key old = true
                ∧ DBColumn.constraint_table old = DBColumn.constraint_table column)
  ∧ (is_foreign_key_cache s1 = []
     ∨ (is_foreign_key_cache s1 = is_foreign_key_cache s
        ∧ ∀ old, (column_name, old) ∈ DBTable.columns self →
                 DBColumn.is_foreign_key old = DBColumn.is_foreign_key column)).
Proof.
  intros Hnd. unfold upsert_column.
  destruct (DBTable.get_column_by_name self column_name) as [old |] eqn:Hget.
  - apply get_column_by_name_Some in Hget.
    assert (column_name ∈ (DBTable.columns self).*1) as Hkey.
    { apply list_elem_of_fmap. by exists (column_name, old). }
    assert (∀ old', (column_name, old') ∈ DBTable.columns self → old' = old) as Hold.
    { intros old' Hin. by eapply columns_functional. }
    assert (∀ column0,
              NoDup (replace_column column_name column0 (DBTable.columns self)).*1
              ∧ (column_name, column0)
                ∈ replace_column column_name column0 (DBTable.columns self)
              ∧ (∀ k c, k ≠ column_name →
                   (k, c) ∈ replace_column column_name column0 (DBTable.columns self)
                   ↔ (k, c) ∈ DBTable.columns self)) as Hreplace.
    { intros column0. rewrite fst_replace_column. split; [done |]. split.
      - apply elem_of_replace_column. by left.
      - intros k c Hne. rewrite elem_of_replace_column. split.
        + by intros [(? & _) | (_ & ?)].
        + intros Hin. by right. }
    assert (∀ column0 columns0 s0,
              column0 = old → columns0 = DBTable.columns self → s0 = s →
              tables s0 = tables s
              ∧ NoDup columns0.*1
              ∧ (column_name, column0) ∈ columns0
              ∧ (∀ k c, k ≠ column_name →
                   (k, c) ∈ columns0 ↔ (k, c) ∈ DBTable.columns self)
              ∧ (DBColumn.is_foreign_key column0 = true →
                   DBColumn.constraint_table column0 = constraint_table
                   ∨ ∃ old0, (column_name, old0) ∈ DBTable.columns self
                             ∧ DBColumn.is_foreign_key old0 = true
                             ∧ DBColumn.constraint_table old0
                               = DBColumn.constraint_table column0)
              ∧ (is_foreign_key_cache s0 = []
                 ∨ (is_foreign_key_cache s0 = is_foreign_key_cache s
                    ∧ ∀ old0, (column_name, old0) ∈ DBTable.columns self →
                              DBColumn.is_foreign_key old0
                              = DBColumn.is_foreign_key column0))) as Hsame.
    { intros column0 columns0 s0 -> -> ->. repeat split; try done.
      - intros Hfk. right. by exists old.
      - right. split; [done |]. intros old0 Hin. by rewrite (Hold _ Hin). }
    destruct constraint_type as [ct |];
      [| unfold st_ret; intros [= <- <- <-]; by apply Hsame].
    destruct (Settings.truthy_str ct);
      [| unfold st_ret; intros [= <- <- <-]; by apply Hsame].
    destruct (String.eqb ct FOREIGN_KEY) eqn:Hct.
    + intros [= <- <- <-].
      destruct (Hreplace (DBColumn.set_constraint_table constraint_table
                            (DBColumn.add_constraint_type ct old)))
        as (H1 & H2 & H3).
      repeat split; try done; try (by apply H3).
      * intros _. by left.
      * by left.
    + unfold st_ret. intros [= <- <- <-].
      destruct (Hreplace (DBColumn.add_constraint_type ct old)) as (H1 & H2 & H3).
      assert (DBColumn.is_foreign_key (DBColumn.add_constraint_type ct old)
              = DBColumn.is_foreign_key old) as Hfk.
      { by rewrite is_foreign_key_add_constraint_type, Hct, orb_false_r. }
      repeat split; try done; try (by apply H3).
      * intros Hfk'. right. exists old. by rewrite <- Hfk.
      * right. split; [done |]. intros old0 Hin. by rewrite (Hold _ Hin).
  - apply get_column_by_name_None in Hget.
    unfold st_bind, st_lift, st_ret.
    destruct (DBColumn.init _ _ _ _ _ _) as [column0 | e] eqn:Hinit; [| discriminate].
    intros [= <- <- <-].
    assert (DBColumn.constraint_table column0 = constraint_table) as Hct.
    { unfold DBColumn.init in Hinit.
      destruct (negb (Settings.truthy_str column_name)); [discriminate |].
      destruct (negb (Settings.truthy_str (DBTable.name self))); [discriminate |].
      by injection Hinit as <-. }
    assert (∀ c, (column_name, c) ∉ DBTable.columns self) as Hfresh.
    { intros c Hin. apply Hget, list_elem_of_fmap. by exists (column_name, c). }
    repeat split.
    + rewrite fmap_app. apply NoDup_app. split; [done |]. split.
      * intros k Hk Hk'. simpl in Hk'. apply list_elem_of_singleton in Hk'.
        by subst.
      * simpl. apply NoDup_singleton.
    + apply elem_of_app. right. by apply list_elem_of_singleton.
    + intros [Hin | Hin]%elem_of_app; [done |].
      apply list_elem_of_singleton in Hin. congruence.
    + intros Hin. apply elem_of_app. by left.
    + intros _. by left.
    + right. split; [done |]. intros old Hin. by apply Hfresh in Hin.
Qed.

(** *** [append_column], step by step *)

(** What a completed [append_column] has done: the column was put in place
    in a table that kept its name and its reverse map, [is_foreign_key] was
    read through the cache, and a foreign key was entered in the reverse map
    of its referent. *)
Lemma append_column_steps (table_name column_name : string)
    (data_type : option string) (ordinal_position : option Z)
    (constraint_table constraint_type : option string)
    (s s' : Introspection) (column : DBColumn.t) :
  append_column cfg table_name column_name data_type ordinal_position
    constraint_table constraint_type s = (Ok column, s') →
  ∃ self columns' s1 self2 v,
    tables s !! table_name = Some self
    ∧ upsert_column self column_name data_type ordinal_position constraint_table
        constraint_type s = (Ok (column, columns'), s1)
    ∧ DBTable.columns self2 = columns'
    ∧ DBTable.name self2 = DBTable.name self
    ∧ DBTable.revert_foreign_tables self2 = DBTable.revert_foreign_tables self
    ∧ Functools.lru_call (DBColumn.is_foreign_key column) (table_name, column_name)
        (is_foreign_key_cache s1) = (v, is_foreign_key_cache s')
    ∧ ((v = false ∧ tables s' = <[table_name := self2]> (tables s))
       ∨ (v = true
          ∧ ∃ referent,
              DBColumn.constraint_table column = Some referent
              ∧ tables s'
                = alter (add_revert (DBTable.name self2) column_name) referent
                    (<[table_name := self2]> (tables s)))).
Proof.
  unfold append_column, st_bind, st_get.
  destruct (tables s !! table_name) as [self |] eqn:Hself; [| discriminate].
  destruct (upsert_column self column_name data_type ordinal_position
              constraint_table constraint_type s)
    as [[[column0 columns'] | e] s1] eqn:Hup; [| discriminate].
  assert (tables s1 = tables s) as Ht1.
  { unfold upsert_column in Hup.
    destruct (DBTable.get_column_by_name self column_name).
    - destruct constraint_type as [ct |]; [| by injection Hup as _ _ <-].
      destruct (Settings.truthy_str ct); [| by injection Hup as _ _ <-].
      destruct (String.eqb ct FOREIGN_KEY); by injection Hup as _ _ <-.
    - unfold st_bind, st_lift in Hup.
      destruct (DBColumn.init _ _ _ _ _ _); [| discriminate].
      by injection Hup as _ _ <-. }
  unfold cached_is_key_column, cached_is_foreign_key, st_ret, st_raise. simpl.
  rewrite Ht1.
  destruct (DBTable._key_column self) as [kc |] eqn:Hkc; simpl.
  2: destruct (Functools.lru_call (DBColumn.is_key_column cfg column0) _ _)
       as [is_key cache_k] eqn:Hkey; simpl.
  all: rewrite insert_insert_eq.
  all: destruct (Functools.lru_call (DBColumn.is_foreign_key column0) _ _)
         as [v cache'] eqn:Hlru; simpl.
  all: destruct v;
    [ destruct (DBColumn.constraint_table column0) as [referent |] eqn:Href;
      [| by intros [=]] |].
  all: intros [= <- <-]; simpl.
  - exists self, columns', s1, (set_columns columns' self), true.
    repeat split; try done. right. split; [done |]. by exists referent.
  - exists self, columns', s1, (set_columns columns' self), false.
    repeat split; try done. by left.
  - exists self, columns', s1,
      (if is_key then set_key_column (Some column_name) (set_columns columns' self)
       else set_columns columns' self), true.
    repeat split; try done; try (by destruct is_key).
    right. split; [done |]. by exists referent.
  - exists self, columns', s1,
      (if is_key then set_key_column (Some column_name) (set_columns columns' self)
       else set_columns columns' self), false.
    repeat split; try done; try (by destruct is_key). by left.
Qed.

(** *** Tables before and after a step *)

Lemma extends_refl (table : DBTable.t) : extends table table.
Proof. by repeat split. Qed.

Lemma extends_add_revert (table_name column_name : string) (table : DBTable.t) :
  extends table (add_revert table_name column_name table).
Proof.
  repeat split. intros n. simpl.
  destruct (decide (n = table_name)) as [-> | Hne].
  - rewrite lookup_insert_eq. simpl. apply union_subseteq_r.
  - by rewrite lookup_insert_ne.
Qed.

Lemma add_revert_member (table_name column_name : string) (table : DBTable.t) :
  column_name
  ∈ default (∅ : gset string)
      (DBTable.revert_foreign_tables (add_revert table_name column_name table)
       !! table_name).
Proof.
  simpl. rewrite lookup_insert_eq. simpl.
  apply elem_of_union_l. by apply elem_of_singleton.
Qed.

(** The tables after a step, in terms of the tables before it: the table
    the column went to is [self2], every other one is the one it was, and
    each may have gained entries in its reverse map. *)
Lemma tables_after_step (before after : gmap string DBTable.t)
    (table_name column_name : string) (self2 : DBTable.t) (referent : string) :
  after = <[table_name := self2]> before
  ∨ after = alter (add_revert (DBTable.name self2) column_name) referent
              (<[table_name := self2]> before) →
  ∀ n,
    (∀ table', after !! n = Some table' →
       ∃ base, (if decide (n = table_name) then base = self2
                else before !! n = Some base)
               ∧ extends base table')
    ∧ (∀ base, (if decide (n = table_name) then base = self2
                else before !! n = Some base) →
         ∃ table', after !! n = Some table' ∧ extends base table').
Proof.
  intros Hafter n.
  assert (∀ base, (<[table_name := self2]> before) !! n = Some base
                  ↔ (if decide (n = table_name) then base = self2
                     else before !! n = Some base)) as Hbase.
  { intros base. destruct (decide (n = table_name)) as [-> | Hne].
    - rewrite lookup_insert_eq. split; [by intros [= <-] | by intros ->].
    - by rewrite lookup_insert_ne. }
  destruct Hafter as [-> | ->].
  - split.
    + intros table' H. exists table'. split; [by apply Hbase | apply extends_refl].
    + intros base H. exists base. split; [by apply Hbase | apply extends_refl].
  - split.
    + intros table'. rewrite lookup_alter.
      destruct (decide (referent = n)) as [-> | Hne].
      * destruct (_ !! n) as [base |] eqn:Hn; [| done].
        intros [= <-]. exists base. split; [by apply Hbase |].
        apply extends_add_revert.
      * intros H. exists table'. split; [by apply Hbase | apply extends_refl].
    + intros base H. apply Hbase in H. rewrite lookup_alter.
      destruct (decide (referent = n)) as [-> | Hne].
      * rewrite H. eexists. split; [done |]. apply extends_add_revert.
      * exists base. split; [done | apply extends_refl].
Qed.

(** *** A completed [append_column] keeps the state consistent *)

Lemma append_column_consistent (table_name column_name : string)
    (data_type : option string) (ordinal_position : option Z)
    (constraint_table constraint_type : option string)
    (s s' : Introspection) (column : DBColumn.t) :
  consistent s →
  (∀ r, constraint_table = Some r → is_Some (tables s !! r)) →
  append_column cfg table_name column_name data_type ordinal_position
    constraint_table constraint_type s = (Ok column, s') →
  consistent s' ∧ dom (tables s') = dom (tables s).
Proof.
  intros [Hnames Hlinks Hcache] Harg Hrun.
  apply append_column_steps in Hrun
    as (self & columns' & s1 & self2 & v & Hself & Hup & Hcols & Hname & Hrev
        & Hlru & Hcases).
  destruct (Hnames _ _ Hself) as [Hself_name Hnd].
  apply upsert_column_inv in Hup
    as (Ht1 & Hnd' & Hin' & Hother & Hsource & Hc1); [| done].
  apply lru_call_inv in Hlru as [Hv Hentries].
  assert (∃ referent,
            tables s' = <[table_name := self2]> (tables s)
            ∨ tables s' = alter (add_revert (DBTable.name self2) column_name)
                            referent (<[table_name := self2]> (tables s)))
    as [referent0 Hafter].
  { destruct Hcases as [[_ ->] | (_ & referent & _ & ->)].
    - exists "". by left.
    - exists referent. by right. }
  pose proof (tables_after_step _ _ _ _ _ _ Hafter) as Hstep.
  (* a table after the step, seen from before *)
  assert (∀ n table', tables s' !! n = Some table' →
            DBTable.name table' = n
            ∧ (n = table_name → DBTable.columns table' = columns')
            ∧ (n ≠ table_name →
               ∃ table0, tables s !! n = Some table0
                         ∧ DBTable.columns table' = DBTable.columns table0))
    as Hview.
  { intros n table' Hn. destruct (Hstep n) as [Hback _].
    destruct (Hback _ Hn) as (base & Hbase & Hn' & Hc' & _).
    destruct (decide (n = table_name)) as [-> | Hne].
    - subst base. split; [congruence |]. split; [congruence | done].
    - split; [rewrite Hn'; by apply Hnames |]. split; [done |].
      intros _. by exists base. }
  (* a table before the step, seen from after: its reverse map is kept *)
  assert (∀ r referent, tables s !! r = Some referent →
            ∃ referent', tables s' !! r = Some referent'
                         ∧ ∀ n, default ∅ (DBTable.revert_foreign_tables referent !! n)
                                ⊆ default (∅ : gset string)
                                    (DBTable.revert_foreign_tables referent' !! n))
    as Hkept.
  { intros r referent Hr. destruct (Hstep r) as [_ Hforth].
    destruct (decide (r = table_name)) as [-> | Hne].
    - destruct (Hforth self2) as (referent' & Hr' & _ & _ & Hgrow); [done |].
      exists referent'. split; [done |]. intros n.
      assert (referent = self) as -> by congruence.
      rewrite <- Hrev. apply Hgrow.
    - destruct (Hforth referent) as (referent' & Hr' & _ & _ & Hgrow); [done |].
      by exists referent'. }
  (* the column that was appended *)
  assert (∀ table' c, tables s' !! table_name = Some table' →
            (column_name, c) ∈ DBTable.columns table' → c = column) as Hcolumn.
  { intros table' c Hn Hc. destruct (Hview _ _ Hn) as (_ & Hcs & _).
    rewrite Hcs in Hc by done.
    by apply (columns_functional columns' column_name c column). }
  assert (∃ table', tables s' !! table_name = Some table'
                    ∧ (column_name, column) ∈ DBTable.columns table')
    as (table_after & Htable_after & Hcolumn_after).
  { destruct (Hstep table_name) as [_ Hforth].
    destruct (Hforth self2) as (table' & Hn & _ & Hc' & _);
      [by rewrite decide_True |].
    exists table'. split; [done |]. by rewrite Hc', Hcols. }
  (* the cache before the read agrees with the columns after the step *)
  assert (∀ n k v0, ((n, k), v0) ∈ is_foreign_key_cache s1 →
            ∃ table' c, tables s' !! n = Some table'
                        ∧ (k, c) ∈ DBTable.columns table'
                        ∧ DBColumn.is_foreign_key c = v0) as Hcache1.
  { destruct Hc1 as [-> | [-> Hold]]; [by intros n k v0 H%elem_of_nil |].
    intros n k v0 Hentry.
    destruct (Hcache _ _ _ Hentry) as (table0 & c0 & Hn0 & Hc0 & Hfk0).
    destruct (decide (n = table_name)) as [-> | Hne].
    - assert (table0 = self) as -> by congruence.
      destruct (decide (k = column_name)) as [-> | Hk].
      + exists table_after, column. split; [done |]. split; [done |].
        by rewrite <- (Hold _ Hc0).
      + exists table_after, c0. split; [done |]. split; [| done].
        destruct (Hview _ _ Htable_after) as (_ & Hcs & _).
        rewrite Hcs by done. by apply Hother.
    - destruct (Hstep n) as [_ Hforth].
      destruct (Hforth table0) as (table' & Hn' & _ & Hc' & _);
        [by rewrite decide_False |].
      exists table', c0. by rewrite Hc'. }
  assert (v = DBColumn.is_foreign_key column) as Hv'.
  { destruct Hv as [-> | Hentry]; [done |].
    destruct (Hcache1 _ _ _ Hentry) as (table' & c & Hn & Hc & <-).
    f_equal. by eapply Hcolumn. }
  split; [split |].
  - (* names *)
    intros n table' Hn. destruct (Hview _ _ Hn) as (Hname' & Hsame & Hdiff).
    split; [done |].
    destruct (decide (n = table_name)) as [-> | Hne].
    + by rewrite Hsame.
    + destruct (Hdiff Hne) as (table0 & Hn0 & ->). by apply Hnames in Hn0 as [_ ?].
  - (* links *)
    intros n table' k c Hn Hc Hfk.
    assert ((n = table_name ∧ k = column_name)
            ∨ ∃ table0, tables s !! n = Some table0
                        ∧ (k, c) ∈ DBTable.columns table0) as [[-> ->] | Hold].
    { destruct (Hview _ _ Hn) as (_ & Hsame & Hdiff).
      destruct (decide (n = table_name)) as [-> | Hne].
      - destruct (decide (k = column_name)) as [-> | Hk]; [by left |].
        right. exists self. split; [done |].
        rewrite Hsame in Hc by done. by apply Hother in Hc.
      - right. destruct (Hdiff Hne) as (table0 & Hn0 & Heq).
        exists table0. by rewrite <- Heq. }
    + assert (c = column) as -> by (by eapply Hcolumn).
      rewrite Hfk in Hv'. subst v.
      destruct Hcases as [[? _] | (_ & referent & Href & Htables)]; [done |].
      assert (is_Some (tables s !! referent)) as [referent_before Hbefore].
      { destruct (Hsource Hfk) as [Hct | (old & Hold_in & Hold_fk & Hold_ct)].
        - apply Harg. congruence.
        - destruct (Hlinks _ _ _ _ Hself Hold_in Hold_fk) as (r & rt & Hr & Hrt & _).
          assert (r = referent) as -> by congruence. by eexists. }
      assert (is_Some ((<[table_name := self2]> (tables s)) !! referent))
        as [base Hbase].
      { destruct (decide (referent = table_name)) as [-> | Hne].
        - rewrite lookup_insert_eq. by eexists.
        - rewrite lookup_insert_ne by done. by eexists. }
      exists referent, (add_revert (DBTable.name self2) column_name base).
      split; [done |]. split.
      * by rewrite Htables, lookup_alter_eq, Hbase.
      * rewrite Hname, Hself_name. apply add_revert_member.
    + destruct Hold as (table0 & Hn0 & Hc0).
      destruct (Hlinks _ _ _ _ Hn0 Hc0 Hfk) as (r & referent & Hr & Hrt & Hk).
      destruct (Hkept _ _ Hrt) as (referent' & Hrt' & Hgrow).
      exists r, referent'. split; [done |]. split; [done |]. by apply Hgrow.
  - (* cache *)
    intros n k v0 Hentry. apply Hentries in Hentry as [[= -> -> ->] | Hentry].
    + by exists table_after, column.
    + by apply Hcache1.
  - (* domain *)
    assert (dom (<[table_name := self2]> (tables s)) = dom (tables s)) as Hdom.
    { apply dom_insert_lookup_L. by eexists. }
    destruct Hafter as [-> | ->]; [done |]. by rewrite dom_alter_L.
Qed.

(** *** Chunks and the whole introspection *)

(** A property that every coroutine keeps when it completes holds after a
    [gather] that completed. *)
Lemma gather_invariant {S A} (P : S → Prop) (coroutines : list (st S A))
    (s s' : S) (results : list A) :
  (∀ c s0 a s1, c ∈ coroutines → P s0 → c s0 = (Ok a, s1) → P s1) →
  P s →
  gather coroutines s = (Ok results, s') →
  P s'.
Proof.
  revert s results. induction coroutines as [| c rest IH]; intros s results Hkeep Hs.
  - simpl. by intros [= _ <-].
  - simpl.
    destruct (c s) as [[a | e] s1] eqn:Hc;
      destruct (gather rest s1) as [[l | e'] s2] eqn:Hrest; try discriminate.
    intros [= _ <-].
    eapply (IH s1 l); [| | exact Hrest].
    + intros c0 s0 a0 s3 Hin. apply Hkeep. by right.
    + eapply Hkeep; [by left | exact Hs | exact Hc].
Qed.

Lemma tables_get_Some (tables0 : gmap string DBTable.t)
    (constraint_table_name : option string) (r : string) :
  tables_get tables0 constraint_table_name = Some r → is_Some (tables0 !! r).
Proof.
  unfold tables_get. destruct constraint_table_name as [n |]; [| done].
  destruct (decide (is_Some (tables0 !! n))); [| done]. by intros [= <-].
Qed.

Lemma prepare_chunk_tables_consistent (records : list column_record)
    (s s' : Introspection) :
  consistent s →
  _prepare_chunk_tables cfg records s = (Ok tt, s') →
  consistent s' ∧ dom (tables s') = dom (tables s).
Proof.
  intros Hs. unfold _prepare_chunk_tables.
  destruct (forallb _ _); [| discriminate].
  destruct (gather _ s) as [[results | e] s1] eqn:Hgather; [| discriminate].
  intros [= <-].
  apply (gather_invariant
           (λ s0, consistent s0 ∧ dom (tables s0) = dom (tables s))) in Hgather;
    [done | | done].
  intros c s0 a s2 Hc [Hs0 Hdom] Hrun.
  apply list_elem_of_fmap in Hc as (r & -> & _).
  apply append_column_consistent in Hrun as [Hs2 Hdom2]; [| done |].
  - split; [done |]. by rewrite Hdom2.
  - intros ref Href. apply tables_get_Some in Href.
    apply elem_of_dom. rewrite Hdom. by apply elem_of_dom.
Qed.

(** The tables built by the dictionary comprehension: new ones, without
    columns and with an empty reverse map, each under its name. *)
Lemma new_tables_fresh (table_names : list string) (acc : gmap string DBTable.t)
    (w : Storages.World) :
  ∃ fresh w',
    new_tables table_names acc w = (Ok fresh, w')
    ∧ ∀ n table, fresh !! n = Some table →
        acc !! n = Some table
        ∨ (DBTable.name table = n ∧ DBTable.columns table = []).
Proof.
  revert acc w. induction table_names as [| n0 rest IH]; intros acc w; simpl.
  - exists acc, w. split; [done |]. intros n table H. by left.
  - unfold st_bind, DBTable.init, Storages.StorageDataTable_init, st_ret. simpl.
    match goal with
    | |- context [new_tables rest ?acc' ?w'] =>
        destruct (IH acc' w') as (fresh & w2 & Hrun & Hfresh)
    end.
    exists fresh, w2. split; [done |]. intros n table Hn.
    destruct (Hfresh _ _ Hn) as [Hacc | Hnew]; [| by right].
    destruct (decide (n0 = n)) as [-> | Hne].
    + rewrite lookup_insert_eq in Hacc. injection Hacc as <-. by right.
    + rewrite lookup_insert_ne in Hacc by done. by left.
Qed.

Lemma prepare_tables_consistent (fetch_columns : list string → list column_record)
    (completion_order : list (list string) → list (list string))
    (table_names : list string) (s s' : Introspection) :
  is_foreign_key_cache s = [] →
  prepare_tables cfg fetch_columns completion_order table_names s = (Ok tt, s') →
  consistent s'.
Proof.
  intros Hempty. unfold prepare_tables.
  destruct (new_tables_fresh table_names ∅ (world s)) as (fresh & w & -> & Hfresh).
  destruct (Helpers.make_chunks _ _) as [chunks | e]; [| discriminate].
  destruct (gather _ _) as [[results | e] s1] eqn:Hgather; [| discriminate].
  intros [= <-].
  apply (gather_invariant consistent) in Hgather; [done | |].
  - intros c s0 a s2 Hc Hs0 Hrun.
    apply list_elem_of_fmap in Hc as (chunk & -> & _). destruct a.
    by apply prepare_chunk_tables_consistent in Hrun as [? _].
  - split; simpl.
    + intros n table Hn. destruct (Hfresh _ _ Hn) as [H | [Hname Hcols]]; [done |].
      split; [done |]. rewrite Hcols. constructor.
    + intros n table k c Hn Hc.
      destruct (Hfresh _ _ Hn) as [H | [_ Hcols]]; [done |].
      rewrite Hcols in Hc. by apply elem_of_nil in Hc.
    + rewrite Hempty. by intros n k v H%elem_of_nil.
Qed.

(** *** A foreign key without referent *)

Lemma upsert_foreign_key_without_referent (self : DBTable.t)
    (table_name column_name : string) (data_type : option string)
    (ordinal_position : option Z) (s : Introspection) :
  consistent s →
  tables s !! table_name = Some self →
  match upsert_column self column_name data_type ordinal_position None
          (Some FOREIGN_KEY) s with
  | (Ok (column, columns'), s1) =>
      DBColumn.is_foreign_key column = true
      ∧ DBColumn.constraint_table column = None
      ∧ tables s1 = tables s
      ∧ ∀ v, ((table_name, column_name), v) ∉ is_foreign_key_cache s1
  | (Raise e, s1) => e = AssertionError ∧ s1 = s
  end.
Proof.
  intros [Hnames Hlinks Hcache] Hself. unfold upsert_column.
  destruct (DBTable.get_column_by_name self column_name) as [old |] eqn:Hget.
  - simpl. split; [| split; [done | split; [done |]]].
    + change (DBColumn.is_foreign_key
                (DBColumn.add_constraint_type FOREIGN_KEY old) = true).
      rewrite is_foreign_key_add_constraint_type. apply orb_true_r.
    + intros v. apply not_elem_of_nil.
  - unfold st_bind, st_lift, st_ret, DBColumn.init.
    destruct (negb (Settings.truthy_str column_name)); [done |].
    destruct (negb (Settings.truthy_str (DBTable.name self))); [done |].
    simpl. split; [done |]. split; [done |]. split; [done |].
    intros v Hentry.
    destruct (Hcache _ _ _ Hentry) as (table & c & Hn & Hc & _).
    assert (table = self) as -> by congruence.
    apply get_column_by_name_None in Hget. apply Hget.
    apply list_elem_of_fmap. by exists (column_name, c).
Qed.

(** Appending a foreign-key column whose referent is [None] raises, and no
    reverse map has gained an entry. *)
Lemma append_foreign_key_without_referent (table_name column_name : string)
    (data_type : option string) (ordinal_position : option Z)
    (s s' : Introspection) (r : result DBColumn.t) :
  consistent s →
  is_Some (tables s !! table_name) →
  append_column cfg table_name column_name data_type ordinal_position None
    (Some FOREIGN_KEY) s = (r, s') →
  (r = Raise AttributeError ∨ r = Raise AssertionError)
  ∧ ∀ n table', tables s' !! n = Some table' →
      ∃ table, tables s !! n = Some table
               ∧ DBTable.revert_foreign_tables table'
                 = DBTable.revert_foreign_tables table.
Proof.
  intros Hs [self Hself].
  pose proof (upsert_foreign_key_without_referent self table_name column_name
                data_type ordinal_position s Hs Hself) as Hup.
  unfold append_column, st_bind, st_get. rewrite Hself.
  destruct (upsert_column self column_name data_type ordinal_position None
              (Some FOREIGN_KEY) s)
    as [[[column columns'] | e] s1].
  - destruct Hup as (Hfk & Href & Ht1 & Habsent).
    unfold cached_is_key_column, cached_is_foreign_key, st_ret, st_raise.
    simpl. rewrite Ht1.
    assert (∀ self2 n table',
              DBTable.revert_foreign_tables self2 = DBTable.revert_foreign_tables self →
              (<[table_name := self2]> (tables s)) !! n = Some table' →
              ∃ table, tables s !! n = Some table
                       ∧ DBTable.revert_foreign_tables table'
                         = DBTable.revert_foreign_tables table) as Hrev.
    { intros self2 n table' Hr. destruct (decide (table_name = n)) as [<- | Hne].
      - rewrite lookup_insert_eq. intros [= <-]. by exists self.
      - rewrite lookup_insert_ne by done. intros Hn. by exists table'. }
    destruct (DBTable._key_column self) as [kc |]; simpl.
    2: destruct (Functools.lru_call (DBColumn.is_key_column cfg column) _ _)
         as [is_key cache_k]; simpl.
    all: rewrite insert_insert_eq.
    all: destruct (Functools.lru_call (DBColumn.is_foreign_key column) _ _)
           as [v cache'] eqn:Hlru; simpl.
    all: apply lru_call_inv in Hlru as [[-> | Hentry] _];
           [| by apply Habsent in Hentry].
    all: rewrite Hfk, Href.
    all: intros [= <- <-]; (split; [by left |]); simpl.
    all: intros n table'; apply Hrev.
    all: try done.
    all: by destruct is_key.
  - destruct Hup as [-> ->]. intros [= <- <-]. split; [by right |].
    intros n table' Hn. by exists table'.
Qed.

(** *** After introspection *)

(** C4.  After a [prepare_tables] that completed, every foreign-key column
    [C] of every table [T] has a referent among the tables, and the reverse
    map of that referent lists [C] under [T].  Appending, to such a schema, a
    foreign-key column whose referent is absent raises ([AttributeError], or
    the [AssertionError] of an empty name) and adds no entry to any reverse
    map. *)
Theorem introspection_links_foreign_keys
    (fetch_columns : list string → list column_record)
    (completion_order : list (list string) → list (list string))
    (table_names : list string) (s s' : Introspection) :
  is_foreign_key_cache s = [] →
  prepare_tables cfg fetch_columns completion_order table_names s = (Ok tt, s') →
  (∀ n T k C,
      tables s' !! n = Some T →
      (k, C) ∈ DBTable.columns T →
      DBColumn.is_foreign_key C = true →
      ∃ r R,
        DBColumn.constraint_table C = Some r
        ∧ tables s' !! r = Some R
        ∧ k ∈ default ∅ (DBTable.revert_foreign_tables R !! DBTable.name T))
  ∧ (∀ table_name column_name data_type ordinal_position outcome s'',
      is_Some (tables s' !! table_name) →
      append_column cfg table_name column_name data_type ordinal_position None
        (Some FOREIGN_KEY) s' = (outcome, s'') →
      (outcome = Raise AttributeError ∨ outcome = Raise AssertionError)
      ∧ ∀ n T', tables s'' !! n = Some T' →
          ∃ T, tables s' !! n = Some T
               ∧ DBTable.revert_foreign_tables T' = DBTable.revert_foreign_tables T).
Proof.
  intros Hempty Hrun.
  pose proof (prepare_tables_consistent _ _ _ _ _ Hempty Hrun) as Hs'.
  split.
  - intros n T k C Hn HC Hfk.
    destruct (consistent_names _ Hs' _ _ Hn) as [-> _].
    by eapply (consistent_links _ Hs').
  - intros table_name column_name data_type ordinal_position outcome s'' Htable Happend.
    by eapply append_foreign_key_without_referent.
Qed.

Lemma consistent_refs_closed (s : Introspection) :
  consistent s → refs_closed (tables s).
Proof.
  intros Hs n table c Hn Hc Hfk.
  apply list_elem_of_fmap in Hc as ([k c'] & -> & Hc).
  destruct (consistent_links _ Hs _ _ _ _ Hn Hc Hfk) as (r & referent & Hr & Href & _).
  exists r. split; [done |]. by eexists.
Qed.

End IntrospectionFacts.

(** C4 on the sample schema, the chunk of [t2] completing before the chunk
    of [tenant] and [t1]: the introspection completes, and the reverse maps
    hold the two foreign keys. *)
Lemma introspection_links_foreign_keys_sample :
  let cfg := sample_settings true 2 in
  match DbEntities.prepare_tables cfg sample_fetch_columns reverse sample_table_names
          sample_start with
  | (Ok _, s') =>
      (∀ n T k C,
          DbEntities.tables s' !! n = Some T →
          (k, C) ∈ DbEntities.DBTable.columns T →
          DbEntities.DBColumn.is_foreign_key C = true →
          ∃ r R,
            DbEntities.DBColumn.constraint_table C = Some r
            ∧ DbEntities.tables s' !! r = Some R
            ∧ k ∈ default ∅ (DbEntities.DBTable.revert_foreign_tables R
                              !! DbEntities.DBTable.name T))
      ∧ (DbEntities.DBTable.revert_foreign_tables <$> DbEntities.tables s' !! "t1")
        = Some {[ "t2" := {[ "t1_id" ]} ]}
      ∧ (DbEntities.DBTable.revert_foreign_tables <$> DbEntities.tables s' !! "tenant")
        = Some {[ "t1" := {[ "tenant_id" ]} ]}
  | (Raise _, _) => False
  end.
Proof.
  intros cfg.
  destruct (DbEntities.prepare_tables cfg sample_fetch_columns reverse sample_table_names
              sample_start) as [[[] | e] s'] eqn:Hrun.
  - destruct (introspection_links_foreign_keys cfg sample_fetch_columns reverse
                sample_table_names sample_start s' eq_refl Hrun) as [Hlinks _].
    split; [exact Hlinks |].
    vm_compute in Hrun. injection Hrun as <-. split; reflexivity.
  - vm_compute in Hrun. discriminate Hrun.
Defined.

(** ** [highest_priority_fk_columns] *)

Section PriorityFacts.

Import DbEntities.

Variable tables : gmap string DBTable.t.

Hypothesis closed : refs_closed tables.

Lemma filter_r_ok {A} (pred : A → result bool) (xs : list A) :
  (∀ x, x ∈ xs → ∃ b, pred x = Ok b) → ∃ l, filter_r pred xs = Ok l.
Proof.
  induction xs as [| x xs IH]; intros Hpred; simpl; [by eexists |].
  destruct (Hpred x) as [b ->]; [by left |].
  destruct IH as [l ->]; [intros y Hy; apply Hpred; by right |].
  simpl. by eexists.
Qed.

Lemma not_self_fk_columns_spec (self : DBTable.t) (c : DBColumn.t) :
  c ∈ DBTable.not_self_fk_columns self →
  c ∈ DBTable.values self ∧ DBColumn.is_foreign_key c = true.
Proof.
  unfold DBTable.not_self_fk_columns. rewrite list_elem_of_filter.
  intros [[H _]%andb_true_iff Hin]. done.
Qed.

Lemma unique_fk_columns_subseteq (self : DBTable.t) :
  DBTable.unique_fk_columns self ⊆ DBTable.not_self_fk_columns self.
Proof.
  intros c. unfold DBTable.unique_fk_columns. rewrite list_elem_of_filter. by intros [_ ?].
Qed.

(** In a closed schema the referent of a non-self foreign key can be read. *)
Lemma constraint_table_of_ok (n : string) (self : DBTable.t) (c : DBColumn.t) :
  tables !! n = Some self →
  c ∈ DBTable.not_self_fk_columns self →
  ∃ r referent, DBColumn.constraint_table c = Some r
                ∧ tables !! r = Some referent
                ∧ constraint_table_of tables c = Ok referent.
Proof.
  intros Hn [Hc Hfk]%not_self_fk_columns_spec.
  destruct (closed _ _ _ Hn Hc Hfk) as (r & Hr & [referent Href]).
  exists r, referent. unfold constraint_table_of. by rewrite Hr, Href.
Qed.

Lemma referent_with_key_column_ok (n : string) (self : DBTable.t) (c : DBColumn.t) :
  tables !! n = Some self →
  c ∈ DBTable.not_self_fk_columns self →
  ∃ b, referent_with_key_column tables c = Ok b.
Proof.
  intros Hn Hc.
  destruct (constraint_table_of_ok _ _ _ Hn Hc) as (r & referent & _ & _ & Hok).
  unfold referent_with_key_column. rewrite Hok. simpl. by eexists.
Qed.

Lemma fk_columns_with_key_column_ok (n : string) (self : DBTable.t) :
  tables !! n = Some self →
  ∃ direct, fk_columns_with_key_column tables self = Ok direct.
Proof.
  intros Hn. apply filter_r_ok. intros c Hc.
  by eapply referent_with_key_column_ok.
Qed.

Lemma columns_to_tables_with_fk_to_key_ok (n : string) (self : DBTable.t)
    (cols : list DBColumn.t) :
  tables !! n = Some self →
  cols ⊆ DBTable.not_self_fk_columns self →
  ∃ l, columns_to_tables_with_fk_to_key tables cols = Ok l.
Proof.
  intros Hn. induction cols as [| c cols IH]; intros Hsub; simpl; [by eexists |].
  destruct (constraint_table_of_ok n self c Hn) as (r & referent & _ & Hr & ->);
    [apply Hsub; by left |].
  simpl.
  destruct (filter_r_ok (referent_with_key_column tables)
              (DBTable.not_self_fk_columns referent)) as [hits ->].
  { intros cc Hcc. by eapply referent_with_key_column_ok. }
  destruct IH as [l ->]; [intros y Hy; apply Hsub; by right |].
  simpl. by eexists.
Qed.


End PriorityFacts.


(** ** [DstDatabase.truncate_tables] *)

(** C7.  With [IS_TRUNCATE_TABLES] the statements executed are the ones
    built for a list of names that holds exactly: the names of
    [TABLES_TRUNCATE_INCLUDED] when that is not empty, otherwise the
    discovered names outside [TABLES_WITH_GENERIC_FOREIGN_KEY]; in both cases
    without the names of [TABLES_TRUNCATE_EXCLUDED].  Without
    [IS_TRUNCATE_TABLES] no statement is executed. *)
Theorem truncate_tables_names (cfg : Settings.settings)
    (get_truncate_table_queries : list string → list string)
    (table_names : list string) :
  DbEntities.truncate_tables cfg get_truncate_table_queries table_names
  = (if Settings.IS_TRUNCATE_TABLES cfg
     then get_truncate_table_queries (DbEntities.truncate_table_names cfg table_names)
     else [])
  ∧ ∀ x, x ∈ DbEntities.truncate_table_names cfg table_names
         ↔ (match Settings.TABLES_TRUNCATE_INCLUDED cfg with
            | [] => x ∈ table_names
                    ∧ x ∉ Settings.TABLES_WITH_GENERIC_FOREIGN_KEY cfg
            | included => x ∈ included
            end)
           ∧ x ∉ Settings.TABLES_TRUNCATE_EXCLUDED cfg.
Proof.
  split; [done |]. intros x. unfold DbEntities.truncate_table_names.
  destruct (Settings.TABLES_TRUNCATE_EXCLUDED cfg) as [| e excl] eqn:He;
    destruct (Settings.TABLES_TRUNCATE_INCLUDED cfg) as [| i incl] eqn:Hi; simpl;
    rewrite ?list_elem_of_filter, ?elem_of_nil; tauto.
Qed.

(** ** [DBTable.set_max_sequence] *)

Section SequenceFacts.

Import DbEntities.

Variable fetch_serial_sequence : string → string → option (option string).

(** The one write of [set_max_sequence]: for a table whose primary key has
    the serial sequence [seq], the call is the [setval] of [seq] to
    [max_pk + 100000]. *)
Lemma set_max_sequence_serial (self : DBTable.t) (pk : DBColumn.t) (seq : string)
    (d : Destination) :
  DBTable.primary_key self = Some pk →
  fetch_serial_sequence (DBTable.name self) (DBColumn.name pk) = Some (Some seq) →
  seq ≠ "" →
  set_max_sequence fetch_serial_sequence self d
  = (Ok tt, {| sequences := <[seq := DBTable.max_pk self + 100000]> (sequences d);
               log := log d |}).
Proof.
  intros Hpk Hfetch Hseq. unfold set_max_sequence. rewrite Hpk, Hfetch.
  by destruct seq.
Qed.


(** Every task of the stage returns: the stage never raises on a non-empty
    list of tables. *)
Lemma run_sequence_tasks_ok (order : list DBTable.t) (d : Destination) :
  ∃ d', run_sequence_tasks fetch_serial_sequence order d = (Ok tt, d').
Proof.
  revert d. induction order as [| t order IH]; intros d; simpl.
  - by eexists.
  - unfold st_bind.
    assert (∃ d1, set_max_sequence fetch_serial_sequence t d = (Ok tt, d1)) as [d1 ->].
    { unfold set_max_sequence.
      destruct (DBTable.primary_key t); [| by eexists].
      destruct (fetch_serial_sequence _ _) as [[seq |] |]; try by eexists.
      destruct (Settings.truthy_str seq); by eexists. }
    apply IH.
Qed.

Lemma owns_dec (table : DBTable.t) (seq : string) :
  owns fetch_serial_sequence table seq ∨ ¬ owns fetch_serial_sequence table seq.
Proof.
  unfold owns. destruct (DBTable.primary_key table) as [pk |];
    [| right; by intros (pk & [=] & _)].
  destruct (decide (fetch_serial_sequence (DBTable.name table) (DBColumn.name pk)
                    = Some (Some seq))) as [He | Hne].
  - left. by exists pk.
  - right. intros (pk' & [= <-] & Hf). done.
Qed.

(** A task whose table does not own [seq] leaves [seq] alone. *)
Lemma set_max_sequence_frame (table : DBTable.t) (seq : string) (d d' : Destination) :
  ¬ owns fetch_serial_sequence table seq →
  set_max_sequence fetch_serial_sequence table d = (Ok tt, d') →
  sequences d' !! seq = sequences d !! seq.
Proof.
  intros Hnot. unfold set_max_sequence.
  destruct (DBTable.primary_key table) as [pk |] eqn:Hpk.
  - destruct (fetch_serial_sequence _ _) as [[s |] |] eqn:Hs; try (by intros [= <-]).
    destruct (Settings.truthy_str s); [| by intros [= <-]].
    intros [= <-]. simpl. apply lookup_insert_ne. intros ->.
    apply Hnot. by exists pk.
  - by intros [= <-].
Qed.


End SequenceFacts.



(** ** [Transporter._transfer_table_data] *)

Section TransporterFacts.

Import Storages Transporters.

Variable cfg : Settings.settings.
Variable Rows : Type.
Variable fetch_transfer :
  DbEntities.DBTable.t → list string → Rows → result (list string) * Rows.

(** Asking a store for its length changes nothing. *)
Lemma store_len_pure (store : Store) (w : World) :
  (store_len store w).2 = w.
Proof.
  destruct store as [sl | k sdt]; [done |].
  unfold store_len, sdt_len, st_bind, relation.
  destruct (_dst_db (cls_attrs k w)); [| done].
  by destruct (storage_data w).
Qed.

(** C9.  For a table without primary key [_transfer_table_data] issues no
    transfer statement and leaves the destination rows and the tables (so
    every [transferred_pks_count]) as they were; once the length of the
    store has been read for the first log record, it logs the warning and
    returns. *)
Theorem transfer_table_without_primary_key (fuel : nat) (table_name : string)
    (table : DbEntities.DBTable.t) (s : Transfer Rows) :
  dst_tables s !! table_name = Some table →
  DbEntities.DBTable.primary_key table = None →
  ∃ r s',
    _transfer_table_data cfg fetch_transfer fuel table_name s = Some (r, s')
    ∧ issued s' = issued s
    ∧ dst_rows s' = dst_rows s
    ∧ dst_tables s' = dst_tables s
    ∧ (∀ n w,
         store_len (DbEntities.DBTable.need_transfer_pks table) (store_world s)
         = (Ok n, w) →
         r = Ok tt
         ∧ logged s'
           = (logged s
              ++ [(INFO, "start transferring table " +:+ dquote
                         +:+ DbEntities.DBTable.name table +:+ dquote
                         +:+ ", need to import - " +:+ pretty n);
                  (WARNING, "table " +:+ DbEntities.DBTable.name table
                            +:+ " has no primary key")])%list).
Proof.
  intros Hlookup Hpk. unfold _transfer_table_data. rewrite Hlookup.
  unfold on_world.
  destruct (store_len (DbEntities.DBTable.need_transfer_pks table) (store_world s))
    as [[n | e] w1] eqn:Hlen.
  - simpl. rewrite Hpk. eexists _, _. split; [reflexivity |]. simpl.
    do 3 (split; [done |]).
    intros n' w' [= <- <-]. split; [done |]. by rewrite <- app_assoc.
  - eexists _, _. split; [reflexivity |]. simpl.
    do 3 (split; [done |]). discriminate.
Qed.

End TransporterFacts.

(** C9 on the sample transfer: the sample table has no primary key and its
    store holds two identifiers. *)
Lemma transfer_table_without_primary_key_sample :
  Transporters.dst_tables sample_transfer !! "orders" = Some sample_table
  ∧ DbEntities.DBTable.primary_key sample_table = None
  ∧ ∃ s',
      Transporters._transfer_table_data (sample_settings true 2)
        sample_fetch_transfer 5 "orders" sample_transfer = Some (Ok tt, s')
      ∧ Transporters.issued s' = []
      ∧ Transporters.dst_rows s' = ∅
      ∧ Transporters.dst_tables s' = Transporters.dst_tables sample_transfer
      ∧ Transporters.logged s'
        = [(INFO, "start transferring table " +:+ Transporters.dquote +:+ "orders"
                  +:+ Transporters.dquote +:+ ", need to import - 2");
           (WARNING, "table orders has no primary key")].
Proof.
  split; [reflexivity |]. split; [reflexivity |].
  destruct (transfer_table_without_primary_key (sample_settings true 2)
              (gset string) sample_fetch_transfer 5 "orders" sample_table
              sample_transfer eq_refl eq_refl)
    as (r & s' & Hrun & Hissued & Hrows & Htables & Hlog).
  destruct (Hlog 2 sample_world eq_refl) as [-> Hlogged].
  exists s'. by repeat split.
Defined.

(** * Further properties *)

(** ** [make_chunks] *)

Section ChunkFacts.

Context {A : Type}.

Implicit Types (l : list A) (size fuel : nat).

Lemma chunks_go_nil fuel size : Helpers.chunks_go fuel size (@nil A) = [].
Proof. by destruct fuel. Qed.

(** Fuel beyond the length of the list changes nothing. *)
Lemma chunks_go_fuel fuel fuel' size l :
  (0 < size)%nat → (length l ≤ fuel)%nat → (length l ≤ fuel')%nat →
  Helpers.chunks_go fuel size l = Helpers.chunks_go fuel' size l.
Proof.
  intros Hsize. revert fuel' l.
  induction fuel as [| fuel IH]; intros fuel' l H1 H2.
  - destruct l; [| simpl in H1; lia]. by rewrite !chunks_go_nil.
  - destruct l as [| x l]; [by rewrite !chunks_go_nil |].
    destruct fuel' as [| fuel']; [simpl in H2; lia |].
    simpl. f_equal. destruct size as [| size]; [lia |]. simpl.
    apply IH; rewrite length_drop; simpl in *; lia.
Qed.

Lemma chunks_go_concat fuel size l :
  (0 < size)%nat → (length l ≤ fuel)%nat →
  concat (Helpers.chunks_go fuel size l) = l.
Proof.
  intros Hsize. revert l. induction fuel as [| fuel IH]; intros l Hl.
  - destruct l; [done | simpl in Hl; lia].
  - destruct l as [| x l]; [done |].
    cbn [Helpers.chunks_go concat]. rewrite IH.
    + apply take_drop.
    + destruct size as [| size]; [lia |]. simpl. rewrite length_drop. simpl in Hl. lia.
Qed.

Lemma chunks_go_sizes fuel size l :
  (0 < size)%nat →
  Forall (λ c, c ≠ [] ∧ (length c ≤ size)%nat) (Helpers.chunks_go fuel size l).
Proof.
  intros Hsize. revert l. induction fuel as [| fuel IH]; intros l; [constructor |].
  destruct l as [| x l]; [constructor |].
  cbn [Helpers.chunks_go]. constructor; [| apply IH].
  split.
  - destruct size; [lia | done].
  - rewrite length_take. lia.
Qed.

(** The chunk at index [i] is the slice of the list that starts at
    [i * size]. *)
Lemma chunks_go_lookup fuel size l i c :
  (0 < size)%nat → (length l ≤ fuel)%nat →
  Helpers.chunks_go fuel size l !! i = Some c →
  c = take size (drop (i * size) l) ∧ (i * size < length l)%nat.
Proof.
  intros Hsize. revert l i. induction fuel as [| fuel IH]; intros l i Hl; [done |].
  destruct l as [| x l]; [done |]. cbn [Helpers.chunks_go].
  destruct i as [| i].
  - intros [= <-]. simpl. split; [done | lia].
  - cbn [lookup list_lookup]. intros Hc.
    apply IH in Hc as [-> Hlt].
    + rewrite drop_drop. rewrite length_drop in Hlt.
      replace (size + i * size)%nat with (S i * size)%nat by lia.
      split; [done | lia].
    + destruct size as [| size]; [lia |]. simpl. rewrite length_drop. simpl in Hl. lia.
Qed.

Lemma chunks_go_length fuel size l :
  (0 < size)%nat → (length l ≤ fuel)%nat →
  (length (Helpers.chunks_go fuel size l) * size < length l + size)%nat
  ∧ (length l ≤ length (Helpers.chunks_go fuel size l) * size)%nat.
Proof.
  intros Hsize. revert l. induction fuel as [| fuel IH]; intros l Hl.
  - destruct l; simpl in *; lia.
  - destruct l as [| x l]; [simpl; lia |]. cbn [Helpers.chunks_go length].
    destruct size as [| size]; [lia |].
    specialize (IH (drop (S size) (x :: l))).
    rewrite length_drop in IH. cbn [length] in *.
    destruct IH as [IH1 IH2]; [lia |].
    set (n := length (Helpers.chunks_go _ _ _)) in *. clearbody n.
    destruct n as [| n]; rewrite ?Nat.mul_succ_l in *; lia.
Qed.

End ChunkFacts.

(** With a positive size [make_chunks] returns; its chunks put together are
    the iterable, and none is empty or longer than the size. *)
Lemma make_chunks_positive {A} (iterable : list A) (size : Z) :
  0 < size →
  ∃ chunks,
    Helpers.make_chunks iterable size = Ok chunks
    ∧ concat chunks = iterable
    ∧ Forall (λ c, c ≠ [] ∧ (length c ≤ Z.to_nat size)%nat) chunks.
Proof.
  intros Hsize. unfold Helpers.make_chunks.
  assert (0 < Z.to_nat size)%nat as Hpos by lia.
  destruct iterable as [| x l] eqn:Hl.
  { exists []. by repeat split. }
  rewrite <- Hl. destruct (size <=? 0) eqn:Hle; [lia |].
  eexists. split; [reflexivity |]. split.
  - by apply chunks_go_concat.
  - by apply chunks_go_sizes.
Qed.



(** ** Paging through a scratch store *)

Section PagingFacts.

Import Storages.

Variable cfg : Settings.settings.

(** A paging loop whose pages are cut from one fixed list of rows yields the
    chunks of that list. *)
Lemma get_iter_stable {S} (fetch : Z → st S (list string)) (rows : list string)
    (cs : Z) (s : S) :
  0 < cs →
  (∀ step, 0 ≤ step →
     fetch step s
     = (Ok (take (Z.to_nat cs) (drop (Z.to_nat (cs * step)) rows)), s)) →
  ∀ fuel step, 0 ≤ step →
    (length rows - Z.to_nat (cs * step) < fuel)%nat →
    get_iter fuel fetch step s
    = Some (Ok (Helpers.chunks_go fuel (Z.to_nat cs)
                  (drop (Z.to_nat (cs * step)) rows)), s).
Proof.
  intros Hcs Hfetch. induction fuel as [| fuel IH]; intros step Hstep Hfuel; [lia |].
  cbn [get_iter]. rewrite Hfetch by done.
  destruct (drop (Z.to_nat (cs * step)) rows) as [| x rest] eqn:Hdrop.
  { by rewrite take_nil. }
  assert (Z.to_nat (cs * step) < length rows)%nat as Hlt.
  { destruct (decide (Z.to_nat (cs * step) < length rows)%nat); [done |].
    rewrite drop_ge in Hdrop by lia. done. }
  destruct (take (Z.to_nat cs) (x :: rest)) as [| y page] eqn:Htake.
  { apply (f_equal length) in Htake. rewrite length_take in Htake.
    simpl in Htake. lia. }
  rewrite IH; [| lia |].
  - cbn [Helpers.chunks_go]. rewrite Htake. do 4 f_equal.
    rewrite <- Hdrop, drop_drop.
    replace (cs * (step + 1)) with (cs * step + cs) by lia.
    rewrite Z2Nat.inj_add by nia. done.
  - replace (cs * (step + 1)) with (cs * step + cs) by lia.
    rewrite Z2Nat.inj_add by lia. lia.
Qed.

Lemma sdt_aiter_get_iter (fuel : nat) (k : sdt_class) (self : StorageDataTable)
    (step : Z) (w : World) :
  sdt_aiter cfg fuel k self step w = get_iter fuel (fetch_page cfg k self) step w.
Proof.
  revert step w. induction fuel as [| fuel IH]; intros step w; [done |].
  cbn [sdt_aiter get_iter].
  destruct (fetch_page cfg k self step w) as [[[| x page] | e] w1]; try done.
  by rewrite IH.
Qed.

Lemma fetch_page_ok (k : sdt_class) (self : StorageDataTable) (step : Z)
    (w : World) (r : gset (Z * string)) :
  _dst_db (cls_attrs k w) = true → storage_data w = Some r →
  0 ≤ chunk_size_of cfg k → 0 ≤ step →
  fetch_page cfg k self step w
  = (Ok (take (Z.to_nat (chunk_size_of cfg k))
           (drop (Z.to_nat (chunk_size_of cfg k * step))
              (ordered (group_data r (_group self))))), w).
Proof.
  intros Hdb Hr Hcs Hstep.
  unfold fetch_page, st_bind, st_lift, relation, limit_offset.
  rewrite Hdb, Hr.
  destruct (chunk_size_of cfg k <? 0) eqn:H1; [lia |].
  destruct (chunk_size_of cfg k * step <? 0) eqn:H2; [nia | done].
Qed.

Lemma fetch_difference_page_ok (k : sdt_class) (self other : StorageDataTable)
    (step : Z) (w : World) (r : gset (Z * string)) :
  _dst_db (cls_attrs k w) = true → storage_data w = Some r →
  0 ≤ chunk_size_of cfg k → 0 ≤ step →
  fetch_difference_page cfg k self other step w
  = (Ok (take (Z.to_nat (chunk_size_of cfg k))
           (drop (Z.to_nat (chunk_size_of cfg k * step))
              (ordered (group_data r (_group self) ∖ group_data r (_group other))))),
     w).
Proof.
  intros Hdb Hr Hcs Hstep.
  unfold fetch_difference_page, st_bind, st_lift, relation, limit_offset.
  rewrite Hdb, Hr.
  destruct (chunk_size_of cfg k <? 0) eqn:H1; [lia |].
  destruct (chunk_size_of cfg k * step <? 0) eqn:H2; [nia | done].
Qed.

Lemma NoDup_ordered (s : gset string) : NoDup (ordered s).
Proof. unfold ordered. rewrite merge_sort_Permutation. apply NoDup_elements. Qed.

Lemma ordered_Permutation (s : gset string) : ordered s ≡ₚ elements s.
Proof. unfold ordered. apply merge_sort_Permutation. Qed.

(** A loop over the pages of an ordered set, from the first page on. *)
Lemma get_iter_ordered (fuel : nat) (fetch : Z → st World (list string))
    (ids : gset string) (cs : Z) (w : World) :
  0 < cs →
  (size ids < fuel)%nat →
  (∀ step, 0 ≤ step →
     fetch step w
     = (Ok (take (Z.to_nat cs) (drop (Z.to_nat (cs * step)) (ordered ids))), w)) →
  ∃ chunks,
    get_iter fuel fetch 0 w = Some (Ok chunks, w)
    ∧ Helpers.make_chunks (ordered ids) cs = Ok chunks
    ∧ concat chunks = ordered ids
    ∧ Forall (λ c, c ≠ [] ∧ (length c ≤ Z.to_nat cs)%nat) chunks.
Proof.
  intros Hcs Hfuel Hfetch.
  assert (0 < Z.to_nat cs)%nat as Hpos by lia.
  rewrite (get_iter_stable fetch (ordered ids) cs w Hcs Hfetch) by
    (rewrite ?length_ordered; lia).
  replace (Z.to_nat (cs * 0)) with 0%nat by lia. rewrite drop_0.
  eexists. split; [reflexivity |]. split; [| split].
  - unfold Helpers.make_chunks. destruct (ordered ids) eqn:Ho.
    + by rewrite chunks_go_nil.
    + rewrite <- Ho. destruct (cs <=? 0) eqn:Hle; [lia |]. f_equal.
      apply chunks_go_fuel; rewrite ?length_ordered; lia.
  - apply chunks_go_concat; rewrite ?length_ordered; lia.
  - by apply chunks_go_sizes.
Qed.

End PagingFacts.

Section IterationFacts.

Import Storages.

Variable cfg : Settings.settings.


(** With a chunk size of zero the two kinds of store part ways on a
    non-empty store: the query of the scratch store returns an empty first
    page, so the iteration ends without a chunk and without an error; the
    in-memory store raises. *)
Theorem store_aiter_chunk_size_zero (store : Store) (w : World) :
  usable store w →
  store_chunk_size cfg store = 0 →
  stored_ids store w ≠ ∅ →
  store_aiter cfg 1 store w
  = Some (match store with
          | StorageDataTable_obj _ _ => Ok []
          | StorageList_obj _ =>
              Raise (ValueError "Stop argument for islice() must be None or an integer")
          end, w).
Proof.
  destruct store as [sl | k sdt];
    cbn [store_aiter stored_ids usable store_chunk_size].
  - intros _ Hcs Hne. unfold sl_aiter, Helpers.make_chunks. rewrite Hcs.
    destruct (elements (_storage sl)) eqn:Hl; [| done].
    by apply elements_empty_inv, leibniz_equiv in Hl.
  - intros [Hdb [r Hr]] Hcs _. cbn [sdt_aiter].
    rewrite (fetch_page_ok cfg k sdt 0 w r) by (done || lia).
    by rewrite Hcs.
Qed.

End IterationFacts.


(** On the sample world with a chunk size of zero. *)
Lemma store_aiter_chunk_size_zero_sample :
  Storages.store_aiter (sample_settings true 0) 1 sample_scratch_store sample_world
  = Some (Ok [], sample_world).
Proof.
  apply (store_aiter_chunk_size_zero (sample_settings true 0) sample_scratch_store
           sample_world).
  - split; [reflexivity | by eexists].
  - reflexivity.
  - intros Hempty. assert ("5" ∈ (∅ : gset string)) as Hin; [| by apply elem_of_empty in Hin].
    rewrite <- Hempty. simpl. apply elem_of_group_data. set_solver.
Defined.

(** ** What [insert] and [add_storage_data] store *)

Section InsertFacts.

Import Storages.

Variable cfg : Settings.settings.

(** The rows of a group after an [insert]. *)
Lemma sdt_insert_stored (k : sdt_class) (self : StorageDataTable) (data : list pk)
    (w w' : World) (ko : sdt_class) (other : StorageDataTable) :
  sdt_insert k self data w = (Ok tt, w') →
  stored_ids (StorageDataTable_obj ko other) w'
  = stored_ids (StorageDataTable_obj ko other) w
    ∪ (if decide (_group other = _group self)
       then list_to_set (str <$> data) else ∅).
Proof.
  unfold sdt_insert. destruct data as [| i data].
  { intros [= <-]. simpl. destruct (decide _); by rewrite union_empty_r_L. }
  unfold st_bind, relation.
  destruct (_dst_db (cls_attrs k w)); [| discriminate].
  destruct (storage_data w) as [r |] eqn:Hr; [| discriminate].
  intros [= <-]. cbn [stored_ids storage_data set_storage_data]. rewrite Hr.
  rewrite group_data_union. f_equal.
  apply set_eq. intros x. rewrite elem_of_group_data, elem_of_insert_rows.
  destruct (decide (_group other = _group self)) as [Heq | Hne].
  - rewrite elem_of_list_to_set. tauto.
  - rewrite elem_of_empty. tauto.
Qed.

Lemma sdt_insert_cls (k : sdt_class) (self : StorageDataTable) (data : list pk)
    (w : World) :
  storages_cls (sdt_insert k self data w).2 = storages_cls w
  ∧ entities_cls (sdt_insert k self data w).2 = entities_cls w
  ∧ (is_Some (storage_data w) → is_Some (storage_data (sdt_insert k self data w).2)).
Proof.
  unfold sdt_insert. destruct data as [| i data]; [done |].
  unfold st_bind, relation.
  destruct (_dst_db (cls_attrs k w)); [| done].
  destruct (storage_data w) as [r |] eqn:Hr; [| done].
  simpl. by repeat split.
Qed.


End InsertFacts.


Section CopyFacts.

Import Storages.

Variable cfg : Settings.settings.

Lemma stored_ids_rows_of (k : sdt_class) (self : StorageDataTable) (w : World) :
  stored_ids (StorageDataTable_obj k self) w = list_to_set (rows_of self w).
Proof.
  unfold rows_of. simpl. destruct (storage_data w) as [r |]; [| done].
  apply set_eq. intros x. by rewrite elem_of_list_to_set, elem_of_ordered.
Qed.

(** The loop of [add_storage_data] between scratch stores, from the page at
    [step] on: what it adds to the group of [self] is what the remaining
    pages of [other] hold. *)
Lemma sdt_add_storage_data_stored (fuel : nat) (k : sdt_class)
    (self : StorageDataTable) (ko : sdt_class) (other : StorageDataTable)
    (step : Z) (w w' : World) (kt : sdt_class) (third : StorageDataTable) :
  0 < chunk_size_of cfg ko → 0 ≤ step →
  sdt_add_storage_data cfg fuel k self ko other step w = Some (Ok tt, w') →
  stored_ids (StorageDataTable_obj kt third) w'
  = stored_ids (StorageDataTable_obj kt third) w
    ∪ (if decide (_group third = _group self)
       then list_to_set (drop (Z.to_nat (chunk_size_of cfg ko * step)) (rows_of other w))
       else ∅).
Proof.
  intros Hcs. revert step w.
  induction fuel as [| fuel IH]; intros step w Hstep; [done |].
  cbn [sdt_add_storage_data].
  destruct (fetch_page cfg ko other step w) as [[page | e] w1] eqn:Hpage;
    [| discriminate].
  apply fetch_page_inv in Hpage as (-> & _ & Hoff & Hpage).
  set (off := Z.to_nat (chunk_size_of cfg ko * step)) in *.
  destruct page as [| x page].
  - intros [= <-].
    assert (drop off (rows_of other w) = []) as ->.
    { destruct (drop off (rows_of other w)) as [| y rest]; [done |].
      apply (f_equal length) in Hpage. rewrite length_take in Hpage.
      simpl in Hpage. lia. }
    simpl. destruct (decide _); by rewrite union_empty_r_L.
  - destruct (sdt_insert k self (PkStr <$> x :: page) w) as [[[] | e] w2] eqn:Hins;
      [| discriminate].
    intros Hrest.
    assert (x :: page ⊆ rows_of other w) as Hsub.
    { rewrite Hpage. etrans; [apply sublist_subseteq, sublist_take |].
      apply sublist_subseteq, sublist_drop. }
    pose proof (insert_page_keeps_rows k self other (x :: page) w w2 Hsub Hins) as Hrows.
    apply IH in Hrest; [| lia]. rewrite Hrest, Hrows.
    rewrite (sdt_insert_stored k self _ w w2 kt third Hins).
    rewrite <- (assoc_L (∪)). f_equal.
    destruct (decide (_group third = _group self)); [| by rewrite union_empty_r_L].
    rewrite <- list_fmap_compose.
    replace (str ∘ PkStr) with (@id string) by done. rewrite list_fmap_id.
    replace (Z.to_nat (chunk_size_of cfg ko * (step + 1)))
      with (off + Z.to_nat (chunk_size_of cfg ko))%nat by (unfold off; nia).
    rewrite <- drop_drop, Hpage.
    by rewrite <- list_to_set_app_L, take_drop.
Qed.

Lemma sdt_insert_chunks_stored (k : sdt_class) (self : StorageDataTable)
    (chunks : list (list string)) (w w' : World) (kt : sdt_class)
    (third : StorageDataTable) :
  sdt_insert_chunks k self chunks w = (Ok tt, w') →
  stored_ids (StorageDataTable_obj kt third) w'
  = stored_ids (StorageDataTable_obj kt third) w
    ∪ (if decide (_group third = _group self)
       then list_to_set (concat chunks) else ∅).
Proof.
  revert w. induction chunks as [| chunk chunks IH]; intros w.
  - intros [= <-]. simpl. destruct (decide _); by rewrite union_empty_r_L.
  - cbn [sdt_insert_chunks]. unfold st_bind.
    destruct (sdt_insert k self (PkStr <$> chunk) w) as [[[] | e] w1] eqn:Hins;
      [| discriminate].
    intros Hrest. apply IH in Hrest. rewrite Hrest.
    rewrite (sdt_insert_stored k self _ w w1 kt third Hins).
    rewrite <- (assoc_L (∪)). f_equal.
    destruct (decide (_group third = _group self)); [| by rewrite union_empty_r_L].
    rewrite <- list_fmap_compose.
    replace (str ∘ PkStr) with (@id string) by done. rewrite list_fmap_id.
    simpl. by rewrite list_to_set_app_L.
Qed.


End CopyFacts.


(** ** [iter_difference] *)

Section DifferenceFacts.

Import Storages.

Variable cfg : Settings.settings.


End DifferenceFacts.


(** ** The two kinds of store behave alike *)

Section VariantFacts.

Import Storages.

Lemma sdt_insert_ok (k : sdt_class) (self : StorageDataTable) (data : list pk)
    (w : World) :
  usable (StorageDataTable_obj k self) w →
  ∃ w', sdt_insert k self data w = (Ok tt, w')
        ∧ usable (StorageDataTable_obj k self) w'.
Proof.
  intros [Hdb [r Hr]]. unfold sdt_insert.
  destruct data as [| i data]; [by exists w; repeat split; eauto |].
  unfold st_bind, relation. rewrite Hdb, Hr.
  eexists. split; [reflexivity |]. split; [by destruct k | by eexists].
Qed.

(** What a scratch store that holds the identifiers of an in-memory store
    answers: the same length, the same [is_not_empty], and the same
    identifiers from [all], up to their order. *)
Lemma same_contents_same_answers (sl : StorageList) (k : sdt_class)
    (sdt : StorageDataTable) (w : World) :
  usable (StorageDataTable_obj k sdt) w →
  have_value_coherent (StorageDataTable_obj k sdt) w →
  _storage sl = stored_ids (StorageDataTable_obj k sdt) w →
  (∃ n, store_len (StorageDataTable_obj k sdt) w = (Ok n, w)
        ∧ store_len (StorageList_obj sl) w = (Ok n, w))
  ∧ (∃ b sdt', store_is_not_empty (StorageDataTable_obj k sdt) w
               = (Ok (b, StorageDataTable_obj k sdt'), w)
               ∧ store_is_not_empty (StorageList_obj sl) w
                 = (Ok (b, StorageList_obj sl), w))
  ∧ (∃ ids ids', store_all (StorageDataTable_obj k sdt) w = (Ok ids, w)
                 ∧ store_all (StorageList_obj sl) w = (Ok ids', w)
                 ∧ ids ≡ₚ ids').
Proof.
  intros [Hdb [r Hr]] Hcoh Hsame. unfold have_value_coherent in Hcoh.
  cbn [stored_ids] in Hsame, Hcoh. rewrite Hr in Hsame, Hcoh.
  split; [| split].
  - unfold store_len, sdt_len, sl_len, st_bind, relation, st_ret.
    rewrite Hdb, Hr, Hsame. by eexists.
  - unfold store_is_not_empty, sdt_is_not_empty, sl_is_not_empty, st_bind, relation,
      st_ret.
    destruct (_have_value sdt) eqn:Hv.
    + exists true, sdt. split; [done |]. rewrite Hsame.
      by rewrite bool_decide_eq_true_2 by auto.
    + rewrite Hdb, Hr, Hsame. by eexists _, _.
  - unfold store_all, sdt_all, sl_all, st_bind, relation, st_ret.
    rewrite Hdb, Hr, Hsame. eexists _, _. split; [done |]. split; [done |].
    apply ordered_Permutation.
Qed.


End VariantFacts.


(** ** The remembered answer of [is_not_empty] *)

Section HaveValueFacts.

Import Storages.

Variable cfg : Settings.settings.

(** A call on a scratch store removes no row of its group unless it is
    [delete], and leaves the object as it was unless it is [delete] or
    [is_not_empty]. *)
Lemma run_call_coherent (fuel : nat) (call : store_call) (store : Store)
    (w : World) (r : result Store) (w' : World) :
  declared_in_storages_py store →
  have_value_coherent store w →
  run_call cfg fuel call store w = Some (r, w') →
  let store' := match r with Ok store' => store' | Raise _ => store end in
  declared_in_storages_py store' ∧ have_value_coherent store' w'.
Proof.
  intros Hdecl Hcoh.
  destruct store as [sl | k sdt].
  { (* an in-memory store stays one *)
    destruct call as [data | other | | |]; cbn [run_call].
    - unfold store_insert. destruct data; intros [= <- <-]; done.
    - unfold store_add_storage_data. destruct other; intros [= <- <-]; done.
    - intros [= <- <-]. done.
    - intros [= <- <-]. done.
    - intros [= <- <-]. done. }
  cbn [declared_in_storages_py] in Hdecl. subst k.
  assert (∀ w1, stored_ids (StorageDataTable_obj InStorages sdt) w
                ⊆ stored_ids (StorageDataTable_obj InStorages sdt) w1 →
                have_value_coherent (StorageDataTable_obj InStorages sdt) w1) as Hgrow.
  { intros w1 Hsub Hv Hempty. apply (Hcoh Hv). rewrite Hempty in Hsub.
    apply set_eq. intros x. split; [apply Hsub | intros H; by apply elem_of_empty in H]. }
  destruct call as [data | other | | |]; cbn [run_call].
  - unfold store_insert. destruct data as [data | s]; [| by intros [= <- <-]].
    unfold st_bind.
    pose proof (sdt_insert_grows InStorages sdt data w
                  (StorageDataTable_obj InStorages sdt)) as Hsub.
    destruct (sdt_insert InStorages sdt data w) as [[[] | e] w1];
      intros [= <- <-]; split; try done; by apply Hgrow.
  - unfold store_add_storage_data. destruct other as [ol | ko osdt].
    + destruct (sl_aiter cfg ol) as [chunks | e]; [| by intros [= <- <-]].
      pose proof (sdt_insert_chunks_grows InStorages sdt chunks w
                    (StorageDataTable_obj InStorages sdt)) as Hsub.
      destruct (sdt_insert_chunks InStorages sdt chunks w) as [[[] | e] w1];
        intros [= <- <-]; split; try done; by apply Hgrow.
    + destruct (sdt_add_storage_data cfg fuel InStorages sdt ko osdt 0 w)
        as [[[[] | e] w1] |] eqn:Hloop; [| | done];
        intros [= <- <-]; (split; [done |]); apply Hgrow;
        eapply (sdt_add_storage_data_grows cfg fuel InStorages sdt ko osdt 0 w);
        exact Hloop.
  - unfold store_delete, sdt_delete, st_bind, relation.
    destruct (_dst_db (cls_attrs InStorages w)); [| by intros [= <- <-]].
    destruct (storage_data w) as [rows |]; [| by intros [= <- <-]].
    intros [= <- <-]. split; [done |]. intros Hv. discriminate Hv.
  - unfold store_is_not_empty, sdt_is_not_empty.
    destruct (_have_value sdt) eqn:Hv.
    + unfold st_bind, st_ret. intros [= <- <-]. done.
    + unfold st_bind, relation, st_ret.
      destruct (_dst_db (cls_attrs InStorages w)); [| by intros [= <- <-]].
      destruct (storage_data w) as [rows |] eqn:Hrows; [| by intros [= <- <-]].
      intros [= <- <-]. split; [done |].
      intros Hexist. cbn [_have_value] in Hexist.
      apply bool_decide_eq_true in Hexist. cbn [stored_ids _group]. by rewrite Hrows.
  - pose proof (store_len_pure (StorageDataTable_obj InStorages sdt) w) as Hpure.
    destruct (store_len _ w) as [[n | e] w1]; simpl in Hpure; subst w1;
      by intros [= <- <-].
Qed.

(** For the store classes of storages.py the remembered answer stays right
    along every sequence of [insert], [add_storage_data], [delete],
    [is_not_empty] and [len] calls on the store, so [is_not_empty] answers
    whether the store holds an identifier. *)
Theorem is_not_empty_stays_right (before after : Store * World) :
  declared_in_storages_py before.1 →
  have_value_coherent before.1 before.2 →
  rtc (store_step cfg) before after →
  have_value_coherent after.1 after.2
  ∧ ∀ b store' w', store_is_not_empty after.1 after.2 = (Ok (b, store'), w') →
      b = bool_decide (stored_ids after.1 after.2 ≠ ∅).
Proof.
  intros Hdecl Hcoh Hrun.
  assert (declared_in_storages_py after.1 ∧ have_value_coherent after.1 after.2)
    as [Hdecl' Hcoh'].
  { induction Hrun as [| x y z Hstep _ IH]; [done |].
    apply IH;
      destruct Hstep as [fuel call store w store' w' Hcall | fuel call store w e w' Hcall];
      by destruct (run_call_coherent fuel call store w _ w' Hdecl Hcoh Hcall). }
  split; [done |].
  destruct after as [store w]. cbn [fst snd] in *.
  intros b store' w'. destruct store as [sl | k sdt].
  - by intros [= <- _ _].
  - unfold store_is_not_empty, sdt_is_not_empty.
    destruct (_have_value sdt) eqn:Hv.
    + unfold st_bind, st_ret. intros [= <- _ _].
      symmetry. apply bool_decide_eq_true_2. by apply Hcoh'.
    + unfold st_bind, relation, st_ret.
      destruct (_dst_db (cls_attrs k w)); [| discriminate].
      destruct (storage_data w) as [rows |] eqn:Hrows; [| discriminate].
      intros [= <- _ _]. cbn [stored_ids]. by rewrite Hrows.
Qed.

End HaveValueFacts.

(** On the sample world: the store of group 1 with a remembered positive
    answer, after [delete] and an [insert], answers [True]; after the
    [delete] alone it answers [False]. *)
Lemma is_not_empty_stays_right_sample :
  let cfg := sample_settings true 2 in
  ∃ store1 w1 store2 w2,
    Storages.store_delete sample_scratch_store sample_world = (Ok store1, w1)
    ∧ Storages.store_insert store1 (Storages.ArgIterable [Storages.PkInt 3]) w1
      = (Ok store2, w2)
    ∧ (Storages.store_is_not_empty store1 w1).1 = Ok (false, store1)
    ∧ ∀ b store' w', Storages.store_is_not_empty store2 w2 = (Ok (b, store'), w') →
        b = bool_decide (Storages.stored_ids store2 w2 ≠ ∅).
Proof.
  intros cfg.
  destruct (Storages.store_delete sample_scratch_store sample_world)
    as [[store1 | e1] w1] eqn:H1; [| vm_compute in H1; discriminate H1].
  destruct (Storages.store_insert store1 (Storages.ArgIterable [Storages.PkInt 3]) w1)
    as [[store2 | e2] w2] eqn:H2;
    [| vm_compute in H1; injection H1 as <- <-; vm_compute in H2; discriminate H2].
  exists store1, w1, store2, w2. split; [done |]. split; [done |]. split.
  { vm_compute in H1. injection H1 as <- <-. reflexivity. }
  apply (is_not_empty_stays_right cfg (sample_scratch_store, sample_world) (store2, w2)).
  - reflexivity.
  - intros _ Hempty.
    assert ("5" ∈ (∅ : gset string)) as Hin; [| by apply elem_of_empty in Hin].
    rewrite <- Hempty. simpl. apply elem_of_group_data.
    rewrite !elem_of_union, !elem_of_singleton. auto.
  - eapply rtc_l;
      [eapply (store_step_ok cfg 0 Call_delete); cbn [run_call]; by rewrite H1 |].
    eapply rtc_once.
    eapply (store_step_ok cfg 0 (Call_insert (Storages.ArgIterable [Storages.PkInt 3])));
      cbn [run_call]; by rewrite H2.
Defined.

(** ** What a loaded settings module guarantees *)

Section LoadFacts.

Import Settings.

Variable py_int : string → option Z.
Variable strtobool : string → option bool.
Variable LogLevelEnum_INFO : string.

Lemma truthy_str_spec (s : string) : truthy_str s = true ↔ s ≠ "".
Proof. destruct s; simpl; split; (done || intros; done). Qed.

Lemma truthy_seq_spec {A} (l : list A) : truthy_seq l = true ↔ l ≠ [].
Proof. destruct l; simpl; split; (done || intros; done). Qed.

(** The settings module loads only when at least one of the thirteen
    required values is there, and that is all its check asks for. *)
Theorem load_settings_guarantee (environ : gmap string string) (s : settings) :
  load_settings py_int strtobool LogLevelEnum_INFO environ = Ok s →
  SRC_DB_HOST s ≠ "" ∨ SRC_DB_PORT s ≠ "" ∨ SRC_DB_NAME s ≠ ""
  ∨ SRC_DB_USER s ≠ "" ∨ SRC_DB_PASSWORD s ≠ ""
  ∨ DST_DB_HOST s ≠ "" ∨ DST_DB_PORT s ≠ "" ∨ DST_DB_NAME s ≠ ""
  ∨ DST_DB_USER s ≠ "" ∨ DST_DB_PASSWORD s ≠ ""
  ∨ KEY_TABLE_NAME s ≠ "" ∨ KEY_COLUMN_NAMES s ≠ [] ∨ KEY_COLUMN_VALUES s ≠ [].
Proof.
  unfold load_settings.
  repeat match goal with
         | |- mbind _ ?m = Ok _ → _ =>
             let x := fresh "x" in
             destruct m as [x | ?] eqn:?; [cbn [mbind result_bind] | discriminate]
         end.
  intros [= <-]. cbn [SRC_DB_HOST SRC_DB_PORT SRC_DB_NAME SRC_DB_USER SRC_DB_PASSWORD
    DST_DB_HOST DST_DB_PORT DST_DB_NAME DST_DB_USER DST_DB_PASSWORD
    KEY_TABLE_NAME KEY_COLUMN_NAMES KEY_COLUMN_VALUES].
  match goal with
  | H : check_required ?truths = Ok _ |- _ =>
      unfold check_required in H;
      destruct (existsb id truths) eqn:E; [clear H | discriminate H]
  end.
  unfold required_truths in E. cbn [existsb id] in E.
  repeat (apply orb_true_iff in E as [E | E]);
    try (apply truthy_str_spec in E); try (apply truthy_seq_spec in E);
    try discriminate E; tauto.
Qed.

End LoadFacts.

(** The environment that sets the source host alone loads, and the host is
    the required value that is there. *)
Lemma load_settings_guarantee_sample :
  ∃ s, Settings.load_settings (λ _, None) (λ _, None) "INFO" environ_src_host_only = Ok s
       ∧ (Settings.SRC_DB_HOST s ≠ "" ∨ Settings.SRC_DB_PORT s ≠ ""
          ∨ Settings.SRC_DB_NAME s ≠ "" ∨ Settings.SRC_DB_USER s ≠ ""
          ∨ Settings.SRC_DB_PASSWORD s ≠ "" ∨ Settings.DST_DB_HOST s ≠ ""
          ∨ Settings.DST_DB_PORT s ≠ "" ∨ Settings.DST_DB_NAME s ≠ ""
          ∨ Settings.DST_DB_USER s ≠ "" ∨ Settings.DST_DB_PASSWORD s ≠ ""
          ∨ Settings.KEY_TABLE_NAME s ≠ "" ∨ Settings.KEY_COLUMN_NAMES s ≠ []
          ∨ Settings.KEY_COLUMN_VALUES s ≠ []).
Proof.
  destruct (Settings.load_settings (λ _, None) (λ _, None) "INFO" environ_src_host_only)
    as [s | e] eqn:Hload; [| vm_compute in Hload; discriminate Hload].
  exists s. split; [done |].
  exact (load_settings_guarantee (λ _, None) (λ _, None) "INFO"
           environ_src_host_only s Hload).
Defined.

(** ** The two executors form the same groups of tasks *)

Section ExecutorFacts.

Import Helpers.

Variable cfg : Settings.settings.

Context {T : Type}.

Implicit Types (args coroutines : list T).

Let coefficient := Settings.ASYNC_SEPARATION_COEFFICIENT cfg.

(** Without a positive coefficient nothing is awaited before the end. *)
Lemma collect_tasks_unbounded args coroutines :
  coefficient ≤ 0 →
  collect_tasks cfg args coroutines
  = if Settings.truthy_seq (coroutines ++ args) then [(coroutines ++ args)%list] else [].
Proof.
  intros Hle. revert coroutines.
  induction args as [| i rest IH]; intros coroutines; cbn [collect_tasks].
  - by rewrite app_nil_r.
  - fold coefficient. destruct (0 <? coefficient) eqn:Hpos; [lia |].
    cbn [andb]. rewrite IH. by rewrite <- app_assoc.
Qed.

(** With a positive coefficient the tasks are awaited as soon as there are
    that many. *)
Lemma collect_tasks_bounded (fuel : nat) args coroutines :
  0 < coefficient →
  (length coroutines < Z.to_nat coefficient)%nat →
  (length (coroutines ++ args) ≤ fuel)%nat →
  collect_tasks cfg args coroutines
  = chunks_go fuel (Z.to_nat coefficient) (coroutines ++ args).
Proof.
  intros Hpos. revert fuel coroutines.
  induction args as [| i rest IH]; intros fuel coroutines Hlen Hfuel;
    cbn [collect_tasks].
  - rewrite app_nil_r in *. destruct coroutines as [| c cs]; [by destruct fuel |].
    destruct fuel as [| fuel]; [simpl in Hfuel; lia |].
    cbn [Settings.truthy_seq chunks_go].
    rewrite take_ge, drop_ge by lia. by rewrite chunks_go_nil.
  - fold coefficient. destruct (0 <? coefficient) eqn:H0; [| lia]. cbn [andb].
    rewrite length_app. cbn [length].
    destruct (coefficient <=? Z.of_nat (length coroutines + 1)) eqn:Hfull.
    + apply Z.leb_le in Hfull.
      assert (length coroutines + 1 = Z.to_nat coefficient)%nat as Hn by lia.
      rewrite length_app in Hfuel. cbn [length] in Hfuel.
      destruct fuel as [| fuel]; [lia |].
      replace (coroutines ++ i :: rest)%list
        with ((coroutines ++ [i]) ++ rest)%list by (by rewrite <- app_assoc).
      destruct ((coroutines ++ [i]) ++ rest)%list as [| x l] eqn:Hl.
      { by destruct coroutines. }
      cbn [chunks_go]. rewrite <- Hl.
      rewrite take_app_length', drop_app_length' by (rewrite length_app; simpl; lia).
      f_equal. rewrite (IH fuel []); [done | simpl; lia | simpl; lia].
    + apply Z.leb_gt in Hfull. rewrite (IH fuel (coroutines ++ [i])%list).
      * by rewrite <- app_assoc.
      * rewrite length_app. simpl. lia.
      * rewrite <- app_assoc. done.
Qed.


End ExecutorFacts.


(** ** Comma-separated settings *)

Section IterableFacts.

Import Settings Helpers.

Lemma remove_spaces_chars (s : string) (c : ascii) :
  c ∈ String.list_ascii_of_string (remove_spaces s) ↔ c ∈ String.list_ascii_of_string s ∧ c ≠ " "%char.
Proof.
  induction s as [| a s IH]; simpl.
  - rewrite elem_of_nil. tauto.
  - destruct (Ascii.eqb a " ") eqn:Ha.
    + apply Ascii.eqb_eq in Ha as ->. rewrite IH, elem_of_cons. split; [tauto |].
      intros [[-> | ?] ?]; done.
    + apply Ascii.eqb_neq in Ha. simpl. rewrite !elem_of_cons, IH. split.
      * intros [-> | [? ?]]; auto.
      * intros [[-> | ?] ?]; auto.
Qed.

Lemma remove_spaces_plain (s : string) :
  Forall (λ c, c ≠ " "%char) (String.list_ascii_of_string s) → remove_spaces s = s.
Proof.
  induction s as [| a s IH]; simpl; [done |].
  intros [Ha Hs]%Forall_cons. destruct (Ascii.eqb a " ") eqn:E.
  - apply Ascii.eqb_eq in E. congruence.
  - by rewrite IH.
Qed.

Lemma remove_spaces_app (a b : string) :
  remove_spaces (a +:+ b) = remove_spaces a +:+ remove_spaces b.
Proof.
  induction a as [| c a IH]; simpl; [done |].
  destruct (Ascii.eqb c " "); simpl; by rewrite IH.
Qed.

Lemma split_not_nil (sep : ascii) (s : string) : split sep s ≠ [].
Proof.
  destruct s as [| c s]; simpl; [done |].
  destruct (Ascii.eqb c sep); [done |]. by destruct (split sep s).
Qed.

(** A piece of a split string holds characters of the string, and never
    the separator. *)
Lemma split_chars (sep : ascii) (s piece : string) (c : ascii) :
  piece ∈ split sep s → c ∈ String.list_ascii_of_string piece → c ∈ String.list_ascii_of_string s ∧ c ≠ sep.
Proof.
  revert piece. induction s as [| a s IH]; intros piece; simpl.
  - intros ->%list_elem_of_singleton. simpl. by intros ?%elem_of_nil.
  - destruct (Ascii.eqb a sep) eqn:Ha.
    + intros [-> | Hin]%elem_of_cons.
      * simpl. by intros ?%elem_of_nil.
      * intros Hc. destruct (IH piece Hin Hc). split; [by right | done].
    + apply Ascii.eqb_neq in Ha.
      pose proof (split_not_nil sep s) as Hne.
      destruct (split sep s) as [| h t] eqn:Hsplit; [done |].
      intros [-> | Hin]%elem_of_cons.
      * simpl. intros [-> | Hc]%elem_of_cons; [by split; [left |] |].
        destruct (IH h ltac:(by left) Hc). split; [by right | done].
      * intros Hc. destruct (IH piece ltac:(by right) Hc). split; [by right | done].
Qed.

Lemma split_plain (sep : ascii) (s : string) :
  Forall (λ c, c ≠ sep) (String.list_ascii_of_string s) → split sep s = [s].
Proof.
  induction s as [| a s IH]; simpl; [done |].
  intros [Ha Hs]%Forall_cons. destruct (Ascii.eqb a sep) eqn:E.
  - apply Ascii.eqb_eq in E. congruence.
  - by rewrite IH.
Qed.

Lemma split_app_sep (sep : ascii) (a b : string) :
  Forall (λ c, c ≠ sep) (String.list_ascii_of_string a) →
  split sep (a +:+ String sep b) = a :: split sep b.
Proof.
  induction a as [| c a IH]; simpl.
  - intros _. by rewrite Ascii.eqb_refl.
  - intros [Hc Ha]%Forall_cons. destruct (Ascii.eqb c sep) eqn:E.
    + apply Ascii.eqb_eq in E. congruence.
    + by rewrite IH.
Qed.

Lemma map_type_Ok (xs : list string) : map_type Ok xs = Ok xs.
Proof. induction xs as [| x xs IH]; simpl; [done | by rewrite IH]. Qed.

Lemma plain_item_no_space (s : string) :
  plain_item s → Forall (λ c, c ≠ " "%char) (String.list_ascii_of_string s).
Proof. intros [_ H]. eapply Forall_impl; [exact H |]. by intros c [? ?]. Qed.

Lemma plain_item_no_comma (s : string) :
  plain_item s → Forall (λ c, c ≠ ","%char) (String.list_ascii_of_string s).
Proof. intros [_ H]. eapply Forall_impl; [exact H |]. by intros c [? ?]. Qed.

(** Every item of a setting read by [get_iterable_environ_parameter] (or
    its extensible twin) is non-empty and free of spaces and commas,
    whatever the variable holds. *)
Theorem iterable_parameter_items (environ : gmap string string) (name : string) :
  ∃ items,
    get_iterable_environ_parameter environ name Ok = Ok items
    ∧ get_extensible_iterable_environ_parameter environ name Ok = Ok items
    ∧ Forall plain_item items.
Proof.
  unfold get_extensible_iterable_environ_parameter, get_iterable_environ_parameter.
  rewrite map_type_Ok. eexists. split; [done |]. split; [done |].
  apply Forall_forall. intros piece [Htruthy Hin]%list_elem_of_filter.
  split; [by apply truthy_str_spec |].
  apply Forall_forall. intros c Hc.
  destruct (split_chars _ _ _ _ Hin Hc) as [Hc' Hsep].
  apply remove_spaces_chars in Hc' as [_ Hne]. done.
Qed.

Lemma concat_comma_space (items : list string) :
  Forall plain_item items →
  remove_spaces (String.concat ", " items) = String.concat "," items.
Proof.
  induction 1 as [| x items Hx _ IH]; [done |].
  apply plain_item_no_space in Hx.
  cbn [String.concat]. destruct items as [| y items]; [by apply remove_spaces_plain |].
  change (x ++ ", " ++ String.concat ", " (y :: items))%string
    with (x +:+ ", " +:+ String.concat ", " (y :: items)).
  rewrite !remove_spaces_app, IH, remove_spaces_plain by done. done.
Qed.

Lemma split_concat_comma (items : list string) :
  Forall plain_item items → items ≠ [] →
  split ","%char (String.concat "," items) = items.
Proof.
  induction 1 as [| x items Hx Hitems IH]; [done |]. intros _.
  apply plain_item_no_comma in Hx.
  cbn [String.concat]. destruct items as [| y items]; [by apply split_plain |].
  change (x ++ "," ++ String.concat "," (y :: items))%string
    with (x +:+ String ","%char (String.concat "," (y :: items))).
  rewrite split_app_sep by done. by rewrite IH.
Qed.

(** A setting written by [make_str_from_iterable] without quotes is read
    back as it was: the items, in order, when each is non-empty and free of
    spaces and commas. *)
Theorem iterable_parameter_round_trip (environ : gmap string string)
    (name quote : string) (items : list string) :
  Forall plain_item items →
  environ !! name = Some (make_str_from_iterable id items false quote) →
  get_iterable_environ_parameter environ name Ok = Ok items.
Proof.
  intros Hitems Henv.
  unfold get_iterable_environ_parameter, environ_get. rewrite Henv, map_type_Ok.
  f_equal. unfold make_str_from_iterable.
  destruct items as [| x items]; [done |]. cbn [truthy_seq].
  rewrite list_fmap_id, concat_comma_space, split_concat_comma by done.
  clear Henv. induction Hitems as [| y items' [Hy _] _ IH]; [done |].
  rewrite filter_cons, decide_True by (by apply truthy_str_spec). by rewrite IH.
Qed.

End IterableFacts.

(** Three table names written and read back. *)
Lemma iterable_parameter_round_trip_sample :
  let environ : gmap string string :=
    {[ "DATABASER_EXCLUDED_TABLES" := "audit, django_session, auth_user" ]} in
  Settings.get_iterable_environ_parameter environ "DATABASER_EXCLUDED_TABLES" Ok
  = Ok ["audit"; "django_session"; "auth_user"].
Proof.
  intros environ.
  apply (iterable_parameter_round_trip environ "DATABASER_EXCLUDED_TABLES" "'"
           ["audit"; "django_session"; "auth_user"]).
  - repeat constructor; done.
  - reflexivity.
Defined.

(** ** The tables [prepare_tables] builds *)

Section TableFacts.

Import Storages DbEntities.

Variable cfg : Settings.settings.

(** The dictionary comprehension draws one group number per name. *)
Lemma new_tables_groups (table_names : list string) (acc : gmap string DBTable.t)
    (w : World) :
  own_stores acc (_last_group_number (entities_cls w)) →
  ∃ fresh w',
    new_tables table_names acc w = (Ok fresh, w')
    ∧ storage_data w' = storage_data w
    ∧ storages_cls w' = storages_cls w
    ∧ _dst_db (entities_cls w') = _dst_db (entities_cls w)
    ∧ _last_group_number (entities_cls w')
      = _last_group_number (entities_cls w) + Z.of_nat (length table_names)
    ∧ dom fresh = dom acc ∪ list_to_set table_names
    ∧ own_stores fresh (_last_group_number (entities_cls w'))
    ∧ (∀ n store, store_of fresh n = Some store →
         store_of acc n = Some store
         ∨ ∃ g, store = StorageDataTable_obj InDbEntities
                          {| _have_value := false; _group := g |}
                ∧ _last_group_number (entities_cls w) < g).
Proof.
  revert acc w. induction table_names as [| n0 rest IH]; intros acc w Hacc.
  - exists acc, w. cbn [new_tables length]. unfold st_ret.
    repeat split; try done; try apply Hacc.
    + lia.
    + rewrite list_to_set_nil. by rewrite union_empty_r_L.
    + intros n store Hn. by left.
  - cbn [new_tables]. unfold st_bind, DBTable.init, StorageDataTable_init, st_ret.
    cbn [cls_attrs set_cls_attrs].
    set (g0 := _last_group_number (entities_cls w) + 1).
    set (table0 := {| DBTable.name := n0; DBTable.full_count := 0;
                      DBTable.max_pk := 0; DBTable.columns := [];
                      DBTable._is_ready_for_transferring := false;
                      DBTable._is_checked := false; DBTable._key_column := None;
                      DBTable.revert_foreign_tables := ∅;
                      DBTable.need_transfer_pks :=
                        StorageDataTable_obj InDbEntities
                          {| _have_value := false; _group := g0 |};
                      DBTable.transferred_pks_count := 0 |}).
    set (w0 := {| storage_data := storage_data w; storages_cls := storages_cls w;
                  entities_cls := {| _last_group_number := g0;
                                     _dst_db := _dst_db (entities_cls w) |} |}).
    assert (own_stores (<[n0 := table0]> acc) (_last_group_number (entities_cls w0)))
      as Hacc0.
    { destruct Hacc as [Hbound Hinj]. split.
      - intros n store. unfold store_of.
        destruct (decide (n = n0)) as [-> | Hne].
        + rewrite lookup_insert_eq. intros [= <-]. exists g0. split; [done |]. simpl. lia.
        + rewrite lookup_insert_ne by done. intros Hn.
          destruct (Hbound n store Hn) as (g & -> & Hg). exists g. split; [done |].
          simpl. unfold g0. lia.
      - intros n1 n2 store. unfold store_of.
        destruct (decide (n1 = n0)) as [-> | Hne1];
          destruct (decide (n2 = n0)) as [-> | Hne2];
          rewrite ?lookup_insert_eq, ?lookup_insert_ne by done; try done.
        + intros [= <-] Hn2. destruct (Hbound n2 _ Hn2) as (g & [= Hg] & Hle).
          unfold g0 in Hg. lia.
        + intros Hn1 [= <-]. destruct (Hbound n1 _ Hn1) as (g & [= Hg] & Hle).
          unfold g0 in Hg. lia.
        + apply Hinj. }
    destruct (IH (<[n0 := table0]> acc) w0 Hacc0)
      as (fresh & w' & Hrun & Hdata & Hs & Hdb & Hlast & Hdom & Hown & Hnew).
    exists fresh, w'. split; [exact Hrun |].
    split; [done |]. split; [done |]. split; [done |]. split.
    { rewrite Hlast. cbn [length]. simpl. unfold g0. lia. }
    split.
    { rewrite Hdom, dom_insert_L, list_to_set_cons.
      apply set_eq. intros x. rewrite !elem_of_union. tauto. }
    split; [done |].
    intros n store Hn. destruct (Hnew n store Hn) as [Hold | (g & -> & Hg)].
    + unfold store_of in Hold. destruct (decide (n = n0)) as [-> | Hne].
      * rewrite lookup_insert_eq in Hold. injection Hold as <-.
        right. exists g0. split; [done |]. unfold g0. lia.
      * rewrite lookup_insert_ne in Hold by done. by left.
    + right. exists g. split; [done |]. simpl in Hg. unfold g0 in Hg. lia.
Qed.

Lemma store_of_insert (tables : gmap string DBTable.t) (table_name : string)
    (self' : DBTable.t) (n : string) :
  store_of tables table_name = Some (DBTable.need_transfer_pks self') →
  store_of (<[table_name := self']> tables) n = store_of tables n.
Proof.
  unfold store_of. intros Hself. destruct (decide (n = table_name)) as [-> | Hne].
  - by rewrite lookup_insert_eq, Hself.
  - by rewrite lookup_insert_ne.
Qed.

Lemma store_of_add_revert (tables : gmap string DBTable.t)
    (table_name column_name referent n : string) :
  store_of (alter (add_revert table_name column_name) referent tables) n
  = store_of tables n.
Proof.
  unfold store_of. destruct (decide (n = referent)) as [-> | Hne].
  - rewrite lookup_alter_eq. by destruct (tables !! referent).
  - by rewrite lookup_alter_ne.
Qed.

(** The first half of [append_column] touches neither the tables nor the
    world of the stores. *)
Lemma upsert_column_frame (self : DBTable.t) (column_name : string)
    (data_type : option string) (ordinal_position : option Z)
    (constraint_table constraint_type : option string) (s : Introspection) :
  let s1 := (upsert_column self column_name data_type ordinal_position
               constraint_table constraint_type s).2 in
  tables s1 = tables s ∧ world s1 = world s.
Proof.
  unfold upsert_column.
  destruct (DBTable.get_column_by_name self column_name) as [column |].
  - destruct constraint_type as [ct |]; [| done].
    destruct (Settings.truthy_str ct); [| done].
    by destruct (String.eqb ct FOREIGN_KEY).
  - unfold st_bind, st_lift. by destruct (DBColumn.init _ _ _ _ _ _).
Qed.

(** [append_column], whatever its outcome, leaves every table with the
    store it had, adds and removes no table, and does not touch the world of
    the stores. *)
Lemma append_column_keeps_stores (table_name column_name : string)
    (data_type : option string) (ordinal_position : option Z)
    (constraint_table constraint_type : option string) (s : Introspection) :
  let s' := (append_column cfg table_name column_name data_type ordinal_position
               constraint_table constraint_type s).2 in
  world s' = world s ∧ ∀ n, store_of (tables s') n = store_of (tables s) n.
Proof.
  unfold append_column, st_bind, st_get.
  destruct (tables s !! table_name) as [self |] eqn:Hself; [| done].
  pose proof (upsert_column_frame self column_name data_type ordinal_position
                constraint_table constraint_type s) as [Ht Hw].
  destruct (upsert_column self column_name data_type ordinal_position
              constraint_table constraint_type s) as [[[column columns'] | e] s1];
    cbn [snd] in Ht, Hw; [| cbn [snd]; by rewrite Ht, Hw].
  set (self1 := set_columns columns' self).
  assert (store_of (tables s) table_name = Some (DBTable.need_transfer_pks self))
    as Hstore by (unfold store_of; by rewrite Hself).
  assert (∀ (tables' : gmap string DBTable.t) (self' : DBTable.t),
            (∀ n, store_of tables' n = store_of (tables s) n) →
            DBTable.need_transfer_pks self' = DBTable.need_transfer_pks self →
            ∀ n, store_of (<[table_name := self']> tables') n = store_of (tables s) n)
    as Hins.
  { intros tables' self' Hsame Hneed n.
    rewrite store_of_insert; [apply Hsame |]. by rewrite Hsame, Hneed. }
  destruct (DBTable._key_column self1) as [key |] eqn:Hkey.
  - unfold st_ret. cbn [set_tables tables world is_key_column_cache is_foreign_key_cache].
    unfold cached_is_foreign_key.
    destruct (Functools.lru_call _ _ _) as [v cache].
    cbn [set_is_foreign_key_cache set_tables tables world].
    destruct v.
    + destruct (DBColumn.constraint_table column) as [referent |].
      * unfold st_ret. cbn [set_tables tables world snd]. split; [done |].
        intros n. rewrite store_of_add_revert.
        apply Hins; [| done]. apply Hins; [| done]. intros n'. by rewrite Ht.
      * unfold st_raise. cbn [snd tables world]. split; [done |].
        apply Hins; [| done]. apply Hins; [| done]. intros n'. by rewrite Ht.
    + unfold st_ret. cbn [snd tables world]. split; [done |].
      apply Hins; [| done]. apply Hins; [| done]. intros n'. by rewrite Ht.
  - unfold cached_is_key_column.
    cbn [set_tables tables world is_key_column_cache is_foreign_key_cache].
    destruct (Functools.lru_call (DBColumn.is_key_column cfg column) _ _) as [vk cachek].
    cbn [set_is_key_column_cache set_tables tables world is_foreign_key_cache].
    unfold cached_is_foreign_key.
    cbn [set_is_key_column_cache set_tables tables world is_foreign_key_cache].
    destruct (Functools.lru_call (DBColumn.is_foreign_key column) _ _) as [v cache].
    cbn [set_is_foreign_key_cache set_tables tables world].
    assert (DBTable.need_transfer_pks
              (if vk then set_key_column (Some column_name) self1 else self1)
            = DBTable.need_transfer_pks self) as Hself2 by (by destruct vk).
    destruct v.
    + destruct (DBColumn.constraint_table column) as [referent |].
      * unfold st_ret. cbn [set_tables tables world snd]. split; [done |].
        intros n. rewrite store_of_add_revert.
        apply Hins; [| done]. apply Hins; [| done]. intros n'. by rewrite Ht.
      * unfold st_raise. cbn [snd tables world]. split; [done |].
        apply Hins; [| done]. apply Hins; [| done]. intros n'. by rewrite Ht.
    + unfold st_ret. cbn [snd tables world]. split; [done |].
      apply Hins; [| done]. apply Hins; [| done]. intros n'. by rewrite Ht.
Qed.

(** [gather] keeps what each of its coroutines keeps, whatever they return
    or raise. *)
Lemma gather_keeps {S A} (P : S → Prop) (coroutines : list (st S A)) (s : S) :
  (∀ c s0, c ∈ coroutines → P s0 → P (c s0).2) →
  P s →
  P (gather coroutines s).2.
Proof.
  revert s. induction coroutines as [| c rest IH]; intros s Hkeep Hs; [done |].
  cbn [gather].
  pose proof (Hkeep c s ltac:(by left) Hs) as Hc.
  destruct (c s) as [r s1]. cbn [snd] in Hc.
  specialize (IH s1 ltac:(intros c0 s0 Hin; apply Hkeep; by right) Hc).
  by destruct (gather rest s1) as [rs s2].
Qed.

Lemma prepare_chunk_tables_keeps_stores (records : list column_record)
    (s : Introspection) :
  let s' := (_prepare_chunk_tables cfg records s).2 in
  world s' = world s ∧ ∀ n, store_of (tables s') n = store_of (tables s) n.
Proof.
  unfold _prepare_chunk_tables.
  destruct (forallb _ _); [| done].
  match goal with
  | |- context [gather ?cs s] =>
      pose proof (gather_keeps
                    (λ s0, world s0 = world s
                           ∧ ∀ n, store_of (tables s0) n = store_of (tables s) n)
                    cs s) as Hgather
  end.
  destruct (gather _ s) as [[results | e] s1]; cbn [snd] in Hgather |- *;
    (apply Hgather; [| done]);
    intros c s0 Hc [Hw Hs0]; apply list_elem_of_fmap in Hc as (r & -> & _);
    destruct (append_column_keeps_stores (rec_table_name r) (rec_column_name r)
                (rec_data_type r) (rec_ordinal_position r)
                (tables_get (tables s) (rec_constraint_table_name r))
                (rec_constraint_type r) s0) as [Hw' Hs'];
    (split; [by rewrite Hw' | intros n; by rewrite Hs']).
Qed.

(** Whatever introspection does after the tables have been built, every
    table keeps the store it was built with. *)
Lemma prepare_tables_keeps_stores (fetch_columns : list string → list column_record)
    (completion_order : list (list string) → list (list string))
    (table_names : list string) (s : Introspection) :
  ∃ fresh w,
    new_tables table_names ∅ (world s) = (Ok fresh, w)
    ∧ let s' := (prepare_tables cfg fetch_columns completion_order table_names s).2 in
      world s' = w ∧ ∀ n, store_of (tables s') n = store_of fresh n.
Proof.
  destruct (new_tables_fresh table_names ∅ (world s)) as (fresh & w & Hnew & _).
  exists fresh, w. split; [done |]. unfold prepare_tables. rewrite Hnew.
  destruct (Helpers.make_chunks _ _) as [chunks | e]; [| done].
  match goal with
  | |- context [gather ?cs ?s1] =>
      pose proof (gather_keeps
                    (λ s0, world s0 = w
                           ∧ ∀ n, store_of (tables s0) n = store_of fresh n)
                    cs s1) as Hgather
  end.
  destruct (gather _ _) as [[results | e] s1]; cbn [snd] in Hgather |- *;
    (apply Hgather; [| done]);
    intros c s0 Hc [Hw Hs0]; apply list_elem_of_fmap in Hc as (chunk & -> & _);
    destruct (prepare_chunk_tables_keeps_stores (fetch_columns chunk) s0) as [Hw' Hs'];
    (split; [by rewrite Hw' | intros n; by rewrite Hs']).
Qed.

Lemma own_stores_empty (bound : Z) : own_stores ∅ bound.
Proof. split; intros n; unfold store_of; by rewrite lookup_empty. Qed.

Lemma store_of_dom (tables1 tables2 : gmap string DBTable.t) :
  (∀ n, store_of tables1 n = store_of tables2 n) → dom tables1 = dom tables2.
Proof.
  intros Hsame. apply set_eq. intros n. rewrite !elem_of_dom.
  specialize (Hsame n). unfold store_of in Hsame.
  destruct (tables1 !! n), (tables2 !! n); try done; split; by eauto.
Qed.


End TableFacts.


(** ** The scratch relation is not a table of the schema *)

Section ScratchRelationFacts.

Import Storages DbEntities.

Variable cfg : Settings.settings.

(** [prepare_table_names] drops the scratch relation from the names the
    catalog reports and keeps every other name, in order; so
    [prepare_tables] builds no table for it, and [truncate_tables] names it
    only when [TABLES_TRUNCATE_INCLUDED] does. *)
Theorem scratch_relation_is_no_table
    (fetch_columns : list string → list column_record)
    (completion_order : list (list string) → list (list string))
    (fetched : list string) (s : Introspection) :
  let table_names := prepare_table_names fetched in
  let s' := (prepare_tables cfg fetch_columns completion_order table_names s).2 in
  (∀ n, n ∈ table_names ↔ n ∈ fetched ∧ n ≠ "storage_data")
  ∧ tables s' !! "storage_data" = None
  ∧ ("storage_data" ∈ truncate_table_names cfg table_names →
     "storage_data" ∈ Settings.TABLES_TRUNCATE_INCLUDED cfg).
Proof.
  intros table_names s'.
  assert (∀ n, n ∈ table_names ↔ n ∈ fetched ∧ n ≠ "storage_data") as Hnames.
  { intros n. unfold table_names, prepare_table_names.
    rewrite list_elem_of_filter. tauto. }
  split; [done |]. split.
  - destruct (prepare_tables_keeps_stores cfg fetch_columns completion_order
                table_names s) as (fresh & w & Hnew & _ & Hstores).
    fold s' in Hstores.
    destruct (new_tables_groups table_names ∅ (world s) (own_stores_empty _))
      as (fresh' & w' & Hnew' & _ & _ & _ & _ & Hdom & _).
    rewrite Hnew in Hnew'. injection Hnew' as <- <-.
    apply not_elem_of_dom. rewrite (store_of_dom _ _ Hstores), Hdom, dom_empty_L.
    rewrite union_empty_l_L, elem_of_list_to_set, Hnames. tauto.
  - unfold truncate_table_names.
    destruct (Settings.TABLES_TRUNCATE_INCLUDED cfg) as [| i included] eqn:Hi;
      cbn [Settings.truthy_seq].
    + destruct (Settings.truthy_seq (Settings.TABLES_TRUNCATE_EXCLUDED cfg));
        rewrite ?list_elem_of_filter, Hnames; tauto.
    + destruct (Settings.truthy_seq (Settings.TABLES_TRUNCATE_EXCLUDED cfg));
        rewrite ?list_elem_of_filter; tauto.
Qed.

End ScratchRelationFacts.

(** ** [is_full_prepared] *)

Section FullPreparedFacts.

Import Storages DbEntities.

Variable cfg : Settings.settings.

(** A length that is answered is the number of stored identifiers. *)
Lemma store_len_size (store : Store) (w : World) (n : Z) (w' : World) :
  store_len store w = (Ok n, w') →
  n = Z.of_nat (size (stored_ids store w)) ∧ w' = w.
Proof.
  destruct store as [sl | k sdt]; cbn [store_len stored_ids].
  - by intros [= <- <-].
  - unfold sdt_len, st_bind, relation, st_ret.
    destruct (_dst_db (cls_attrs k w)); [| discriminate].
    destruct (storage_data w) as [r |]; [| discriminate].
    by intros [= <- <-].
Qed.

Lemma is_full_prepared_spec (self : DBTable.t) (w : World) (n : Z) (w' : World) :
  store_len (DBTable.need_transfer_pks self) w = (Ok n, w') →
  is_full_prepared self w
  = (Ok (if DBTable.full_count self - inaccuracy_count <=? n then Some true else None),
     w).
Proof.
  intros Hlen. pose proof (store_len_size _ _ _ _ Hlen) as [_ ->].
  unfold is_full_prepared, st_bind, st_ret. by rewrite Hlen, Hlen.
Qed.

Lemma apply_op_full_count (fuel : nat) (op : store_op) (table table' : DBTable.t)
    (w w' : World) :
  apply_op cfg fuel op table w = Some (Ok table', w') →
  DBTable.full_count table' = DBTable.full_count table.
Proof.
  unfold apply_op, update_need_transfer_pks. destruct op as [arg | data | other].
  - destruct arg as [data | [sl | [] sdt]];
      repeat match goal with
             | |- context [match ?x with _ => _ end] => destruct x
             end; try discriminate; by intros [= <- <-].
  - destruct (store_insert _ _ w) as [[store' | e] w1]; [| discriminate].
    by intros [= <- <-].
  - destruct (store_add_storage_data _ _ _ _ w) as [[[store' | e] w1] |];
      try discriminate. by intros [= <- <-].
Qed.

(** Once [is_full_prepared] has answered [True] it answers [True] after any
    further [update_need_transfer_pks], [insert] and [add_storage_data] on
    the store, as long as the length of the store can be read: the store
    still holds at least [full_count - 100] identifiers. *)
Theorem is_full_prepared_stays (before after : DBTable.t * World) (n : Z) (w : World) :
  rtc (collects cfg) before after →
  is_full_prepared before.1 before.2 = (Ok (Some true), before.2) →
  store_len (DBTable.need_transfer_pks after.1) after.2 = (Ok n, w) →
  is_full_prepared after.1 after.2 = (Ok (Some true), after.2)
  ∧ DBTable.full_count after.1 - 100 ≤ Z.of_nat (size (pending_ids after)).
Proof.
  intros Hrun Hfull Hlen.
  assert (pending_ids before ⊆ pending_ids after
          ∧ DBTable.full_count after.1 = DBTable.full_count before.1) as [Hsub Hcount].
  { clear Hfull Hlen. induction Hrun as [| x y z Hstep _ IH]; [done |].
    destruct IH as [IH1 IH2]. rewrite IH2.
    destruct Hstep as [fuel op table w0 table' w' Hop | fuel op table w0 e w' Hop].
    - split; [| by apply apply_op_full_count in Hop].
      etrans; [| exact IH1]. by apply (apply_op_grows cfg) in Hop.
    - split; [| done]. etrans; [| exact IH1]. by apply (apply_op_grows cfg) in Hop. }
  apply subseteq_size in Hsub.
  destruct before as [table0 w0], after as [table1 w1]. cbn [fst snd] in *.
  assert (DBTable.full_count table0 - inaccuracy_count
          ≤ Z.of_nat (size (pending_ids (table0, w0)))) as Hbefore.
  { unfold is_full_prepared, st_bind, st_ret in Hfull.
    destruct (store_len (DBTable.need_transfer_pks table0) w0) as [[n0 | e] w0'] eqn:Hlen0;
      [| discriminate].
    apply store_len_size in Hlen0 as [-> ->].
    destruct (store_len (DBTable.need_transfer_pks table0) w0) as [[n0 | e] w0'] eqn:Hlen0;
      [| discriminate].
    apply store_len_size in Hlen0 as [-> ->].
    destruct (_ <=? _) eqn:Hle; [| discriminate]. apply Z.leb_le in Hle. done. }
  unfold inaccuracy_count in *.
  rewrite (is_full_prepared_spec table1 w1 n w Hlen).
  apply store_len_size in Hlen as [-> ->]. unfold pending_ids in *. cbn [fst snd] in *.
  split; [| lia].
  destruct (_ <=? _) eqn:Hle; [done |]. apply Z.leb_gt in Hle.
  unfold inaccuracy_count in Hle. lia.
Qed.

End FullPreparedFacts.

(** On the sample world: the sample table, of no row, is fully prepared
    before and after identifiers are inserted. *)
Lemma is_full_prepared_stays_sample :
  let cfg := sample_settings true 2 in
  ∃ table1 w1,
    apply_op cfg 0 (Op_insert (Storages.ArgIterable [Storages.PkInt 12]))
      sample_table sample_world = Some (Ok table1, w1)
    ∧ DbEntities.is_full_prepared table1 w1 = (Ok (Some true), w1).
Proof.
  intros cfg.
  destruct (apply_op cfg 0 (Op_insert (Storages.ArgIterable [Storages.PkInt 12]))
              sample_table sample_world) as [[[table1 | e] w1] |] eqn:Hop;
    [| vm_compute in Hop; discriminate Hop | vm_compute in Hop; discriminate Hop].
  exists table1, w1. split; [done |].
  destruct (Storages.store_len (DbEntities.DBTable.need_transfer_pks table1) w1)
    as [[n | e] w] eqn:Hlen;
    [| vm_compute in Hop; injection Hop as <- <-; vm_compute in Hlen; discriminate Hlen].
  apply (is_full_prepared_stays cfg (sample_table, sample_world) (table1, w1) n w).
  - eapply rtc_once, collects_ok, Hop.
  - reflexivity.
  - exact Hlen.
Defined.

(** ** What [highest_priority_fk_columns] returns *)

Section PriorityColumnsFacts.

Import DbEntities.

Variable tables : gmap string DBTable.t.

Lemma filter_r_subseteq {A} (pred : A → result bool) (xs ys : list A) :
  filter_r pred xs = Ok ys → ys ⊆ xs.
Proof.
  revert ys. induction xs as [| x xs IH]; intros ys; cbn [filter_r].
  - by intros [= <-].
  - destruct (pred x) as [b |]; [| discriminate]. cbn [mbind result_bind].
    destruct (filter_r pred xs) as [rest |]; [| discriminate].
    cbn [mbind result_bind]. intros [= <-]. specialize (IH rest eq_refl).
    destruct b; intros y Hy.
    + apply elem_of_cons in Hy as [-> | Hy]; [by left | right; by apply IH].
    + right. by apply IH.
Qed.

Lemma filter_r_nil_inv {A} (pred : A → result bool) (ys : list A) :
  filter_r pred [] = Ok ys → ys = [].
Proof. by intros [= <-]. Qed.

Lemma columns_to_tables_subseteq (cols ys : list DBColumn.t) :
  columns_to_tables_with_fk_to_key tables cols = Ok ys → ys ⊆ cols.
Proof.
  revert ys. induction cols as [| c cols IH]; intros ys;
    cbn [columns_to_tables_with_fk_to_key].
  - by intros [= <-].
  - destruct (constraint_table_of tables c) as [table |]; [| discriminate].
    cbn [mbind result_bind].
    destruct (filter_r _ _) as [hits |]; [| discriminate]. cbn [mbind result_bind].
    destruct (columns_to_tables_with_fk_to_key tables cols) as [rest |];
      [| discriminate].
    cbn [mbind result_bind]. intros [= <-]. specialize (IH rest eq_refl).
    intros y Hy. apply elem_of_app in Hy as [Hy | Hy].
    + apply elem_of_replicate in Hy as [-> _]. by left.
    + right. by apply IH.
Qed.

Lemma unique_fk_columns_sub (self : DBTable.t) :
  DBTable.unique_fk_columns self ⊆ DBTable.not_self_fk_columns self.
Proof.
  unfold DBTable.unique_fk_columns. intros c Hc.
  by apply list_elem_of_filter in Hc as [_ Hc].
Qed.

(** Whatever branch [highest_priority_fk_columns] takes, the columns it
    returns are foreign-key columns of the table that do not point to the
    table itself; and it returns none only for a table that has no such
    column. *)
Theorem highest_priority_columns_are_foreign_keys (self : DBTable.t)
    (columns : list DBColumn.t) :
  highest_priority_fk_columns tables self = Ok columns →
  columns ⊆ DBTable.not_self_fk_columns self
  ∧ (∀ c, c ∈ columns →
       c ∈ DBTable.values self
       ∧ DBColumn.is_foreign_key c = true ∧ DBColumn.is_self_fk c = false)
  ∧ (columns = [] ↔ DBTable.not_self_fk_columns self = []).
Proof.
  intros Hrun.
  assert (columns ⊆ DBTable.not_self_fk_columns self
          ∧ (columns = [] ↔ DBTable.not_self_fk_columns self = [])) as [Hsub Hnil].
  { revert Hrun. unfold highest_priority_fk_columns.
    unfold unique_fk_columns_with_key_column,
      unique_fk_columns_tables_with_fk_columns_with_key_column,
      fk_columns_tables_with_fk_columns_with_key_column, fk_columns_with_key_column.
    pose proof (unique_fk_columns_sub self) as Hunique.
    destruct (filter_r (referent_with_key_column tables)
                (DBTable.not_self_fk_columns self)) as [direct |] eqn:Hd;
      [| discriminate].
    pose proof (filter_r_subseteq _ _ _ Hd) as Hdirect.
    cbn [mbind result_bind].
    set (u1 := remove_dups (filter (λ c, c ∈ direct) (DBTable.unique_fk_columns self))).
    assert (u1 ⊆ DBTable.not_self_fk_columns self) as Hu1.
    { intros c Hc. unfold u1 in Hc. rewrite elem_of_remove_dups in Hc.
      apply list_elem_of_filter in Hc as [_ Hc]. by apply Hunique. }
    destruct u1 as [| c1 u1'] eqn:Eu1; cbn [Settings.truthy_seq].
    2:{ intros [= <-]. split; [done |]. split; [done |].
        intros Hnil. specialize (Hu1 c1 ltac:(by left)).
        rewrite Hnil in Hu1. by apply elem_of_nil in Hu1. }
    destruct (columns_to_tables_with_fk_to_key tables (DBTable.unique_fk_columns self))
      as [u2 |] eqn:Hu2; [| discriminate].
    pose proof (columns_to_tables_subseteq _ _ Hu2) as Hu2sub.
    cbn [mbind result_bind].
    assert (∀ l : list DBColumn.t, l ⊆ DBTable.not_self_fk_columns self → l ≠ [] →
              DBTable.not_self_fk_columns self ≠ []) as Hne.
    { intros l Hl Hlne Hnil. destruct l as [| x l]; [done |].
      specialize (Hl x ltac:(by left)). rewrite Hnil in Hl. by apply elem_of_nil in Hl. }
    destruct u2 as [| c2 u2']; cbn [Settings.truthy_seq mbind result_bind].
    - destruct direct as [| d direct']; cbn [Settings.truthy_seq mbind result_bind app].
      + destruct (columns_to_tables_with_fk_to_key tables
                    (DBTable.not_self_fk_columns self)) as [t2 |] eqn:Ht2;
          [| discriminate].
        pose proof (columns_to_tables_subseteq _ _ Ht2) as Ht2sub.
        cbn [mbind result_bind].
        destruct t2 as [| c3 t2']; cbn [Settings.truthy_seq]; intros [= <-].
        * done.
        * split; [done |]. split; [done |]. intros Hnil. exfalso. by apply (Hne _ Ht2sub).
      + intros [= <-]. split; [done |]. split; [done |].
        intros Hnil. exfalso. by apply (Hne _ Hdirect).
    - assert (c2 :: u2' ⊆ DBTable.not_self_fk_columns self) as Hu2'.
      { intros c Hc. by apply Hunique, Hu2sub. }
      destruct direct as [| d direct']; cbn [Settings.truthy_seq mbind result_bind app];
        intros [= <-].
      + split; [done |]. split; [done |].
        intros Hnil. exfalso. by apply (Hne _ Hu2').
      + split; [| split; [done |]].
        * intros c Hc. rewrite app_comm_cons in Hc.
          apply elem_of_app in Hc as [Hc | Hc]; [by apply Hu2' | by apply Hdirect].
        * intros Hnil. exfalso. by apply (Hne _ Hu2'). }
  split; [done |]. split; [| done].
  intros c Hc. apply Hsub in Hc. unfold DBTable.not_self_fk_columns in Hc.
  apply list_elem_of_filter in Hc as [Hc Hin]. split; [done |].
  apply andb_true_iff in Hc as [Hfk Hself]. split; [done |].
  by apply negb_true_iff in Hself.
Qed.

End PriorityColumnsFacts.

(** On the sample schema: [t2] has one foreign key, to [t1], and that is the
    column returned. *)
Lemma highest_priority_columns_are_foreign_keys_sample :
  match DbEntities.prepare_tables (sample_settings true 2) sample_fetch_columns reverse
          sample_table_names sample_start with
  | (Ok _, s') =>
      match DbEntities.tables s' !! "t2" with
      | Some t2 =>
          ∃ columns,
            DbEntities.highest_priority_fk_columns (DbEntities.tables s') t2 = Ok columns
            ∧ columns ⊆ DbEntities.DBTable.not_self_fk_columns t2
            ∧ DbEntities.DBColumn.name <$> columns = ["t1_id"]
      | None => False
      end
  | (Raise _, _) => False
  end.
Proof.
  destruct (DbEntities.prepare_tables (sample_settings true 2) sample_fetch_columns
              reverse sample_table_names sample_start) as [[[] | e] s'] eqn:Hrun;
    [| vm_compute in Hrun; discriminate Hrun].
  destruct (DbEntities.tables s' !! "t2") as [t2 |] eqn:Ht2;
    [| vm_compute in Hrun; injection Hrun as <-; vm_compute in Ht2; discriminate Ht2].
  destruct (DbEntities.highest_priority_fk_columns (DbEntities.tables s') t2)
    as [columns | e] eqn:Hcols.
  - exists columns. split; [done |].
    destruct (highest_priority_columns_are_foreign_keys (DbEntities.tables s') t2
                columns Hcols) as (Hsub & _).
    split; [done |].
    vm_compute in Hrun. injection Hrun as <-. vm_compute in Ht2. injection Ht2 as <-.
    vm_compute in Hcols. injection Hcols as <-. reflexivity.
  - vm_compute in Hrun. injection Hrun as <-. vm_compute in Ht2. injection Ht2 as <-.
    vm_compute in Hcols. discriminate Hcols.
Defined.

(** ** What [_transfer_table_data] sends *)

Section TransferFacts.

Import Storages Transporters.

Variable cfg : Settings.settings.
Variable Rows : Type.
Variable fetch_transfer :
  DbEntities.DBTable.t → list string → Rows → result (list string) * Rows.

Lemma elem_of_concat {A} (x : A) (ls : list (list A)) :
  x ∈ concat ls ↔ ∃ l, l ∈ ls ∧ x ∈ l.
Proof.
  induction ls as [| l0 ls IH]; cbn [concat].
  - split; [by intros ?%elem_of_nil | by intros (l & ?%elem_of_nil & _)].
  - rewrite elem_of_app, IH. split.
    + intros [Hx | (l & Hl & Hx)]; [exists l0; split; [by left | done] |].
      exists l. split; [by right | done].
    + intros (l & [-> | Hl]%elem_of_cons & Hx); [by left | right; by exists l].
Qed.

(** One chunk: the statement is issued, whatever comes of it; the stores and
    the other tables are not touched, and the table stays. *)
Lemma transfer_chunk_issued (table_name : string) (chunk : list string)
    (s : Transfer Rows) :
  is_Some (dst_tables s !! table_name) →
  ∃ r s1,
    _transfer_chunk_table_data fetch_transfer table_name chunk s = (r, s1)
    ∧ store_world s1 = store_world s
    ∧ issued s1 = (issued s ++ [(table_name, chunk)])%list
    ∧ is_Some (dst_tables s1 !! table_name)
    ∧ ∀ n, n ≠ table_name → dst_tables s1 !! n = dst_tables s !! n.
Proof.
  intros [table Htable].
  unfold _transfer_chunk_table_data, st_bind, st_get. rewrite Htable.
  unfold logger. cbn [dst_rows dst_tables store_world logged issued].
  destruct (fetch_transfer table chunk (dst_rows s)) as [[ids | e] rows].
  - destruct (Settings.truthy_seq ids).
    + eexists _, _. split; [reflexivity |].
      cbn [dst_rows dst_tables store_world logged issued].
      repeat split; try done.
      * rewrite lookup_alter_eq, Htable. by eexists.
      * intros n Hne. by rewrite lookup_alter_ne.
    + eexists _, _. split; [reflexivity |].
      cbn [dst_rows dst_tables store_world logged issued].
      by repeat split.
  - eexists _, _. split; [reflexivity |].
    cbn [dst_rows dst_tables store_world logged issued].
    by repeat split.
Qed.

(** The loop over the pages of a scratch store: the chunks sent are the
    pages, in order, up to the one at which a statement raised, if one
    did. *)
Lemma transfer_pages_issued (fuel : nat) (table_name : string) (k : sdt_class)
    (sdt : StorageDataTable) (r0 : gset (Z * string)) (step : Z) (s : Transfer Rows) :
  let cs := chunk_size_of cfg k in
  let rows := ordered (group_data r0 (_group sdt)) in
  0 < cs → 0 ≤ step →
  _dst_db (cls_attrs k (store_world s)) = true →
  storage_data (store_world s) = Some r0 →
  is_Some (dst_tables s !! table_name) →
  (length rows - Z.to_nat (cs * step) < fuel)%nat →
  ∃ r s' sent,
    transfer_pages cfg fetch_transfer fuel table_name k sdt step s = Some (r, s')
    ∧ store_world s' = store_world s
    ∧ issued s' = (issued s ++ ((λ chunk, (table_name, chunk)) <$> sent))%list
    ∧ sent `prefix_of`
        Helpers.chunks_go fuel (Z.to_nat cs) (drop (Z.to_nat (cs * step)) rows)
    ∧ (r = Ok tt →
       sent = Helpers.chunks_go fuel (Z.to_nat cs) (drop (Z.to_nat (cs * step)) rows))
    ∧ ∀ n, n ≠ table_name → dst_tables s' !! n = dst_tables s !! n.
Proof.
  intros cs rows Hcs. revert step s.
  induction fuel as [| fuel IH]; intros step s Hstep Hdb Hr Htable Hfuel; [lia |].
  cbn [transfer_pages]. unfold on_world.
  rewrite (fetch_page_ok cfg k sdt step (store_world s) r0) by (done || lia).
  fold cs rows.
  assert ({| dst_rows := dst_rows s; dst_tables := dst_tables s;
             store_world := store_world s; logged := logged s;
             issued := issued s |} = s) as -> by (by destruct s).
  destruct (drop (Z.to_nat (cs * step)) rows) as [| x rest] eqn:Hdrop.
  { rewrite take_nil. exists (Ok tt), s, []. split; [done |].
    repeat split; try done. by rewrite app_nil_r. }
  assert (Z.to_nat (cs * step) < length rows)%nat as Hlt.
  { destruct (decide (Z.to_nat (cs * step) < length rows)%nat); [done |].
    rewrite drop_ge in Hdrop by lia. done. }
  destruct (take (Z.to_nat cs) (x :: rest)) as [| y page] eqn:Htake.
  { apply (f_equal length) in Htake. rewrite length_take in Htake.
    simpl in Htake. lia. }
  destruct (transfer_chunk_issued table_name (y :: page) s Htable)
    as (r1 & s1 & Hchunk & Hw1 & Hissued1 & Htable1 & Hother1).
  rewrite Hchunk.
  assert (drop (Z.to_nat (cs * (step + 1))) rows = drop (Z.to_nat cs) (x :: rest))
    as Hnext.
  { rewrite <- Hdrop, drop_drop. f_equal.
    replace (cs * (step + 1)) with (cs * step + cs) by lia.
    rewrite Z2Nat.inj_add by nia. done. }
  cbn [Helpers.chunks_go]. rewrite Htake.
  destruct r1 as [[] | e].
  - destruct (IH (step + 1) s1) as (r & s' & sent & Hrun & Hw & Hissued & Hprefix
                                    & Hall & Hother).
    + lia.
    + by rewrite Hw1.
    + by rewrite Hw1.
    + done.
    + replace (cs * (step + 1)) with (cs * step + cs) by lia.
      rewrite Z2Nat.inj_add by nia. lia.
    + rewrite Hnext in Hprefix, Hall.
      exists r, s', ((y :: page) :: sent). split; [done |].
      split; [by rewrite Hw, Hw1 |]. split.
      { rewrite Hissued, Hissued1, <- app_assoc. done. }
      split; [by apply prefix_cons |]. split.
      { intros Hok. by rewrite (Hall Hok). }
      intros n Hne. rewrite Hother by done. by apply Hother1.
  - exists (Raise e), s1, [y :: page]. split; [done |].
    split; [done |]. split; [done |]. split.
    { apply prefix_cons, prefix_nil. }
    split; [discriminate | done].
Qed.

(** For a table with a primary key whose store can be used (the store of a
    table is a scratch store with chunks of 30000): [_transfer_table_data]
    stops; the statements it issues are for this table and carry the chunks
    of the pending identifiers, in order, up to the one at which a statement
    raised; when it returns, every pending identifier has been sent exactly
    once.  The stores and the other tables are not touched. *)
Theorem transfer_table_sends_every_pk (table_name : string)
    (table : DbEntities.DBTable.t) (pk : DbEntities.DBColumn.t) (s : Transfer Rows) :
  dst_tables s !! table_name = Some table →
  DbEntities.DBTable.primary_key table = Some pk →
  usable (DbEntities.DBTable.need_transfer_pks table) (store_world s) →
  0 < store_chunk_size cfg (DbEntities.DBTable.need_transfer_pks table) →
  let pending := stored_ids (DbEntities.DBTable.need_transfer_pks table) (store_world s) in
  ∃ r s' sent,
    _transfer_table_data cfg fetch_transfer (S (size pending)) table_name s = Some (r, s')
    ∧ store_world s' = store_world s
    ∧ issued s' = (issued s ++ ((λ chunk, (table_name, chunk)) <$> sent))%list
    ∧ Forall (λ chunk, chunk ≠ [] ∧ chunk ⊆ elements pending) sent
    ∧ NoDup (concat sent)
    ∧ (r = Ok tt → concat sent ≡ₚ elements pending)
    ∧ ∀ n, n ≠ table_name → dst_tables s' !! n = dst_tables s !! n.
Proof.
  intros Htable Hpk Husable Hcs pending.
  unfold _transfer_table_data. rewrite Htable. unfold on_world.
  destruct (DbEntities.DBTable.need_transfer_pks table) as [sl | k sdt] eqn:Hstore.
  - (* an in-memory store *)
    cbn [store_len]. unfold st_ret, logger.
    cbn [dst_rows dst_tables store_world logged issued]. rewrite Hpk.
    cbn [store_chunk_size] in Hcs. unfold sl_aiter.
    destruct (make_chunks_positive (elements (_storage sl))
                (Settings.COLLECTOR_CHUNK_SIZE cfg) Hcs)
      as (chunks & -> & Hconcat & Hsizes).
    set (s2 := {| dst_rows := dst_rows s; dst_tables := dst_tables s;
                  store_world := store_world s;
                  logged := _; issued := issued s |}).
    assert (∀ chunks0 (s0 : Transfer Rows),
              is_Some (dst_tables s0 !! table_name) →
              ∃ r s' sent,
                transfer_chunks fetch_transfer table_name chunks0 s0 = (r, s')
                ∧ store_world s' = store_world s0
                ∧ issued s' = (issued s0 ++ ((λ chunk, (table_name, chunk)) <$> sent))%list
                ∧ sent `prefix_of` chunks0
                ∧ (r = Ok tt → sent = chunks0)
                ∧ ∀ n, n ≠ table_name → dst_tables s' !! n = dst_tables s0 !! n) as Hloop.
    { induction chunks0 as [| chunk chunks0 IH]; intros s0 Hs0.
      - exists (Ok tt), s0, []. cbn [transfer_chunks]. unfold st_ret.
        repeat split; try done. by rewrite app_nil_r.
      - cbn [transfer_chunks]. unfold st_bind.
        destruct (transfer_chunk_issued table_name chunk s0 Hs0)
          as (r1 & s1 & Hchunk & Hw1 & Hissued1 & Htable1 & Hother1).
        rewrite Hchunk. destruct r1 as [[] | e].
        + destruct (IH s1 Htable1) as (r & s' & sent & Hrun & Hw & Hissued & Hprefix
                                       & Hall & Hother).
          exists r, s', (chunk :: sent). split; [done |].
          split; [by rewrite Hw, Hw1 |]. split.
          { rewrite Hissued, Hissued1, <- app_assoc. done. }
          split; [by apply prefix_cons |]. split.
          { intros Hok. by rewrite (Hall Hok). }
          intros n Hne. rewrite Hother by done. by apply Hother1.
        + exists (Raise e), s1, [chunk]. split; [done |].
          split; [done |]. split; [done |]. split.
          { apply prefix_cons, prefix_nil. }
          split; [discriminate | done]. }
    destruct (Hloop chunks s2) as (r & s' & sent & Hrun & Hw & Hissued & Hprefix
                                   & Hall & Hother).
    { subst s2. cbn [dst_tables]. by rewrite Htable. }
    rewrite Hrun.
    assert (Forall (λ chunk, chunk ≠ [] ∧ chunk ⊆ elements pending) sent
            ∧ NoDup (concat sent)
            ∧ (r = Ok tt → concat sent ≡ₚ elements pending)) as (H1 & H2 & H3).
    { destruct Hprefix as [rest ->]. subst pending. cbn [stored_ids].
      rewrite <- Hconcat. split; [| split].
      - apply Forall_app in Hsizes as [Hsent _].
        apply Forall_forall. intros chunk Hin. split.
        + rewrite Forall_forall in Hsent. by apply Hsent.
        + intros x Hx. rewrite concat_app, elem_of_app. left.
          apply elem_of_concat. by exists chunk.
      - pose proof (NoDup_elements (_storage sl)) as Hnd.
        rewrite <- Hconcat, concat_app in Hnd. by apply NoDup_app in Hnd as [? _].
      - intros Hok. specialize (Hall Hok).
        assert (rest = []) as ->.
        { apply (f_equal length) in Hall. rewrite length_app in Hall.
          destruct rest; [done | simpl in Hall; lia]. }
        by rewrite app_nil_r. }
    destruct r as [[] | e].
    + eexists (Ok tt), _, sent. split; [reflexivity |].
      unfold logger. cbn [dst_rows dst_tables store_world logged issued].
      repeat split; try done.
    + eexists (Raise e), s', sent. split; [reflexivity |]. repeat split; try done.
  - (* a scratch store *)
    destruct Husable as [Hdb [r0 Hr0]]. cbn [store_chunk_size] in Hcs.
    cbn [store_len]. unfold sdt_len, st_bind, relation, st_ret.
    rewrite Hdb, Hr0. unfold logger.
    cbn [dst_rows dst_tables store_world logged issued]. rewrite Hpk.
    set (s2 := {| dst_rows := dst_rows s; dst_tables := dst_tables s;
                  store_world := store_world s;
                  logged := _; issued := issued s |}).
    subst pending. cbn [stored_ids]. rewrite Hr0.
    set (ids := group_data r0 (_group sdt)).
    destruct (transfer_pages_issued (S (size ids)) table_name k sdt r0 0 s2)
      as (r & s' & sent & Hrun & Hw & Hissued & Hprefix & Hall & Hother);
      try done.
    { fold ids. rewrite length_ordered. lia. }
    rewrite Hrun.
    replace (Z.to_nat (chunk_size_of cfg k * 0)) with 0%nat in Hprefix, Hall by lia.
    rewrite drop_0 in Hprefix, Hall. fold ids in Hprefix, Hall.
    set (chunks := Helpers.chunks_go (S (size ids)) (Z.to_nat (chunk_size_of cfg k))
                     (ordered ids)) in *.
    assert (concat chunks = ordered ids) as Hconcat.
    { apply chunks_go_concat; [lia |]. rewrite length_ordered. lia. }
    assert (Forall (λ c, c ≠ [] ∧ (length c ≤ Z.to_nat (chunk_size_of cfg k))%nat) chunks)
      as Hsizes by (apply chunks_go_sizes; lia).
    assert (Forall (λ chunk, chunk ≠ [] ∧ chunk ⊆ elements ids) sent
            ∧ NoDup (concat sent)
            ∧ (r = Ok tt → concat sent ≡ₚ elements ids)) as (H1 & H2 & H3).
    { destruct Hprefix as [rest Hrest]. split; [| split].
      - rewrite Hrest in Hsizes. apply Forall_app in Hsizes as [Hsent _].
        apply Forall_forall. intros chunk Hin. split.
        + rewrite Forall_forall in Hsent. by apply Hsent.
        + intros x Hx. apply elem_of_elements, elem_of_ordered.
          rewrite <- Hconcat, Hrest, concat_app, elem_of_app. left.
          apply elem_of_concat. by exists chunk.
      - pose proof (NoDup_ordered ids) as Hnd.
        rewrite <- Hconcat, Hrest, concat_app in Hnd. by apply NoDup_app in Hnd as [? _].
      - intros Hok. rewrite (Hall Hok), Hconcat. apply ordered_Permutation. }
    destruct r as [[] | e].
    + eexists (Ok tt), _, sent. split; [reflexivity |].
      unfold logger. cbn [dst_rows dst_tables store_world logged issued].
      repeat split; try done.
    + eexists (Raise e), s', sent. split; [reflexivity |]. repeat split; try done.
Qed.

End TransferFacts.

(** The sample invoice table: one pending identifier, one statement. *)
Lemma transfer_table_sends_every_pk_sample :
  ∃ s',
    Transporters._transfer_table_data (sample_settings true 2) sample_fetch_transfer 2
      "invoice" sample_invoice_transfer = Some (Ok tt, s')
    ∧ Transporters.issued s' = [("invoice", ["7"])]
    ∧ Transporters.store_world s' = sample_world.
Proof.
  destruct (transfer_table_sends_every_pk (sample_settings true 2) (gset string)
              sample_fetch_transfer "invoice" sample_invoice sample_id_column
              sample_invoice_transfer)
    as (r & s' & sent & Hrun & Hworld & Hissued & _).
  - reflexivity.
  - reflexivity.
  - split; [reflexivity | by eexists].
  - reflexivity.
  - exists s'. vm_compute in Hrun. injection Hrun as <- <-. repeat split.
Defined.

(** ** [topological_sort] *)

Section DictFacts.

Import Helpers.

Context {K : Type} `{EqDecision K} {V : Type}.

Implicit Types (d : list (K * V)) (k : K) (v : V).

Lemma dict_get_nil k : dict_get (@nil (K * V)) k = None.
Proof. done. Qed.

Lemma dict_get_cons d k k0 v0 :
  dict_get ((k0, v0) :: d) k = if decide (k0 = k) then Some v0 else dict_get d k.
Proof.
  unfold dict_get. cbn [list_find]. cbn [fst].
  destruct (decide (k0 = k)) as [-> | Hne]; [done |].
  destruct (list_find (λ e, e.1 = k) d) as [[i e] |]; done.
Qed.

Lemma dict_get_None d k : dict_get d k = None ↔ k ∉ d.*1.
Proof.
  induction d as [| [k0 v0] d IH].
  - rewrite dict_get_nil. split; [intros _; apply not_elem_of_nil | done].
  - rewrite dict_get_cons, fmap_cons, not_elem_of_cons. cbn [fst].
    destruct (decide (k0 = k)) as [-> | Hne].
    + split; [done | by intros [? _]].
    + rewrite IH. split; [by intros ?; split | by intros [_ ?]].
Qed.

Lemma dict_get_app_None d d' k :
  dict_get d k = None → dict_get (d ++ d') k = dict_get d' k.
Proof.
  induction d as [| [k0 v0] d IH]; [done |].
  rewrite <- app_comm_cons, !dict_get_cons.
  destruct (decide (k0 = k)); [done | exact IH].
Qed.

Lemma dict_get_update d k v k' :
  dict_get ((λ e, if decide (e.1 = k) then (k, v) else e) <$> d) k'
  = if decide (k' = k) then (λ _, v) <$> dict_get d k else dict_get d k'.
Proof.
  induction d as [| [k0 v0] d IH].
  - by destruct (decide (k' = k)).
  - rewrite fmap_cons. cbn [fst].
    destruct (decide (k0 = k)) as [-> | Hne]; rewrite !dict_get_cons.
    + destruct (decide (k' = k)) as [-> | Hne'].
      * by rewrite !decide_True.
      * by rewrite IH, !decide_False by done.
    + rewrite IH. destruct (decide (k' = k)) as [-> | Hne'].
      * by rewrite !decide_False by done.
      * done.
Qed.

Lemma dict_get_set d k v k' :
  dict_get (dict_set k v d) k' = if decide (k' = k) then Some v else dict_get d k'.
Proof.
  unfold dict_set. destruct (decide (k ∈ d.*1)) as [Hin | Hnot].
  - rewrite dict_get_update. destruct (decide (k' = k)) as [-> | Hne]; [| done].
    destruct (dict_get d k) eqn:Hget; [done |].
    by apply dict_get_None in Hget.
  - apply dict_get_None in Hnot.
    destruct (decide (k' = k)) as [-> | Hne].
    + rewrite dict_get_app_None by done. by rewrite dict_get_cons, decide_True.
    + destruct (dict_get d k') as [v' |] eqn:Hget.
      * clear Hnot. induction d as [| [k0 v0] d IH]; [done |].
        rewrite <- app_comm_cons, dict_get_cons. rewrite dict_get_cons in Hget.
        destruct (decide (k0 = k')); [done | by apply IH].
      * rewrite dict_get_app_None by done.
        by rewrite dict_get_cons, decide_False, dict_get_nil by done.
Qed.

Lemma dict_set_keys d k v :
  (dict_set k v d).*1 = if decide (k ∈ d.*1) then d.*1 else (d.*1 ++ [k])%list.
Proof.
  unfold dict_set. destruct (decide (k ∈ d.*1)) as [Hin | Hnot].
  - clear Hin. induction d as [| [k0 v0] d IH]; [done |].
    rewrite !fmap_cons, IH. cbn [fst]. by destruct (decide (k0 = k)) as [-> |].
  - by rewrite fmap_app.
Qed.

Lemma dict_get_Some_elem d k v : dict_get d k = Some v → (k, v) ∈ d.
Proof.
  induction d as [| [k0 v0] d IH]; [done |]. rewrite dict_get_cons.
  destruct (decide (k0 = k)) as [-> | Hne].
  - intros [= ->]. by left.
  - intros H. right. by apply IH.
Qed.

Lemma dict_elem_get d k v : NoDup d.*1 → (k, v) ∈ d → dict_get d k = Some v.
Proof.
  induction d as [| [k0 v0] d IH]; [by intros _ ?%elem_of_nil |].
  rewrite fmap_cons. cbn [fst]. intros [Hk0 Hnd]%NoDup_cons.
  rewrite dict_get_cons. intros [[= -> ->] | Hin]%elem_of_cons.
  - by rewrite decide_True.
  - destruct (decide (k0 = k)) as [-> | Hne]; [| by apply IH].
    exfalso. apply Hk0. apply list_elem_of_fmap. by exists (k, v).
Qed.

End DictFacts.

Section CountFacts.

Context {K : Type} `{EqDecision K}.

Implicit Types (E U : list (K * K)) (h t : K).

Lemma indegree_app E U t : indegree (E ++ U) t = (indegree E t + indegree U t)%nat.
Proof. unfold indegree. by rewrite filter_app, length_app. Qed.

Lemma indegree_arrow h t t' :
  indegree [(h, t)] t' = if decide (t = t') then 1%nat else 0%nat.
Proof.
  unfold indegree. rewrite filter_cons, filter_nil. cbn [snd].
  by destruct (decide (t = t')).
Qed.

Lemma indegree_pos E h t : (h, t) ∈ E → (0 < indegree E t)%nat.
Proof.
  intros Hin. unfold indegree.
  assert (Hf : (h, t) ∈ filter (λ arrow : K * K, arrow.2 = t) E)
    by by apply list_elem_of_filter.
  destruct (filter _ E); [by apply elem_of_nil in Hf | simpl; lia].
Qed.

Lemma indegree_zero E t : t ∉ E.*2 → indegree E t = 0%nat.
Proof.
  intros Hnot. unfold indegree.
  destruct (filter _ E) as [| [h' t'] l] eqn:Hf; [done |].
  assert (Hin : (h', t') ∈ filter (λ arrow : K * K, arrow.2 = t) E)
    by (rewrite Hf; left).
  apply list_elem_of_filter in Hin as [Heq Hin]. cbn [snd] in Heq. subst t'.
  exfalso. apply Hnot. apply list_elem_of_fmap. by exists (h', t).
Qed.

Lemma filter_submseteq {A} (P : A → Prop) `{∀ x, Decision (P x)} (l1 l2 : list A) :
  l1 ⊆+ l2 → filter P l1 ⊆+ filter P l2.
Proof.
  induction 1 as [| x l1 l2 _ IH | x y l | x l1 l2 _ IH | l1 l2 l3 _ IH1 _ IH2].
  - done.
  - rewrite !filter_cons. destruct (decide (P x)); [by constructor | done].
  - rewrite !filter_cons. destruct (decide (P x)), (decide (P y)); try done.
    apply submseteq_swap.
  - rewrite filter_cons. destruct (decide (P x)); [by apply submseteq_cons | done].
  - by etrans.
Qed.

Lemma indegree_submseteq U E t : U ⊆+ E → (indegree U t ≤ indegree E t)%nat.
Proof.
  intros Hsub. unfold indegree. apply submseteq_length. by apply filter_submseteq.
Qed.

(** When as many arrows of [U] as of [E] point to [t], all of them are in [U]. *)
Lemma indegree_full U E h t :
  U ⊆+ E → indegree U t = indegree E t → (h, t) ∈ E → (h, t) ∈ U.
Proof.
  intros Hsub Heq Hin. unfold indegree in Heq.
  assert (Hp : filter (λ arrow : K * K, arrow.2 = t) U
               ≡ₚ filter (λ arrow : K * K, arrow.2 = t) E).
  { apply submseteq_length_Permutation; [by apply filter_submseteq | lia]. }
  assert (Hf : (h, t) ∈ filter (λ arrow : K * K, arrow.2 = t) U).
  { rewrite Hp. by apply list_elem_of_filter. }
  by apply list_elem_of_filter in Hf as [_ ?].
Qed.

Lemma indegree_Permutation U U' t : U ≡ₚ U' → indegree U t = indegree U' t.
Proof. intros Hp. unfold indegree. by rewrite Hp. Qed.

Lemma filter_either {A} (P Q : A → Prop) `{∀ x, Decision (P x)} `{∀ x, Decision (Q x)}
    (l : list A) :
  (∀ x, P x → Q x → False) →
  filter (λ x, P x ∨ Q x) l ≡ₚ filter P l ++ filter Q l.
Proof.
  intros Hdis. induction l as [| x l IH]; [done |].
  rewrite !filter_cons.
  destruct (decide (P x)) as [HP | HP], (decide (Q x)) as [HQ | HQ].
  - by destruct (Hdis x).
  - rewrite decide_True by by left. simpl. by rewrite IH.
  - rewrite decide_True by by right. rewrite IH. apply Permutation_middle.
  - rewrite decide_False by tauto. done.
Qed.

Lemma arrows_from_filter h E :
  (h,.) <$> arrows_from h E = filter (λ arrow : K * K, arrow.1 = h) E.
Proof.
  unfold arrows_from. induction E as [| [h' t'] E IH]; [done |].
  rewrite filter_cons. cbn [fst]. destruct (decide (h' = h)) as [-> | Hne].
  - rewrite !fmap_cons. cbn [snd]. by rewrite IH.
  - exact IH.
Qed.

Lemma arrows_from_none h E : h ∉ E.*1 → arrows_from h E = [].
Proof.
  intros Hnot. unfold arrows_from.
  destruct (filter _ E) as [| [h' t'] l] eqn:Hf; [done |].
  assert (Hin : (h', t') ∈ filter (λ arrow : K * K, arrow.1 = h) E)
    by (rewrite Hf; left).
  apply list_elem_of_filter in Hin as [Heq Hin]. cbn [fst] in Heq. subst h'.
  exfalso. apply Hnot. apply list_elem_of_fmap. by exists (h, t').
Qed.

Lemma arrows_from_snoc h E h' t :
  arrows_from h (E ++ [(h', t)])
  = (arrows_from h E ++ if decide (h' = h) then [t] else [])%list.
Proof.
  unfold arrows_from. rewrite filter_app, fmap_app, filter_cons, filter_nil.
  cbn [fst]. by destruct (decide (h' = h)).
Qed.

End CountFacts.

Section SortFacts.

Import Helpers.

Context {K : Type} `{EqDecision K}.

Implicit Types (E U : list (K * K)) (h t : K).

Lemma dict_set_NoDup {V} (d : list (K * V)) k v : NoDup d.*1 → NoDup (dict_set k v d).*1.
Proof.
  intros Hnd. rewrite dict_set_keys. destruct (decide (k ∈ d.*1)); [done |].
  apply NoDup_app. split_and!; [done | | apply NoDup_singleton].
  intros x Hx ->%list_elem_of_singleton. done.
Qed.

(** The first loop: [num_heads] counts the incoming arrows of every tail,
    [tails] lists the outgoing arrows of every head, [heads] holds every head
    once. *)
Lemma first_loop E :
  ∀ num_heads tails heads,
    foldl add_arrow ([], [], []) E = (num_heads, tails, heads) →
    NoDup num_heads.*1
    ∧ (∀ t, dict_get num_heads t
            = if decide (t ∈ E.*2) then Some (Z.of_nat (indegree E t)) else None)
    ∧ (∀ h, dict_get tails h
            = if decide (h ∈ E.*1) then Some (arrows_from h E) else None)
    ∧ NoDup heads
    ∧ (∀ h, h ∈ heads ↔ h ∈ E.*1).
Proof.
  induction E as [| [h t] E IH] using rev_ind; intros nh tails heads Hrun.
  - injection Hrun as <- <- <-. split_and!; try done; apply NoDup_nil_2.
  - rewrite foldl_snoc in Hrun.
    destruct (foldl add_arrow ([], [], []) E) as [[nh0 tails0] heads0].
    destruct (IH _ _ _ eq_refl) as (Hnd & Hnh & Htails & Hheads & Hin).
    cbn [add_arrow] in Hrun.
    assert (Hcount : ∀ t',
      dict_get (dict_set t (default 0 (dict_get nh0 t) + 1) nh0) t'
      = if decide (t' ∈ (E ++ [(h, t)])%list.*2)
        then Some (Z.of_nat (indegree (E ++ [(h, t)])%list t')) else None).
    { intros t'. rewrite dict_get_set, fmap_app, indegree_app, indegree_arrow.
      destruct (decide (t' = t)) as [-> | Hne].
      - rewrite decide_True by (apply elem_of_app; right; left).
        rewrite decide_True by done. rewrite Hnh.
        destruct (decide (t ∈ E.*2)) as [Ht | Ht]; simpl.
        + f_equal. lia.
        + rewrite (indegree_zero _ _ Ht). done.
      - rewrite Hnh, (decide_False (P := t = t')) by done.
        rewrite Nat.add_0_r.
        destruct (decide (t' ∈ E.*2)) as [Ht | Ht].
        + by rewrite decide_True by (apply elem_of_app; by left).
        + rewrite decide_False; [done |].
          intros [? | ?%list_elem_of_singleton]%elem_of_app; done. }
    assert (Hout : ∀ ts,
      dict_get tails0 h = ts →
      ∀ h', dict_get (dict_set h (default [] ts ++ [t])%list tails0) h'
            = if decide (h' ∈ (E ++ [(h, t)])%list.*1)
              then Some (arrows_from h' (E ++ [(h, t)])%list) else None).
    { intros ts Hts h'. rewrite dict_get_set, fmap_app, arrows_from_snoc.
      destruct (decide (h' = h)) as [-> | Hne].
      - rewrite decide_True by (apply elem_of_app; right; left).
        rewrite decide_True by done. f_equal. f_equal.
        rewrite <- Hts, Htails. destruct (decide (h ∈ E.*1)) as [Hh | Hh]; [done |].
        by rewrite arrows_from_none.
      - rewrite Htails, (decide_False (P := h = h')) by done. rewrite app_nil_r.
        destruct (decide (h' ∈ E.*1)) as [Hh | Hh].
        + by rewrite decide_True by (apply elem_of_app; by left).
        + rewrite decide_False; [done |].
          intros [? | ?%list_elem_of_singleton]%elem_of_app; done. }
    destruct (dict_get tails0 h) as [ts |] eqn:Hts; injection Hrun as <- <- <-.
    + assert (Hh : h ∈ E.*1).
      { rewrite Htails in Hts. by destruct (decide (h ∈ E.*1)). }
      assert (Hsame : ∀ h', h' ∈ heads0 ↔ h' ∈ (E ++ [(h, t)])%list.*1).
      { intros h'. rewrite Hin, fmap_app, elem_of_app. split; [by left |].
        intros [? | ->%list_elem_of_singleton]; done. }
      split_and!; [by apply dict_set_NoDup | exact Hcount | | done | exact Hsame].
      exact (Hout (Some ts) eq_refl).
    + assert (Hh : h ∉ E.*1).
      { rewrite Htails in Hts. by destruct (decide (h ∈ E.*1)). }
      assert (Hsame : ∀ h', h' ∈ (heads0 ++ [h])%list ↔ h' ∈ (E ++ [(h, t)])%list.*1).
      { intros h'. rewrite fmap_app, !elem_of_app, Hin. done. }
      split_and!; [by apply dict_set_NoDup | exact Hcount | | | exact Hsame].
      * exact (Hout None eq_refl).
      * apply NoDup_app. split_and!; [done | | apply NoDup_singleton].
        intros x Hx ->%list_elem_of_singleton. by apply Hh, Hin.
Qed.

Lemma released_nodes E U num_heads ordered :
  released E U num_heads ordered → (length ordered ≤ 2 * length E)%nat.
Proof.
  intros (Hnd & _ & _ & Hin & _).
  assert (Hsub : ordered ⊆+ (E.*1 ++ E.*2)%list).
  { apply NoDup_submseteq; [done |]. intros x Hx. apply Hin in Hx.
    apply elem_of_app. tauto. }
  apply submseteq_length in Hsub. rewrite length_app, !length_fmap in Hsub. lia.
Qed.

Lemma released_same E U U' num_heads ordered :
  U ≡ₚ U' → released E U num_heads ordered → released E U' num_heads ordered.
Proof.
  intros Hp (Hnd & Hkeys & Hget & Hin & Hord).
  split_and!; try done.
  - intros t. by rewrite Hget, (indegree_Permutation _ _ t Hp).
  - intros t. by rewrite Hin, (indegree_Permutation _ _ t Hp).
Qed.

(** One turn of the inner loop, which follows the arrow [(h, t)]. *)
Lemma release_arrow E U h t num_heads ordered m :
  released E U num_heads ordered →
  (U ++ [(h, t)])%list ⊆+ E →
  (∀ h' t', (h', t') ∈ (U ++ [(h, t)])%list →
     ∃ j, (j < m)%nat ∧ ordered !! j = Some h') →
  (m ≤ length ordered)%nat →
  let n := default 0 (dict_get num_heads t) - 1 in
  released E (U ++ [(h, t)])%list (dict_set t n num_heads)
    (if decide (n = 0) then (ordered ++ [t])%list else ordered).
Proof.
  intros (Hnd & Hkeys & Hget & Hin & Hord) Hsub Hsrc Hm n.
  assert (HtE : (h, t) ∈ E).
  { eapply elem_of_submseteq; [| exact Hsub]. apply elem_of_app. right. left. }
  assert (Ht2 : t ∈ E.*2) by (apply list_elem_of_fmap; by exists (h, t)).
  pose proof (indegree_submseteq _ _ t Hsub) as Hle.
  rewrite indegree_app, indegree_arrow, decide_True in Hle by done.
  assert (Hn : n = Z.of_nat (indegree E t) - Z.of_nat (indegree (U ++ [(h, t)])%list t)).
  { unfold n. rewrite Hget, decide_True by done.
    rewrite indegree_app, indegree_arrow, decide_True by done. simpl. lia. }
  assert (Hfresh : t ∉ ordered).
  { rewrite Hin. intros [[_ ?] | [_ ?]]; [done | lia]. }
  assert (Hget' : ∀ t', dict_get (dict_set t n num_heads) t'
    = if decide (t' ∈ E.*2)
      then Some (Z.of_nat (indegree E t')
                 - Z.of_nat (indegree (U ++ [(h, t)])%list t'))
      else None).
  { intros t'. rewrite dict_get_set. destruct (decide (t' = t)) as [-> | Hne].
    - by rewrite decide_True, Hn by done.
    - rewrite Hget, indegree_app, indegree_arrow.
      rewrite (decide_False (P := t = t')) by done. by rewrite Nat.add_0_r. }
  assert (Hother : ∀ t', t' ≠ t →
    indegree (U ++ [(h, t)])%list t' = indegree U t').
  { intros t' Hne. rewrite indegree_app, indegree_arrow.
    rewrite (decide_False (P := t = t')) by done. lia. }
  destruct (decide (n = 0)) as [Hzero | Hpos].
  - assert (Hall : indegree (U ++ [(h, t)])%list t = indegree E t) by lia.
    split_and!.
    + apply NoDup_app. split_and!; [done | | apply NoDup_singleton].
      by intros x Hx ->%list_elem_of_singleton.
    + by apply dict_set_NoDup.
    + exact Hget'.
    + intros t'. rewrite elem_of_app, list_elem_of_singleton.
      destruct (decide (t' = t)) as [-> | Hne].
      * split; [intros _; by right | intros _; by right].
      * rewrite Hin, (Hother _ Hne). split; [intros [? | ?]; done | by left].
    + intros h' t' k Harrow Hk.
      destruct (decide (k < length ordered)%nat) as [Hlt | Hge].
      * rewrite lookup_app_l in Hk by done.
        destruct (Hord _ _ _ Harrow Hk) as (j & Hj & Hlook).
        exists j. split; [done |]. rewrite lookup_app_l by lia. done.
      * rewrite lookup_app_r in Hk by lia.
        destruct (k - length ordered)%nat as [| k'] eqn:Hk'; [| done].
        injection Hk as <-.
        pose proof (indegree_full _ _ h' t Hsub Hall Harrow) as Hused.
        destruct (Hsrc _ _ Hused) as (j & Hj & Hlook).
        exists j. split; [lia |]. rewrite lookup_app_l by lia. done.
  - split_and!; [done | by apply dict_set_NoDup | exact Hget' | | done].
    intros t'. destruct (decide (t' = t)) as [-> | Hne].
    + split; [done |]. intros [[_ ?] | [_ ?]]; [done | lia].
    + by rewrite Hin, (Hother _ Hne).
Qed.

(** The inner loop over the arrows that leave [h]. *)
Lemma release_released E h m ts :
  ∀ U num_heads ordered,
    released E U num_heads ordered →
    (U ++ ((h,.) <$> ts))%list ⊆+ E →
    (∀ h' t', (h', t') ∈ (U ++ ((h,.) <$> ts))%list →
       ∃ j, (j < m)%nat ∧ ordered !! j = Some h') →
    (m ≤ length ordered)%nat →
    released E (U ++ ((h,.) <$> ts))%list
      (release ts num_heads ordered).1 (release ts num_heads ordered).2
    ∧ ordered `prefix_of` (release ts num_heads ordered).2.
Proof.
  induction ts as [| t ts IH]; intros U nh ord Hrel Hsub Hsrc Hm.
  - rewrite fmap_nil, app_nil_r. done.
  - rewrite fmap_cons in Hsub, Hsrc |- *. cbn [release].
    set (n := default 0 (dict_get nh t) - 1).
    set (ord1 := if decide (n = 0) then (ord ++ [t])%list else ord).
    assert (Hpre : ord `prefix_of` ord1).
    { unfold ord1. destruct (decide (n = 0)); [by apply prefix_app_r | done]. }
    assert (Hmid : (U ++ (h, t) :: ((h,.) <$> ts))%list
                   = ((U ++ [(h, t)]) ++ ((h,.) <$> ts))%list)
      by by rewrite <- (assoc_L (++)).
    rewrite Hmid in Hsub, Hsrc |- *.
    destruct (IH (U ++ [(h, t)])%list (dict_set t n nh) ord1) as [Hrel' Hpre'].
    + apply (release_arrow E U h t nh ord m); [done | | | done].
      * etrans; [| exact Hsub]. by apply submseteq_inserts_r.
      * intros h' t' Hin'. apply (Hsrc h' t'). apply elem_of_app. by left.
    + exact Hsub.
    + intros h' t' Hin'. destruct (Hsrc _ _ Hin') as (j & Hj & Hlook).
      exists j. split; [done |]. by eapply prefix_lookup_Some.
    + apply prefix_length in Hpre. lia.
    + split; [done | by etrans].
Qed.

(** The second loop ends and keeps [released], with the arrows that leave the
    visited nodes as the followed ones. *)
Lemma visit_released E tails :
  (∀ h, dict_get tails h
        = if decide (h ∈ E.*1) then Some (arrows_from h E) else None) →
  ∀ fuel i num_heads ordered,
    released E (filter (λ arrow : K * K, arrow.1 ∈ take i ordered) E)
      num_heads ordered →
    (i ≤ length ordered)%nat →
    (2 * length E < fuel + i)%nat →
    ∃ num_heads' ordered',
      visit fuel i tails num_heads ordered = Some (num_heads', ordered')
      ∧ released E (filter (λ arrow : K * K, arrow.1 ∈ ordered') E)
          num_heads' ordered'.
Proof.
  intros Htails fuel.
  induction fuel as [| fuel IH]; intros i nh ord Hrel Hi Hfuel.
  - apply released_nodes in Hrel. lia.
  - cbn [visit]. destruct (ord !! i) as [h |] eqn:Hlook.
    + assert (Hlt : (i < length ord)%nat)
        by (apply lookup_lt_is_Some; by eexists).
      assert (Hts : default [] (dict_get tails h) = arrows_from h E).
      { rewrite Htails. destruct (decide (h ∈ E.*1)) as [Hh | Hh]; [done |].
        by rewrite arrows_from_none. }
      rewrite Hts.
      assert (Hnd : NoDup ord) by apply Hrel.
      assert (Hfresh : h ∉ take i ord).
      { intros (j & Hj & Hji)%elem_of_take.
        pose proof (NoDup_lookup _ _ _ _ Hnd Hj Hlook). lia. }
      assert (Hsplit :
        filter (λ arrow : K * K, arrow.1 ∈ take i ord ∨ arrow.1 = h) E
        ≡ₚ (filter (λ arrow : K * K, arrow.1 ∈ take i ord) E
            ++ ((h,.) <$> arrows_from h E))%list).
      { rewrite arrows_from_filter. apply filter_either.
        intros x Hx Hh. apply Hfresh. by rewrite <- Hh. }
      destruct (release_released E h (S i) (arrows_from h E) _ nh ord Hrel)
        as [Hrel' Hpre].
      * rewrite <- Hsplit. apply sublist_submseteq, sublist_filter.
      * intros h' t' Hin'. rewrite <- Hsplit in Hin'.
        apply list_elem_of_filter in Hin' as [[Hh' | Hh'] _]; cbn [fst] in Hh'.
        -- apply elem_of_take in Hh' as (j & Hj & Hji). exists j. split; [lia | done].
        -- subst h'. exists i. split; [lia | done].
      * lia.
      * destruct (release (arrows_from h E) nh ord) as [nh1 ord1].
        cbn [fst snd] in Hrel', Hpre.
        assert (Hlen : (length ord ≤ length ord1)%nat) by by apply prefix_length.
        apply (IH (S i) nh1 ord1); [| lia | lia].
        eapply released_same; [| exact Hrel'].
        rewrite <- Hsplit.
        assert (Htake : take (S i) ord1 = (take i ord ++ [h])%list).
        { destruct Hpre as [rest ->]. rewrite take_app_le by lia.
          by apply take_S_r. }
        rewrite Htake. clear. induction E as [| [h' t'] E IH]; [done |].
        rewrite !filter_cons. cbn [fst].
        destruct (decide (h' ∈ take i ord ∨ h' = h)) as [Hyes | Hno].
        -- rewrite decide_True.
           ++ by rewrite IH.
           ++ rewrite elem_of_app, list_elem_of_singleton. done.
        -- rewrite decide_False; [done |].
           rewrite elem_of_app, list_elem_of_singleton. done.
    + exists nh, ord. split; [done |].
      apply lookup_ge_None in Hlook. by rewrite take_ge in Hrel by lia.
Qed.

(** What [topological_sort] returns, for the theorems below to read from. *)
Lemma topological_sort_released E fuel :
  (2 * length E < fuel)%nat →
  ∃ num_heads ordered,
    topological_sort fuel E
    = Some {| sorted := ordered;
              cyclic := (filter (λ e : K * Z, e.2 ≠ 0) num_heads).*1 |}
    ∧ released E (filter (λ arrow : K * K, arrow.1 ∈ ordered) E)
        num_heads ordered.
Proof.
  intros Hfuel. unfold topological_sort.
  destruct (foldl add_arrow ([], [], []) E) as [[nh0 tails0] heads0] eqn:Hfirst.
  destruct (first_loop E _ _ _ Hfirst) as (Hkeys & Hget & Htails & Hheads & Hin).
  assert (Hkey : ∀ t, t ∈ nh0.*1 ↔ t ∈ E.*2).
  { intros t. destruct (decide (t ∈ nh0.*1)) as [Hyes | Hno].
    - split; [intros _ | done]. destruct (dict_get nh0 t) eqn:Hg.
      + rewrite Hget in Hg. by destruct (decide (t ∈ E.*2)).
      + by apply dict_get_None in Hg.
    - split; [done | intros Ht]. apply dict_get_None in Hno.
      rewrite Hget, decide_True in Hno by done. done. }
  destruct (visit_released E tails0 Htails fuel 0 nh0
              (filter (λ h, h ∉ nh0.*1) heads0)) as (nh & ord & Hrun & Hrel).
  - split_and!.
    + by apply NoDup_filter.
    + done.
    + intros t. rewrite Hget. destruct (decide (t ∈ E.*2)); [| done].
      f_equal. assert (Hnone : indegree (filter (λ arrow : K * K,
        arrow.1 ∈ take 0 (filter (λ h, h ∉ nh0.*1) heads0)) E) t = 0%nat).
      { apply indegree_zero. intros ([h' t'] & _ & Hf)%list_elem_of_fmap.
        apply list_elem_of_filter in Hf as [Hf _]. by apply elem_of_nil in Hf. }
      rewrite Hnone. lia.
    + intros t. rewrite list_elem_of_filter, Hin, Hkey. split.
      * intros [? ?]. by left.
      * intros [[? ?] | [Ht Hall]]; [done |].
        apply list_elem_of_fmap in Ht as ([h' t'] & -> & Harrow). cbn [snd] in Hall.
        pose proof (indegree_pos _ _ _ Harrow) as Hpos.
        pose proof (indegree_submseteq
          (filter (λ arrow : K * K,
             arrow.1 ∈ take 0 (filter (λ h, h ∉ nh0.*1) heads0)) E) E t') as Hle.
        exfalso.
        assert (Hnone : indegree (filter (λ arrow : K * K,
          arrow.1 ∈ take 0 (filter (λ h, h ∉ nh0.*1) heads0)) E) t' = 0%nat).
        { apply indegree_zero. intros ([h'' t''] & _ & Hf)%list_elem_of_fmap.
          apply list_elem_of_filter in Hf as [Hf _]. by apply elem_of_nil in Hf. }
        lia.
    + intros h t k Harrow Hk. exfalso.
      apply list_elem_of_lookup_2 in Hk.
      apply list_elem_of_filter in Hk as [Hk _]. apply Hk, Hkey.
      apply list_elem_of_fmap. by exists (h, t).
  - simpl. lia.
  - lia.
  - exists nh, ord. by rewrite Hrun.
Qed.

(** The facts about the result that the theorems below share. *)
Lemma topological_sort_facts E fuel :
  (2 * length E < fuel)%nat →
  ∃ res,
    topological_sort fuel E = Some res
    ∧ NoDup (sorted res)
    ∧ NoDup (cyclic res)
    ∧ (∀ n, n ∈ sorted res ↔ (n ∈ E.*1 ∨ n ∈ E.*2) ∧ n ∉ cyclic res)
    ∧ (∀ n, n ∈ cyclic res → n ∈ E.*2)
    ∧ (∀ h t k, (h, t) ∈ E → sorted res !! k = Some t →
         ∃ j, (j < k)%nat ∧ sorted res !! j = Some h)
    ∧ (∀ t, t ∈ cyclic res → ∃ h, (h, t) ∈ E ∧ h ∈ cyclic res).
Proof.
  intros Hfuel.
  destruct (topological_sort_released E fuel Hfuel)
    as (nh & ord & Hrun & Hnd & Hkeys & Hget & Hin & Hord).
  set (used := filter (λ arrow : K * K, arrow.1 ∈ ord) E) in *.
  assert (Hused : used ⊆+ E) by apply sublist_submseteq, sublist_filter.
  assert (Hcyc : ∀ t, t ∈ (filter (λ e : K * Z, e.2 ≠ 0) nh).*1
                       ↔ t ∈ E.*2 ∧ indegree used t ≠ indegree E t).
  { intros t. pose proof (indegree_submseteq _ _ t Hused) as Hle. split.
    - intros ([t' v] & -> & Hf)%list_elem_of_fmap.
      apply list_elem_of_filter in Hf as [Hv Hf]. cbn [fst snd] in *.
      apply dict_elem_get in Hf; [| done]. rewrite Hget in Hf.
      destruct (decide (t' ∈ E.*2)); [| done]. injection Hf as <-.
      split; [done | lia].
    - intros [Ht Hne]. apply list_elem_of_fmap.
      exists (t, Z.of_nat (indegree E t) - Z.of_nat (indegree used t)).
      split; [done |]. apply list_elem_of_filter. split; [cbn [snd]; lia |].
      apply dict_get_Some_elem. by rewrite Hget, decide_True. }
  assert (Hsort : ∀ n, n ∈ ord
    ↔ (n ∈ E.*1 ∨ n ∈ E.*2) ∧ n ∉ (filter (λ e : K * Z, e.2 ≠ 0) nh).*1).
  { intros n. rewrite Hin, Hcyc. destruct (decide (n ∈ E.*2)) as [Hn | Hn].
    - destruct (decide (indegree used n = indegree E n)); tauto.
    - tauto. }
  eexists. split; [exact Hrun |]. cbn [sorted cyclic]. split_and!.
  - done.
  - eapply sublist_NoDup; [exact Hkeys |]. apply fmap_sublist, sublist_filter.
  - exact Hsort.
  - intros n Hn. by apply Hcyc in Hn as [? _].
  - exact Hord.
  - intros t Ht. apply Hcyc in Ht as Ht'. destruct Ht' as [Ht2 Hne].
    destruct (decide (Forall (λ arrow : K * K, arrow.2 = t → arrow.1 ∈ ord) E))
      as [Hall | Hsome].
    + exfalso. apply Hne. unfold indegree, used. f_equal.
      clear -Hall. induction E as [| [h' t'] E IH]; [done |].
      apply Forall_cons in Hall as [Hhead Hall]. cbn [fst snd] in Hhead.
      rewrite !filter_cons. cbn [fst snd].
      destruct (decide (t' = t)) as [-> | Hne].
      * rewrite decide_True by by apply Hhead. rewrite filter_cons. cbn [snd].
        rewrite decide_True by done. by rewrite IH.
      * destruct (decide (h' ∈ ord)); [| by apply IH].
        rewrite filter_cons. cbn [snd]. rewrite decide_False by done. by apply IH.
    + apply not_Forall_Exists in Hsome; [| solve_decision].
      apply Exists_exists in Hsome as ([h' t'] & Harrow & Hnot).
      cbn [fst snd] in Hnot.
      destruct (decide (t' = t)) as [-> | Hne']; [| by destruct Hnot].
      exists h'. split; [done |].
      destruct (decide (h' ∈ (filter (λ e : K * Z, e.2 ≠ 0) nh).*1)) as [? | Hout];
        [done |].
      exfalso. apply Hnot. intros _. apply Hsort. split; [| done].
      left. apply list_elem_of_fmap. by exists (h', t).
Qed.

End SortFacts.

Section SortResults.

Import Helpers.

Context {K : Type} `{EqDecision K}.

(** [topological_sort] ends within [2 * len(pairs) + 1] turns of its
    second loop.  [sorted] and [cyclic] hold no node twice, every node of the
    pairs is in exactly one of them, and whenever the tail of an arrow is in
    [sorted], the head of the arrow stands before it there. *)
Theorem topological_sort_orders (dependency_pairs : list (K * K)) (fuel : nat) :
  (2 * length dependency_pairs < fuel)%nat →
  ∃ res,
    topological_sort fuel dependency_pairs = Some res
    ∧ NoDup (sorted res)
    ∧ NoDup (cyclic res)
    ∧ (∀ n, n ∈ dependency_pairs.*1 ∨ n ∈ dependency_pairs.*2
            ↔ n ∈ sorted res ∨ n ∈ cyclic res)
    ∧ (∀ n, n ∈ sorted res → n ∉ cyclic res)
    ∧ (∀ h t k, (h, t) ∈ dependency_pairs → sorted res !! k = Some t →
         ∃ j, (j < k)%nat ∧ sorted res !! j = Some h).
Proof.
  intros Hfuel.
  destruct (topological_sort_facts dependency_pairs fuel Hfuel)
    as (res & Hrun & Hnd & Hndc & Hsort & Hcyc & Hord & _).
  exists res. split_and!; try done.
  - intros n. split.
    + intros Hnode. destruct (decide (n ∈ cyclic res)); [by right | left].
      by apply Hsort.
    + intros [Hn | Hn]; [by apply Hsort in Hn as [? _] | right; by apply Hcyc].
  - intros n Hn. by apply Hsort in Hn as [_ ?].
Qed.

(** [cyclic] is empty exactly when the pairs form no cycle, that is when
    the nodes can be ranked so that every arrow goes up; and every node of
    [cyclic] is the tail of an arrow whose head is in [cyclic] too. *)
Theorem topological_sort_finds_cycles (dependency_pairs : list (K * K)) (fuel : nat) :
  (2 * length dependency_pairs < fuel)%nat →
  ∃ res,
    topological_sort fuel dependency_pairs = Some res
    ∧ (cyclic res = [] ↔ ranked dependency_pairs)
    ∧ (∀ t, t ∈ cyclic res → ∃ h, (h, t) ∈ dependency_pairs ∧ h ∈ cyclic res).
Proof.
  intros Hfuel.
  destruct (topological_sort_facts dependency_pairs fuel Hfuel)
    as (res & Hrun & Hnd & Hndc & Hsort & Hcyc & Hord & Hback).
  exists res. split_and!; [done | | done].
  split.
  - intros Hnone.
    exists (λ n, default 0%nat (fst <$> list_find (λ x, x = n) (sorted res))).
    intros h t Harrow.
    assert (Ht : t ∈ sorted res).
    { apply Hsort. rewrite Hnone. split; [| apply not_elem_of_nil].
      right. apply list_elem_of_fmap. by exists (h, t). }
    apply list_elem_of_lookup in Ht as [k Hk].
    destruct (Hord _ _ _ Harrow Hk) as (j & Hj & Hlook).
    assert (Hfind : ∀ i x, sorted res !! i = Some x →
      list_find (λ y, y = x) (sorted res) = Some (i, x)).
    { intros i x Hi. apply list_find_Some. split_and!; [done | done |].
      intros i' y Hi' Hlt ->.
      pose proof (NoDup_lookup _ _ _ _ Hnd Hi Hi'). lia. }
    rewrite (Hfind _ _ Hk), (Hfind _ _ Hlook). simpl. done.
  - intros [rank Hrank].
    assert (Hfree : ∀ r t, rank t = r → t ∉ cyclic res).
    { intros r. induction r as [r IH] using lt_wf_ind. intros t <- Ht.
      destruct (Hback _ Ht) as (h & Harrow & Hh).
      exact (IH (rank h) (Hrank _ _ Harrow) h eq_refl Hh). }
    destruct (cyclic res) as [| t rest]; [done |].
    exfalso. apply (Hfree (rank t) t eq_refl). left.
Qed.

End SortResults.

(** The example of the docstring: no node is left in [cyclic]. *)
Lemma topological_sort_orders_sample :
  ∃ res,
    Helpers.topological_sort 23 docstring_arrows = Some res
    ∧ NoDup (Helpers.sorted res)
    ∧ NoDup (Helpers.cyclic res)
    ∧ (∀ n, n ∈ docstring_arrows.*1 ∨ n ∈ docstring_arrows.*2
            ↔ n ∈ Helpers.sorted res ∨ n ∈ Helpers.cyclic res)
    ∧ (∀ n, n ∈ Helpers.sorted res → n ∉ Helpers.cyclic res)
    ∧ (∀ h t k, (h, t) ∈ docstring_arrows → Helpers.sorted res !! k = Some t →
         ∃ j, (j < k)%nat ∧ Helpers.sorted res !! j = Some h).
Proof.
  apply (topological_sort_orders docstring_arrows 23). simpl. lia.
Defined.

(** Two tables that refer to each other stay in [cyclic], with the table
    that hangs on them. *)
Lemma topological_sort_finds_cycles_sample :
  ∃ res,
    Helpers.topological_sort 7 looping_arrows = Some res
    ∧ (Helpers.cyclic res = [] ↔ ranked looping_arrows)
    ∧ (∀ t, t ∈ Helpers.cyclic res →
         ∃ h, (h, t) ∈ looping_arrows ∧ h ∈ Helpers.cyclic res).
Proof.
  apply (topological_sort_finds_cycles looping_arrows 7). simpl. lia.
Defined.

(** ** [init_table] and [drop_table] *)

Section ScratchTableFacts.

Import Storages.

(** After [init_table] every store of the class counts no row and lists
    none, whatever the world was before, and [is_not_empty] answers the flag
    the object had: a store that had seen a value still answers [True].  After
    [drop_table] the queries and an [insert] of some value raise the database
    error, and an [insert] of nothing returns without a query. *)
Theorem init_table_starts_empty (k : sdt_class) (self : StorageDataTable)
    (x : pk) (data : list pk) (w : World) :
  let w1 := (init_table k w).2 in
  let w2 := (drop_table k w1).2 in
  (init_table k w).1 = Ok tt
  ∧ sdt_len k self w1 = (Ok 0, w1)
  ∧ sdt_all k self w1 = (Ok [], w1)
  ∧ (sdt_is_not_empty k self w1).1 = Ok (_have_value self, self)
  ∧ (drop_table k w1).1 = Ok tt
  ∧ sdt_len k self w2 = (Raise PostgresError, w2)
  ∧ sdt_all k self w2 = (Raise PostgresError, w2)
  ∧ sdt_insert k self (x :: data) w2 = (Raise PostgresError, w2)
  ∧ sdt_insert k self [] w2 = (Ok tt, w2).
Proof.
  intros w1 w2.
  assert (Hdb : _dst_db (cls_attrs k w1) = true) by by destruct k.
  assert (Hrel : storage_data w1 = Some ∅) by done.
  assert (Hread : relation k w1 = (Ok ∅, w1)).
  { unfold relation. by rewrite Hdb, Hrel. }
  assert (Hdrop : drop_table k w1 = (Ok tt, set_storage_data None w1)).
  { unfold drop_table. by rewrite Hdb. }
  assert (Hdb2 : _dst_db (cls_attrs k w2) = true).
  { unfold w2. rewrite Hdrop. by destruct k. }
  assert (Hgone : relation k w2 = (Raise PostgresError, w2)).
  { unfold relation. rewrite Hdb2. unfold w2. by rewrite Hdrop. }
  split_and!.
  - done.
  - unfold sdt_len, st_bind. rewrite Hread. unfold st_ret.
    by rewrite group_data_empty, size_empty.
  - unfold sdt_all, st_bind. rewrite Hread. unfold st_ret.
    by rewrite group_data_empty, ordered_empty.
  - unfold sdt_is_not_empty. destruct self as [[|] g]; [done |].
    cbn [_have_value _group]. unfold st_bind. rewrite Hread. unfold st_ret.
    cbn [fst]. rewrite group_data_empty. by rewrite bool_decide_false by (intros H; by apply H).
  - by rewrite Hdrop.
  - unfold sdt_len, st_bind. by rewrite Hgone.
  - unfold sdt_all, st_bind. by rewrite Hgone.
  - unfold sdt_insert, st_bind. by rewrite Hgone.
  - done.
Qed.

End ScratchTableFacts.
